(** * Smart-swap router: a shallow embedding of [findBestRoutes]

    The router (sdk/src/router) slices a trade into percentage buckets, quotes
    every candidate route hop by hop, assembles and prunes the per-bucket route
    quotes and ranks combinations of them.  The quote map is a JavaScript object
    keyed by percentage whose values are arrays indexed by route; it is modelled
    as a [gmap] from percentages to lists of optional entries (an array hole or
    [undefined] is [None]).  Exceptions are explicit: a function that can throw
    returns [Exc]. *)

From Stdlib Require Import ZArith Lia Sorted Permutation.
From stdpp Require Import gmap strings list fin_maps sorting.

Local Open Scope Z_scope.

(** ** Values thrown and the result of a call that may throw *)

Definition Address := string.

(** [SwapErrorCode] is a string enum of errors/errors.ts; its members are their
    own names. *)
Definition SwapErrorCode := string.

Definition TickArraySequenceInvalid : SwapErrorCode := "TickArraySequenceInvalid".

(** What a [catch] clause can receive.  JavaScript throws any value; [Nullish]
    is a thrown [null] or [undefined], the one kind of value whose properties
    cannot be read. *)
Inductive Thrown :=
| TypeError
| RangeError
| SwapError (errorCode : option SwapErrorCode)
| Fault (stack : string)
| Nullish.

Inductive Exc (A : Type) :=
| Returns (a : A)
| Throws (e : Thrown).

Arguments Returns {A} a.
Arguments Throws {A} e.

(** [e.errorCode] of a caught value: only the quote engine's errors carry one,
    and reading a property of [null] or [undefined] throws a TypeError. *)
Definition errorCodeOf (e : Thrown) : Exc (option SwapErrorCode) :=
  match e with
  | SwapError c => Returns c
  | Nullish => Throws TypeError
  | _ => Returns None
  end.

(** [e.stack] of a caught value, kept as the value itself; it throws like
    [errorCodeOf] on [null] and [undefined]. *)
Definition stackOf (e : Thrown) : Exc Thrown :=
  match e with
  | Nullish => Throws TypeError
  | _ => Returns e
  end.

#[global] Instance exc_ret : MRet Exc := fun _ a => Returns a.

#[global] Instance exc_bind : MBind Exc := fun _ _ f m =>
  match m with
  | Returns a => f a
  | Throws e => Throws e
  end.

(** A [for] loop over an array with its index, threading the loop state. *)
Fixpoint forEachIndexed {A St : Type} (body : St -> nat -> A -> Exc St)
    (s : St) (i : nat) (l : list A) : Exc St :=
  match l with
  | [] => Returns s
  | x :: l' => s' ← body s i x; forEachIndexed body s' (S i) l'
  end.

Fixpoint forEach {A St : Type} (body : St -> A -> Exc St) (s : St) (l : list A) : Exc St :=
  match l with
  | [] => Returns s
  | x :: l' => s' ← body s x; forEach body s' l'
  end.

(** ** JavaScript arrays with holes *)

(** [a[i]]: a hole, [undefined] and an index past the end all read as [None]. *)
Definition arrGet {A : Type} (a : list (option A)) (i : nat) : option A :=
  mjoin (a !! i).

(** [a[i]] for an index computed with subtraction: a negative index reads
    nothing. *)
Definition arrGetZ {A : Type} (a : list (option A)) (i : Z) : option A :=
  if i <? 0 then None else arrGet a (Z.to_nat i).

(** [a[i] = v]: in range the slot is overwritten, past the end the array grows
    and the gap is holes. *)
Definition arrSet {A : Type} (i : nat) (v : A) (a : list (option A)) : list (option A) :=
  if decide (i < length a)%nat then <[i := Some v]> a
  else a ++ replicate (i - length a)%nat None ++ [Some v].

(** [a.slice(0, n)]: a negative [n] counts from the end. *)
Definition slice0 {A : Type} (a : list A) (n : Z) : list A :=
  if n <? 0 then take (Z.to_nat (Z.of_nat (length a) + n)) a else take (Z.to_nat n) a.

(** [BN.cmp]: -1, 0 or 1. *)
Definition bnCmp (a b : Z) : Z :=
  match a ?= b with
  | Lt => -1
  | Eq => 0
  | Gt => 1
  end.

(** [Array.prototype.sort(cmp)]: the sort is stable (ECMAScript 2019), so for a
    consistent comparator its result is the one of this insertion sort: an
    element moves behind those that compare strictly before it and stays in
    front of its ties. *)
Fixpoint sortInsert {A : Type} (cmp : A -> A -> Z) (x : A) (l : list A) : list A :=
  match l with
  | [] => [x]
  | y :: l' => if cmp x y <=? 0 then x :: y :: l' else y :: sortInsert cmp x l'
  end.

Fixpoint jsSort {A : Type} (cmp : A -> A -> Z) (l : list A) : list A :=
  match l with
  | [] => []
  | x :: l' => sortInsert cmp x (jsSort cmp l')
  end.

(** ** Percentage Slicer: [generatePercentageAmounts] *)

(** The loop test [i <= 100 / minPercent] on JavaScript numbers.  [100 / 0] is
    [Infinity]; for a non-zero integer divisor the quotient is compared exactly
    by cross-multiplying (a negative divisor flips the comparison). *)
Definition sliceLoopTest (i minPercent : Z) : bool :=
  if minPercent =? 0 then true
  else if 0 <? minPercent then i * minPercent <=? 100
  else 100 <=? i * minPercent.

(** The [for] loop of [generatePercentageAmounts]; [BN.div] truncates. *)
Fixpoint sliceLoop (fuel : nat) (inputAmount minPercent i : Z)
    (percents amounts : list Z) : option (list Z * list Z) :=
  match fuel with
  | O => None
  | S fuel' =>
      if sliceLoopTest i minPercent then
        sliceLoop fuel' inputAmount minPercent (i + 1)
          (percents ++ [i * minPercent])
          (amounts ++ [Z.quot (inputAmount * (i * minPercent)) 100])
      else Some (percents, amounts)
  end.

Definition generatePercentageAmounts (fuel : nat) (inputAmount minPercent : Z)
    : option (list Z * list Z) :=
  sliceLoop fuel inputAmount minPercent 1 [] [].

(** ** Data model *)

(** A pool of the pool graph ([TokenPairPool]); the router reads its address and
    its two mints. *)
Record TokenPairPool := {
  pool_address : Address;
  pool_tokenMintA : Address;
  pool_tokenMintB : Address;
}.

Record SwapQuoteRequest := {
  req_whirlpool : Address;
  req_tradeTokenMint : Address;
  req_tokenAmount : Z;
  req_amountSpecifiedIsInput : bool;
}.

Record WhirlpoolData := {
  wd_tokenMintA : Address;
  wd_tokenMintB : Address;
  wd_tokenVaultA : Address;
  wd_tokenVaultB : Address;
}.

Record SwapQuoteParam := {
  sp_whirlpoolData : WhirlpoolData;
  sp_tokenAmount : Z;
  sp_aToB : bool;
  sp_amountSpecifiedIsInput : bool;
}.

(** The quote engine's answer; the router reads [otherAmountThreshold]. *)
Record SwapQuote := {
  otherAmountThreshold : Z;
}.

Record SuccessHop := {
  hop_percent : Z;
  hop_amountIn : Z;
  hop_amountOut : Z;
  hop_whirlpool : Address;
  hop_inputMint : Address;
  hop_outputMint : Address;
  hop_mintA : Address;
  hop_mintB : Address;
  hop_vaultA : Address;
  hop_vaultB : Address;
  hop_quote : SwapQuote;
}.

(** A slot of [calculatedHops]: [{success: true, ...}] or
    [{success: false, error}]. *)
Inductive HopResult :=
| HopSuccess (h : SuccessHop)
| HopFailure (error : option SwapErrorCode).

Record InternalRouteQuote := {
  irq_percent : Z;
  irq_route : list Address;
  irq_calculatedHops : list (option HopResult);
}.

Abbreviation QuoteMap := (gmap Z (list (option InternalRouteQuote))).

Record QuoteUpdate := {
  upd_percent : Z;
  upd_routeIndex : nat;
  upd_hopIndex : nat;
  upd_quoteIndex : nat;
  upd_address : Address;
  upd_request : SwapQuoteRequest;
}.

Record RouteQuote := {
  rq_percent : Z;
  rq_route : list Address;
  rq_amountIn : Z;
  rq_amountOut : Z;
  rq_calculatedHops : list SuccessHop;
}.

Abbreviation CleanQuoteMap := (gmap Z (list RouteQuote)).

Record TradeRoute := {
  tr_quotes : list RouteQuote;
  tr_percent : Z;
  tr_totalIn : Z;
  tr_totalOut : Z;
}.

Record RoutingOptions := {
  percentIncrement : Z;
  numTopRoutes : Z;
  numTopPartialQuotes : Z;
  maxSplits : Z;
}.

Record PartialRoutingOptions := {
  user_percentIncrement : option Z;
  user_numTopRoutes : option Z;
  user_numTopPartialQuotes : option Z;
  user_maxSplits : option Z;
}.

Definition DEFAULT_ROUTING_OPTIONS : RoutingOptions :=
  {| percentIncrement := 20; numTopRoutes := 50; numTopPartialQuotes := 10; maxSplits := 3 |}.

(** [{ ...DEFAULT_ROUTING_OPTIONS, ...userRoutingOptions }] *)
Definition mergeRoutingOptions (user : PartialRoutingOptions) : RoutingOptions :=
  {| percentIncrement := default (percentIncrement DEFAULT_ROUTING_OPTIONS) (user_percentIncrement user);
     numTopRoutes := default (numTopRoutes DEFAULT_ROUTING_OPTIONS) (user_numTopRoutes user);
     numTopPartialQuotes :=
       default (numTopPartialQuotes DEFAULT_ROUTING_OPTIONS) (user_numTopPartialQuotes user);
     maxSplits := default (maxSplits DEFAULT_ROUTING_OPTIONS) (user_maxSplits user) |}.

Inductive RouteQueryError :=
| ROUTE_DOES_NOT_EXIST
| TRADE_AMOUNT_TOO_HIGH
| ZERO_INPUT_AMOUNT
| GENERAL.

(** [BestRoutesResult]; [stack] is the diagnostic of the caught value. *)
Inductive BestRoutesResult :=
| BestRoutes (bestRoutes : list TradeRoute)
| BestRoutesFailure (error : RouteQueryError) (stack : option Thrown).

(** How the promise of an [async] function settles: resolved with the returned
    value, or rejected, either with the value handed to [Promise.reject] or with
    a value thrown outside every [try]. *)
Inductive Rejection :=
| RejectedWith (reason : BestRoutesResult)
| Uncaught (e : Thrown).

Inductive Settled :=
| Resolved (value : BestRoutesResult)
| Rejected (reason : Rejection).

(** ** Quote map accessors *)

(** [quoteMap[percent][routeIndex]]; reading through a missing bucket throws. *)
Definition getEntry (quoteMap : QuoteMap) (percent : Z) (routeIndex : nat)
    : Exc (option InternalRouteQuote) :=
  match quoteMap !! percent with
  | Some bucket => Returns (arrGet bucket routeIndex)
  | None => Throws TypeError
  end.

(** [quoteMap[percent][routeIndex] = entry] *)
Definition setEntry (quoteMap : QuoteMap) (percent : Z) (routeIndex : nat)
    (entry : InternalRouteQuote) : Exc QuoteMap :=
  match quoteMap !! percent with
  | Some bucket => Returns (<[percent := arrSet routeIndex entry bucket]> quoteMap)
  | None => Throws TypeError
  end.

(** The flatMap filters of [categorizeQuotes]: the successful slots, and the
    [error] fields of the failed ones; holes and [undefined] are skipped. *)
Definition successHops (calculatedHops : list (option HopResult)) : list SuccessHop :=
  omap (fun val => match val with Some (HopSuccess h) => Some h | _ => None end) calculatedHops.

Definition failureHops (calculatedHops : list (option HopResult))
    : list (option SwapErrorCode) :=
  omap (fun f => match f with Some (HopFailure e) => Some e | _ => None end) calculatedHops.

(** ** The router *)

Section Router.

(** The collaborators outside the router: the quote engine
    ([swapQuoteWithParams], called with [undefined] when the parameter array has
    no such index), the batched parameter builder, the state prefetch (both with
    the program id and the fetcher of the call), the pool graph's key of a token
    pair and the combination ranker. *)
Variable swapQuoteWithParams : option SwapQuoteParam -> Exc SwapQuote.
Variable batchBuildSwapQuoteParams : list SwapQuoteRequest -> Exc (list SwapQuoteParam).
Variable prefetchRoutes : list (list Address) -> Exc unit.
Variable getRouteId : Address -> Address -> string.
Variable getRankedRoutes : CleanQuoteMap -> bool -> Z -> Z -> list TradeRoute.

(** *** Quote Batch Builder: [buildQuoteUpdateRequests] *)

(** The body of the loop over routes, for one percentage and one route;
    [Returns st] unchanged is a [continue].  Addresses are base58 strings, on
    which [AddressUtil.toPubKey(a).toBase58()] is the identity.  Reading a
    field of an [undefined] pool or entry throws a TypeError; [pool.address] is
    read only when the request is pushed. *)
Definition buildRouteRequest (inputTokenMint outputTokenMint : Address)
    (pools : gmap Address TokenPairPool) (hop : nat) (amountSpecifiedIsInput : bool)
    (percent tradeAmount : Z)
    (st : list QuoteUpdate * QuoteMap) (routeIndex : nat) (route : list Address)
    : Exc (list QuoteUpdate * QuoteMap) :=
  let '(quoteUpdates, quoteMap) := st in
  let routeLength := Z.of_nat (length route) in
  if (if amountSpecifiedIsInput then routeLength <=? Z.of_nat hop
      else Z.of_nat hop >? routeLength - 1)
  then Returns st
  else
    let startingRouteEval :=
      if amountSpecifiedIsInput then Z.of_nat hop =? 0 else Z.of_nat hop =? routeLength - 1 in
    quoteMap ← (if startingRouteEval
                 then setEntry quoteMap percent routeIndex
                        {| irq_percent := percent; irq_route := route;
                           irq_calculatedHops := replicate (length route) None |}
                 else Returns quoteMap);
    currentQuote ← getEntry quoteMap percent routeIndex;
    match route !! 0%nat ≫= (pools !!.) with
    | None => Throws TypeError
    | Some initialPool =>
        let orderedRoute :=
          if bool_decide (pool_tokenMintA initialPool ≠ inputTokenMint)
             && bool_decide (pool_tokenMintB initialPool ≠ inputTokenMint)
          then reverse route else route in
        let pool := orderedRoute !! hop ≫= (pools !!.) in
        match currentQuote with
        | None => Throws TypeError
        | Some currentQuote =>
            let lastHop :=
              if amountSpecifiedIsInput
              then arrGetZ (irq_calculatedHops currentQuote) (Z.of_nat hop - 1)
              else arrGetZ (irq_calculatedHops currentQuote) (Z.of_nat hop + 1) in
            let trade :=
              if startingRouteEval
              then Some (tradeAmount,
                         if amountSpecifiedIsInput then inputTokenMint else outputTokenMint)
              else match lastHop with
                   | Some (HopSuccess h) =>
                       Some (if amountSpecifiedIsInput then hop_amountOut h else hop_amountIn h,
                             if amountSpecifiedIsInput then hop_outputMint h else hop_inputMint h)
                   | _ => None
                   end in
            match trade with
            | None => Returns (quoteUpdates, quoteMap)
            | Some (tokenAmount, tradeToken) =>
                match pool with
                | None => Throws TypeError
                | Some pool =>
                    Returns
                      (quoteUpdates ++
                         [{| upd_percent := percent;
                             upd_routeIndex := routeIndex;
                             upd_hopIndex := hop;
                             upd_quoteIndex := length quoteUpdates;
                             upd_address := pool_address pool;
                             upd_request :=
                               {| req_whirlpool := pool_address pool;
                                  req_tradeTokenMint := tradeToken;
                                  req_tokenAmount := tokenAmount;
                                  req_amountSpecifiedIsInput := amountSpecifiedIsInput |} |}],
                       quoteMap)
                end
            end
        end
    end.

(** The body of the loop over [amountIndex].  The loop runs over [amounts] and
    reads [percents] at the same index; the two are the parallel arrays of the
    slicer, of equal length, and are walked here as pairs. *)
Definition buildPercentRequests (inputTokenMint outputTokenMint : Address)
    (pools : gmap Address TokenPairPool) (pairRoutes : list (list Address))
    (hop : nat) (amountSpecifiedIsInput : bool)
    (st : list QuoteUpdate * QuoteMap) (slice : Z * Z)
    : Exc (list QuoteUpdate * QuoteMap) :=
  let '(quoteUpdates, quoteMap) := st in
  let '(percent, tradeAmount) := slice in
  let quoteMap :=
    match quoteMap !! percent with
    | Some _ => quoteMap
    | None => <[percent := replicate (length pairRoutes) None]> quoteMap
    end in
  forEachIndexed
    (buildRouteRequest inputTokenMint outputTokenMint pools hop amountSpecifiedIsInput
       percent tradeAmount)
    (quoteUpdates, quoteMap) 0%nat pairRoutes.

(** Returns the requests and the quote map as the call left it. *)
Definition buildQuoteUpdateRequests (inputTokenMint outputTokenMint : Address)
    (pools : gmap Address TokenPairPool) (pairRoutes : list (list Address))
    (percents amounts : list Z) (hop : nat) (amountSpecifiedIsInput : bool)
    (quoteMap : QuoteMap) : Exc (list QuoteUpdate * QuoteMap) :=
  forEach
    (buildPercentRequests inputTokenMint outputTokenMint pools pairRoutes hop
       amountSpecifiedIsInput)
    ([], quoteMap) (zip percents amounts).

(** *** Hop Quote Executor: [updateQuoteMap] *)

(** The slot written for one update: the [try] block's success record, or the
    [catch] block's failure.  Destructuring an [undefined] parameter inside the
    [try] is a TypeError, which has no [errorCode].  The [catch] block reads
    [e.errorCode] unguarded, so it throws itself when the engine threw [null]
    or [undefined], and nothing is written. *)
Definition hopResultFor (percent : Z) (address : Address)
    (swapParam : option SwapQuoteParam) : Exc HopResult :=
  match swapQuoteWithParams swapParam with
  | Throws e => errorCode ← errorCodeOf e; Returns (HopFailure errorCode)
  | Returns quote =>
      match swapParam with
      | None => Returns (HopFailure None)
      | Some p =>
          let wd := sp_whirlpoolData p in
          let mintA := wd_tokenMintA wd in
          let mintB := wd_tokenMintB wd in
          Returns (HopSuccess
            {| hop_percent := percent;
             hop_amountIn :=
               if sp_amountSpecifiedIsInput p then sp_tokenAmount p
               else otherAmountThreshold quote;
             hop_amountOut :=
               if sp_amountSpecifiedIsInput p then otherAmountThreshold quote
               else sp_tokenAmount p;
             hop_whirlpool := address;
             hop_inputMint := if sp_aToB p then mintA else mintB;
             hop_outputMint := if sp_aToB p then mintB else mintA;
             hop_mintA := mintA;
             hop_mintB := mintB;
             hop_vaultA := wd_tokenVaultA wd;
             hop_vaultB := wd_tokenVaultB wd;
             hop_quote := quote |})
      end
  end.

(** The body of the loop over the updates.  When the entry is a hole, the write
    of the [try] block and the write of the [catch] block both throw a
    TypeError, whatever the engine did. *)
Definition applyQuoteUpdate (quoteParams : list SwapQuoteParam)
    (quoteMap : QuoteMap) (update : QuoteUpdate) : Exc QuoteMap :=
  let swapParam := quoteParams !! upd_quoteIndex update in
  route ← getEntry quoteMap (upd_percent update) (upd_routeIndex update);
  match route with
  | None => Throws TypeError
  | Some route =>
      result ← hopResultFor (upd_percent update) (upd_address update) swapParam;
      setEntry quoteMap (upd_percent update) (upd_routeIndex update)
        {| irq_percent := irq_percent route;
           irq_route := irq_route route;
           irq_calculatedHops :=
             arrSet (upd_hopIndex update) result (irq_calculatedHops route) |}
  end.

Definition updateQuoteMap (quoteUpdates : list QuoteUpdate)
    (quoteParams : list SwapQuoteParam) (quoteMap : QuoteMap) : Exc QuoteMap :=
  forEach (applyQuoteUpdate quoteParams) quoteMap quoteUpdates.

(** *** Quote Aggregator: [categorizeQuotes] *)

(** The body of the loop over one bucket's entries.  Destructuring a hole of
    the bucket, reading the boundary hop of an empty chain and reading
    [quoteFailures[0].error] of an empty list each throw a TypeError. *)
Definition categorizeEntry (tradeAmount : Z) (amountSpecifiedIsInput : bool) (percent : Z)
    (st : list RouteQuote * gset (option SwapErrorCode))
    (entry : option InternalRouteQuote)
    : Exc (list RouteQuote * gset (option SwapErrorCode)) :=
  let '(cleaned, failureErrors) := st in
  match entry with
  | None => Throws TypeError
  | Some q =>
      let filteredCalculatedHops := successHops (irq_calculatedHops q) in
      if bool_decide (length filteredCalculatedHops = length (irq_route q)) then
        match (if amountSpecifiedIsInput
               then hop_amountOut <$> last filteredCalculatedHops
               else hop_amountIn <$> head filteredCalculatedHops) with
        | None => Throws TypeError
        | Some otherAmount =>
            Returns
              (cleaned ++
                 [{| rq_percent := percent;
                     rq_route := irq_route q;
                     rq_amountIn := if amountSpecifiedIsInput then tradeAmount else otherAmount;
                     rq_amountOut := if amountSpecifiedIsInput then otherAmount else tradeAmount;
                     rq_calculatedHops := filteredCalculatedHops |}],
               failureErrors)
        end
      else
        match failureHops (irq_calculatedHops q) with
        | [] => Throws TypeError
        | error :: _ => Returns (cleaned, failureErrors ∪ {[ error ]})
        end
  end.

(** The body of the loop over the percentages of the quote map. *)
Definition categorizeBucket (tradeAmount : Z) (amountSpecifiedIsInput : bool)
    (st : CleanQuoteMap * gset (option SwapErrorCode))
    (bucket : Z * list (option InternalRouteQuote))
    : Exc (CleanQuoteMap * gset (option SwapErrorCode)) :=
  let '(cleanedQuoteMap, failureErrors) := st in
  let '(percent, uncleanedQuotes) := bucket in
  '(cleaned, failureErrors) ←
    forEach (categorizeEntry tradeAmount amountSpecifiedIsInput percent)
      ([], failureErrors) uncleanedQuotes;
  Returns (<[percent := cleaned]> cleanedQuoteMap, failureErrors).

(** [Object.keys] lists the buckets; each bucket writes its own key of the
    cleaned map and the failure kinds go to one set, so the order in which the
    buckets are visited does not show in the result. *)
Definition categorizeQuotes (tradeAmount : Z) (amountSpecifiedIsInput : bool)
    (quoteMap : QuoteMap) : Exc (CleanQuoteMap * gset (option SwapErrorCode)) :=
  forEach (categorizeBucket tradeAmount amountSpecifiedIsInput) (∅, ∅) (map_to_list quoteMap).

(** *** Quote Pruner: [pruneQuoteMap] *)

Definition pruneSortFn (amountSpecifiedIsInput : bool) (a b : RouteQuote) : Z :=
  if amountSpecifiedIsInput then bnCmp (rq_amountOut b) (rq_amountOut a)
  else bnCmp (rq_amountIn a) (rq_amountIn b).

(** [sort] works in place, [slice] copies: the call returns the pruned map and
    leaves every bucket of its argument sorted.  The second component is the
    argument as the call left it. *)
Definition pruneQuoteMap (quoteMap : CleanQuoteMap) (pruneN : Z)
    (amountSpecifiedIsInput : bool) : CleanQuoteMap * CleanQuoteMap :=
  ((fun quotes => slice0 (jsSort (pruneSortFn amountSpecifiedIsInput) quotes) pruneN)
     <$> quoteMap,
   jsSort (pruneSortFn amountSpecifiedIsInput) <$> quoteMap).

(** *** Degenerate candidates: [getSingleHopSplit] *)

(** The filter keeps a quote whose chain has one hop and whose hop is a
    success; the chains of a cleaned quote hold successes only. *)
Definition singleHopSplit (f : RouteQuote) : option TradeRoute :=
  match rq_calculatedHops f with
  | [oneHop] =>
      Some {| tr_quotes := [f]; tr_percent := 100;
              tr_totalIn := hop_amountIn oneHop; tr_totalOut := hop_amountOut oneHop |}
  | _ => None
  end.

Definition getSingleHopSplit (quoteMap : CleanQuoteMap) : list TradeRoute :=
  match quoteMap !! 100 with
  | Some fullFlow => omap singleHopSplit fullFlow
  | None => []
  end.

(** Modelled from the spec: [getRouteCompareFn] of smart-swap/rank-route-sets
    is not among the sources; section 4.6 ranks by total [amountOut] descending
    when the amount is fixed on the input side and by total [amountIn]
    ascending when it is fixed on the output side. *)
Definition getRouteCompareFn (amountSpecifiedIsInput : bool) (a b : TradeRoute) : Z :=
  if amountSpecifiedIsInput then bnCmp (tr_totalOut b) (tr_totalOut a)
  else bnCmp (tr_totalIn a) (tr_totalIn b).

(** *** Route Optimizer: [findBestRoutes] *)

(** One turn of the hop loop. *)
Definition quoteHop (inputTokenMint outputTokenMint : Address)
    (pools : gmap Address TokenPairPool) (pairRoutes : list (list Address))
    (percents amounts : list Z) (amountSpecifiedIsInput : bool)
    (quoteMap : QuoteMap) (hop : nat) : Exc QuoteMap :=
  '(quoteUpdates, quoteMap) ←
    buildQuoteUpdateRequests inputTokenMint outputTokenMint pools pairRoutes
      percents amounts hop amountSpecifiedIsInput quoteMap;
  quoteParams ← batchBuildSwapQuoteParams (upd_request <$> quoteUpdates);
  updateQuoteMap quoteUpdates quoteParams quoteMap.

(** [Array.from(Array(maxRouteLength).keys())], reversed when the amount is
    fixed on the output side. *)
Definition hopIteration (maxRouteLength : nat) (amountSpecifiedIsInput : bool) : list nat :=
  if amountSpecifiedIsInput then seq 0 maxRouteLength else reverse (seq 0 maxRouteLength).

Definition quoteAllHops (inputTokenMint outputTokenMint : Address)
    (pools : gmap Address TokenPairPool) (pairRoutes : list (list Address))
    (percents amounts : list Z) (amountSpecifiedIsInput : bool)
    (iteration : list nat) : Exc QuoteMap :=
  forEach
    (quoteHop inputTokenMint outputTokenMint pools pairRoutes percents amounts
       amountSpecifiedIsInput)
    ∅ iteration.

(** The part of [findBestRoutes] after the hop loop. *)
Definition rankQuotes (tradeAmount : Z) (amountSpecifiedIsInput : bool)
    (options : RoutingOptions) (quoteMap : QuoteMap) : Settled :=
  match categorizeQuotes tradeAmount amountSpecifiedIsInput quoteMap with
  | Throws e => Rejected (Uncaught e)
  | Returns (cleanedQuoteMap, failures) =>
      let '(prunedQuoteMap, cleanedQuoteMap) :=
        pruneQuoteMap cleanedQuoteMap (numTopPartialQuotes options) amountSpecifiedIsInput in
      let bestRoutes :=
        jsSort (getRouteCompareFn amountSpecifiedIsInput)
          (getRankedRoutes prunedQuoteMap amountSpecifiedIsInput
             (numTopRoutes options) (maxSplits options)
           ++ getSingleHopSplit cleanedQuoteMap) in
      if bool_decide (bestRoutes = [])
         && bool_decide (Some TickArraySequenceInvalid ∈ failures)
      then Resolved (BestRoutesFailure TRADE_AMOUNT_TOO_HIGH None)
      else Resolved (BestRoutes bestRoutes)
  end.

(** [fuel] bounds the slicer's loop; [None] is a call whose slicer has not
    returned within it.  [Math.max()] of no route is [-Infinity], and
    [Array(-Infinity)] throws a RangeError outside the [try].  The [catch]
    clause of the hop loop reads [e.stack]; when that read throws, the promise
    is rejected. *)
Definition findBestRoutes (fuel : nat) (inputTokenMint outputTokenMint : Address)
    (tradeAmount : Z) (amountSpecifiedIsInput : bool)
    (walks : gmap string (list (list Address)))
    (pools : gmap Address TokenPairPool)
    (userRoutingOptions : PartialRoutingOptions) : option Settled :=
  match walks !! getRouteId inputTokenMint outputTokenMint with
  | None => Some (Rejected (RejectedWith (BestRoutesFailure ROUTE_DOES_NOT_EXIST None)))
  | Some pairRoutes =>
      if tradeAmount =? 0
      then Some (Rejected (RejectedWith (BestRoutesFailure ZERO_INPUT_AMOUNT None)))
      else
        let routingOptions := mergeRoutingOptions userRoutingOptions in
        match prefetchRoutes pairRoutes with
        | Throws e => Some (Rejected (Uncaught e))
        | Returns _ =>
            match generatePercentageAmounts fuel tradeAmount (percentIncrement routingOptions) with
            | None => None
            | Some (percents, amounts) =>
                match pairRoutes with
                | [] => Some (Rejected (Uncaught RangeError))
                | _ =>
                    let maxRouteLength := max_list (length <$> pairRoutes) in
                    let iteration := hopIteration maxRouteLength amountSpecifiedIsInput in
                    match quoteAllHops inputTokenMint outputTokenMint pools pairRoutes
                            percents amounts amountSpecifiedIsInput iteration with
                    | Throws e =>
                        match stackOf e with
                        | Throws e' => Some (Rejected (Uncaught e'))
                        | Returns stack =>
                            Some (Resolved (BestRoutesFailure GENERAL (Some stack)))
                        end
                    | Returns quoteMap =>
                        Some (rankQuotes tradeAmount amountSpecifiedIsInput routingOptions quoteMap)
                    end
                end
            end
        end
  end.

End Router.

(** ** State prefetch: [prefetchRoutes]

    The prefetch talks to the account fetcher twice; its effect is the calls
    it makes, so the embedding returns them, in order, beside the outcome. *)

Module Prefetch.

(** [WhirlpoolData] as the prefetch reads it: the two tick fields. *)
Record WhirlpoolData := {
  tickCurrentIndex : Z;
  tickSpacing : Z;
}.

Inductive FetcherCall :=
| ListPools (addresses : list Address) (refresh : bool)
| ListTickArrays (addresses : list Address) (refresh : bool).

(** A JavaScript [Set] of strings, as the list of its members in insertion
    order: [add] appends a value that is not yet a member. *)
Definition setAdd (s : list Address) (x : Address) : list Address :=
  if decide (x ∈ s) then s else s ++ [x].

(** [Array.from(new Set(l))] *)
Definition setFrom (l : list Address) : list Address := foldl setAdd [] l.

Section Prefetch.

(** The fetcher's two batched reads, and
    [SwapUtils.getTickArrayPublicKeys(tickCurrentIndex, tickSpacing, aToB,
    AddressUtil.toPubKey(programId), AddressUtil.toPubKey(pool))] with its keys
    in base58; [pool] is [ps[i]], [undefined] past the end of [ps]. *)
Variable listPools : list Address -> bool -> Exc (list (option WhirlpoolData)).
Variable listTickArrays : list Address -> bool -> Exc unit.
Variable getTickArrayPublicKeys : Z -> Z -> bool -> Address -> option Address -> Exc (list Address).

(** The two nested loops that fill [poolSet]. *)
Definition poolSetOf (pairRoutes : list (list Address)) : list Address :=
  foldl (foldl setAdd) [] pairRoutes.

(** The body of the loop over [allWps]; a [null] pool is skipped. *)
Definition tickArraysOfPool (programId : Address) (ps : list Address)
    (tickArrayAddresses : list Address) (i : nat) (wp : option WhirlpoolData)
    : Exc (list Address) :=
  match wp with
  | None => Returns tickArrayAddresses
  | Some wp =>
      addr1 ← getTickArrayPublicKeys (tickCurrentIndex wp) (tickSpacing wp) true
                programId (ps !! i);
      addr2 ← getTickArrayPublicKeys (tickCurrentIndex wp) (tickSpacing wp) false
                programId (ps !! i);
      Returns (tickArrayAddresses ++ setFrom (addr1 ++ addr2))
  end.

Definition prefetchRoutes (pairRoutes : list (list Address)) (programId : Address)
    : Exc unit * list FetcherCall :=
  let ps := poolSetOf pairRoutes in
  match listPools ps false with
  | Throws e => (Throws e, [ListPools ps false])
  | Returns allWps =>
      match forEachIndexed (tickArraysOfPool programId ps) [] 0%nat allWps with
      | Throws e => (Throws e, [ListPools ps false])
      | Returns tickArrayAddresses =>
          (listTickArrays tickArrayAddresses false,
           [ListPools ps false; ListTickArrays tickArrayAddresses false])
      end
  end.

End Prefetch.

End Prefetch.

(** * Vocabulary of the properties

    The definitions below name what the theorems speak of: how the quote map
    is read, the tests of the builder's loop body, the states its loops pass
    through, the shape of a chain of hops. *)

Module Vocabulary.

(** ** Slices and ranking keys *)

(** The percentages [inc, 2 inc, ...] up to 100. *)
Definition slicePercents (inc : Z) : list Z :=
  (fun j => j * inc) <$> seqZ 1 (100 / inc).

(** The amount a bucket is ranked by, signed so that a smaller key ranks
    first: the output (largest first) when the input is fixed, the input
    (smallest first) when the output is fixed. *)
Definition pruneKey (amountSpecifiedIsInput : bool) (q : RouteQuote) : Z :=
  if amountSpecifiedIsInput then - rq_amountOut q else rq_amountIn q.

(** Percentage first, route index second. *)
Definition keyBefore (a b : Z * nat) : Prop :=
  a.1 < b.1 \/ (a.1 = b.1 /\ (a.2 < b.2)%nat).

(** ** Reading the quote map *)

(** [quoteMap[percent]?.[routeIndex]] as a value. *)
Definition entryAt (quoteMap : QuoteMap) (percent : Z) (routeIndex : nat)
    : option InternalRouteQuote :=
  quoteMap !! percent ≫= fun bucket => arrGet bucket routeIndex.

(** The slot of one hop of one route at one percentage. *)
Definition hopAt (quoteMap : QuoteMap) (percent : Z) (routeIndex hop : nat)
    : option HopResult :=
  entryAt quoteMap percent routeIndex ≫= fun q => arrGet (irq_calculatedHops q) hop.

(** Every bucket has one slot per route. *)
Definition bucketsSized (n : nat) (quoteMap : QuoteMap) : Prop :=
  forall (percent : Z) (bucket : list (option InternalRouteQuote)),
    quoteMap !! percent = Some bucket -> length bucket = n.

(** The entry with one slot of its chain written. *)
Definition setHop (hop : nat) (result : HopResult) (q : InternalRouteQuote)
    : InternalRouteQuote :=
  {| irq_percent := irq_percent q;
     irq_route := irq_route q;
     irq_calculatedHops := arrSet hop result (irq_calculatedHops q) |}.

Definition updateKey (u : QuoteUpdate) : Z * nat := (upd_percent u, upd_routeIndex u).

Definition freshEntry (percent : Z) (route : list Address) : InternalRouteQuote :=
  {| irq_percent := percent; irq_route := route;
     irq_calculatedHops := replicate (length route) None |}.

(** ** The Quote Batch Builder *)

Section BuilderVocabulary.

Variables inputTokenMint outputTokenMint : Address.
Variable pairRoutes : list (list Address).
Variable hop : nat.
Variable amountSpecifiedIsInput : bool.

(** The tests of the loop body, named. *)
Definition eligibleAt (route : list Address) : bool :=
  negb (if amountSpecifiedIsInput then Z.of_nat (length route) <=? Z.of_nat hop
        else Z.of_nat hop >? Z.of_nat (length route) - 1).

Definition startsAt (route : list Address) : bool :=
  if amountSpecifiedIsInput then Z.of_nat hop =? 0
  else Z.of_nat hop =? Z.of_nat (length route) - 1.

(** The already-computed neighbour of [hop] in processing order. *)
Definition adjacentHop (q : InternalRouteQuote) : option HopResult :=
  if amountSpecifiedIsInput then arrGetZ (irq_calculatedHops q) (Z.of_nat hop - 1)
  else arrGetZ (irq_calculatedHops q) (Z.of_nat hop + 1).

(** The amount and token of the request, when one is built. *)
Definition tradeOf (tradeAmount : Z) (route : list Address) (q : InternalRouteQuote)
    : option (Z * Address) :=
  if startsAt route
  then Some (tradeAmount, if amountSpecifiedIsInput then inputTokenMint else outputTokenMint)
  else match adjacentHop q with
       | Some (HopSuccess h) =>
           Some (if amountSpecifiedIsInput then hop_amountOut h else hop_amountIn h,
                 if amountSpecifiedIsInput then hop_outputMint h else hop_inputMint h)
       | _ => None
       end.

Definition requestOf (percent : Z) (routeIndex quoteIndex : nat) (pool : TokenPairPool)
    (tokenAmount : Z) (tradeToken : Address) : QuoteUpdate :=
  {| upd_percent := percent;
     upd_routeIndex := routeIndex;
     upd_hopIndex := hop;
     upd_quoteIndex := quoteIndex;
     upd_address := pool_address pool;
     upd_request :=
       {| req_whirlpool := pool_address pool;
          req_tradeTokenMint := tradeToken;
          req_tokenAmount := tokenAmount;
          req_amountSpecifiedIsInput := amountSpecifiedIsInput |} |}.

(** What a built update says, given the entry it was built from. *)
Definition builtFrom (tradeAmount : Z) (route : list Address) (q : InternalRouteQuote)
    (u : QuoteUpdate) : Prop :=
  exists (tokenAmount : Z) (tradeToken : Address) (pool : TokenPairPool),
    tradeOf tradeAmount route q = Some (tokenAmount, tradeToken) /\
    u = requestOf (upd_percent u) (upd_routeIndex u) (upd_quoteIndex u) pool
          tokenAmount tradeToken.

(** The state of the loop over routes after [k] routes, for one percentage:
    [us0] and [qmS] are the requests and the quote map it started from. *)
Definition routesDone (percent tradeAmount : Z) (us0 : list QuoteUpdate) (qmS : QuoteMap)
    (k : nat) (st : list QuoteUpdate * QuoteMap) : Prop :=
  exists new : list QuoteUpdate,
    st.1 = us0 ++ new /\
    (forall p' r, p' ≠ percent \/ (k <= r)%nat -> entryAt st.2 p' r = entryAt qmS p' r) /\
    (forall p', is_Some (st.2 !! p') <-> is_Some (qmS !! p')) /\
    (bucketsSized (length pairRoutes) qmS -> bucketsSized (length pairRoutes) st.2) /\
    (forall r route, (r < k)%nat -> pairRoutes !! r = Some route ->
       if eligibleAt route then
         exists q, entryAt st.2 percent r = Some q /\
           (if startsAt route then q = freshEntry percent route
            else entryAt qmS percent r = Some q) /\
           (is_Some (tradeOf tradeAmount route q) ->
            exists u, u ∈ new /\ upd_routeIndex u = r)
       else entryAt st.2 percent r = entryAt qmS percent r) /\
    (forall j u, new !! j = Some u -> upd_quoteIndex u = (length us0 + j)%nat) /\
    (upd_routeIndex <$> new) `sublist_of` seq 0 k /\
    (forall u, u ∈ new ->
       upd_percent u = percent /\ upd_hopIndex u = hop /\
       exists route q,
         pairRoutes !! upd_routeIndex u = Some route /\ eligibleAt route = true /\
         entryAt st.2 percent (upd_routeIndex u) = Some q /\
         builtFrom tradeAmount route q u).

(** The order in which requests can be built: percentages in the order of the
    slicer's list, and routes in enumeration order within each. *)
Definition requestOrder (percents : list Z) : list (Z * nat) :=
  percents ≫= fun p => (fun r => (p, r)) <$> seq 0 (length pairRoutes).

Definition requestsAligned (slices : list (Z * Z)) (k : nat)
    (st : list QuoteUpdate * QuoteMap) : Prop :=
  (forall i u, st.1 !! i = Some u -> upd_quoteIndex u = i /\ upd_hopIndex u = hop) /\
  (updateKey <$> st.1) `sublist_of` requestOrder (take k slices).*1.

(** The state of the loop over percentages after [k] slices, from the quote
    map [qm0] the call was given. *)
Definition percentsDone (slices : list (Z * Z)) (qm0 : QuoteMap) (k : nat)
    (st : list QuoteUpdate * QuoteMap) : Prop :=
  (forall p r, p ∉ (take k slices).*1 -> entryAt st.2 p r = entryAt qm0 p r) /\
  (bucketsSized (length pairRoutes) qm0 -> bucketsSized (length pairRoutes) st.2) /\
  (forall p, is_Some (st.2 !! p) -> is_Some (qm0 !! p) \/ p ∈ (take k slices).*1) /\
  (forall p amt r route, (p, amt) ∈ take k slices -> pairRoutes !! r = Some route ->
     if eligibleAt route then
       exists q, entryAt st.2 p r = Some q /\
         (if startsAt route then q = freshEntry p route else entryAt qm0 p r = Some q) /\
         (is_Some (tradeOf amt route q) ->
          exists u, u ∈ st.1 /\ upd_percent u = p /\ upd_routeIndex u = r)
     else entryAt st.2 p r = entryAt qm0 p r) /\
  (forall u, u ∈ st.1 ->
     exists amt route q,
       (upd_percent u, amt) ∈ take k slices /\
       pairRoutes !! upd_routeIndex u = Some route /\ eligibleAt route = true /\
       entryAt st.2 (upd_percent u) (upd_routeIndex u) = Some q /\
       builtFrom amt route q u).

End BuilderVocabulary.

(** ** The Hop Quote Executor *)

Section ExecutorVocabulary.

Variable swapQuoteWithParams : option SwapQuoteParam -> Exc SwapQuote.

(** What the engine throws on the parameter, if it throws, is a value whose
    properties can be read: not [null] and not [undefined]. *)
Definition engineReadable (swapParam : option SwapQuoteParam) : Prop :=
  swapQuoteWithParams swapParam ≠ Throws Nullish.

(** The entry after the result of one update was written into it. *)
Definition writeHop (u : QuoteUpdate) (result : HopResult) (q : InternalRouteQuote)
    : InternalRouteQuote :=
  {| irq_percent := irq_percent q;
     irq_route := irq_route q;
     irq_calculatedHops := arrSet (upd_hopIndex u) result (irq_calculatedHops q) |}.

End ExecutorVocabulary.

(** ** Chains of hops and the hop loop *)

(** The slot of the [i]-th hop in processing order of a route of [len] hops:
    from the first hop when the input is fixed, from the last when the output
    is. *)
Definition slotOf (amountSpecifiedIsInput : bool) (len i : nat) : nat :=
  if amountSpecifiedIsInput then i else (len - 1 - i)%nat.

(** A chain of which [done] hops have been visited: some successes, then at
    most one failure, then nothing. *)
Definition chainShape (amountSpecifiedIsInput : bool) (done len : nat)
    (hops : list (option HopResult)) : Prop :=
  length hops = len /\ (done <= len)%nat /\
  exists s : nat, (s <= done)%nat /\
    (forall i, (i < s)%nat ->
       exists h, arrGet hops (slotOf amountSpecifiedIsInput len i) = Some (HopSuccess h)) /\
    ((s < done)%nat ->
       exists c, arrGet hops (slotOf amountSpecifiedIsInput len s) = Some (HopFailure c)) /\
    (forall i, (i < len)%nat -> (s < i)%nat \/ (i = s /\ s = done) ->
       arrGet hops (slotOf amountSpecifiedIsInput len i) = None).

(** How many hops of a route of [len] hops have been visited after [t] turns
    of a loop over [maxLen] hops. *)
Definition doneAt (amountSpecifiedIsInput : bool) (maxLen t len : nat) : nat :=
  if amountSpecifiedIsInput then Nat.min t len
  else (len - Nat.min len (maxLen - t))%nat.

(** An entry whose route has had [done] hops visited: absent before the first,
    a chain of that shape afterwards. *)
Definition entryShaped (amountSpecifiedIsInput : bool) (percent : Z) (route : list Address)
    (done : nat) (entry : option InternalRouteQuote) : Prop :=
  match done with
  | O => entry = None
  | S _ =>
      exists q, entry = Some q /\ irq_percent q = percent /\ irq_route q = route /\
        chainShape amountSpecifiedIsInput done (length route) (irq_calculatedHops q)
  end.

(** An entry [categorizeQuotes] can digest: a complete chain with a boundary
    hop to read, or an incomplete one with a recorded failure. *)
Definition entryGood (entry : option InternalRouteQuote) : Prop :=
  exists q, entry = Some q /\
    ((length (successHops (irq_calculatedHops q)) = length (irq_route q) /\
      (1 <= length (irq_route q))%nat) \/
     (length (successHops (irq_calculatedHops q)) ≠ length (irq_route q) /\
      failureHops (irq_calculatedHops q) ≠ [])).

(** A route quote as [categorizeQuotes] makes it from the entry [q] at bucket
    [percent]: the fixed side is the call's [tradeAmount], the other side is
    read from the boundary hop of the chain. *)
Definition cleanedFrom (tradeAmount : Z) (dir : bool) (percent : Z)
    (q : InternalRouteQuote) (rq : RouteQuote) : Prop :=
  rq_percent rq = percent /\
  rq_route rq = irq_route q /\
  rq_calculatedHops rq = successHops (irq_calculatedHops q) /\
  length (rq_calculatedHops rq) = length (irq_route q) /\
  (if dir then rq_amountIn rq = tradeAmount /\
               Some (rq_amountOut rq) = hop_amountOut <$> last (rq_calculatedHops rq)
   else rq_amountOut rq = tradeAmount /\
        Some (rq_amountIn rq) = hop_amountIn <$> head (rq_calculatedHops rq)).

Section LoopVocabulary.

Variable pairRoutes : list (list Address).
Variables percents amounts : list Z.
Variable dir : bool.

(** The quote map after [t] turns of the hop loop. *)
Definition hopsQuoted (t : nat) (quoteMap : QuoteMap) : Prop :=
  bucketsSized (length pairRoutes) quoteMap /\
  (forall p, is_Some (quoteMap !! p) -> p ∈ (zip percents amounts).*1) /\
  forall p amt r route,
    (p, amt) ∈ zip percents amounts -> pairRoutes !! r = Some route ->
    entryShaped dir p route (doneAt dir (max_list (length <$> pairRoutes)) t (length route)) (entryAt quoteMap p r).

End LoopVocabulary.

(** ** The Route Optimizer *)

Section OptimizerVocabulary.

Variable swapQuoteWithParams : option SwapQuoteParam -> Exc SwapQuote.
Variable batchBuildSwapQuoteParams : list SwapQuoteRequest -> Exc (list SwapQuoteParam).
Variable prefetchRoutes : list (list Address) -> Exc unit.
Variable getRouteId : Address -> Address -> string.
Variable getRankedRoutes : CleanQuoteMap -> bool -> Z -> Z -> list TradeRoute.

(** The ranked combinations and the degenerate candidates of a cleaned quote
    map, before the final sort. *)
Definition rankedCombinations (options : RoutingOptions) (dir : bool)
    (cleaned : CleanQuoteMap) : list TradeRoute :=
  getRankedRoutes (pruneQuoteMap cleaned (numTopPartialQuotes options) dir).1 dir
    (numTopRoutes options) (maxSplits options).

Definition degenerateCandidates (options : RoutingOptions) (dir : bool)
    (cleaned : CleanQuoteMap) : list TradeRoute :=
  getSingleHopSplit (pruneQuoteMap cleaned (numTopPartialQuotes options) dir).2.

(** The call passes validation and prefetch, slices the amount, runs the hop
    loop to the end and aggregates: it reaches the ranking stage with the
    cleaned quote map [cleaned] and the failure kinds [failures]. *)
Definition reachesRanking (fuel : nat) (inputTokenMint outputTokenMint : Address)
    (tradeAmount : Z) (dir : bool) (walks : gmap string (list (list Address)))
    (pools : gmap Address TokenPairPool) (options : RoutingOptions)
    (cleaned : CleanQuoteMap) (failures : gset (option SwapErrorCode)) : Prop :=
  exists pairRoutes percents amounts quoteMap,
    walks !! getRouteId inputTokenMint outputTokenMint = Some pairRoutes /\
    tradeAmount ≠ 0 /\
    prefetchRoutes pairRoutes = Returns tt /\
    generatePercentageAmounts fuel tradeAmount (percentIncrement options)
      = Some (percents, amounts) /\
    pairRoutes ≠ [] /\
    quoteAllHops swapQuoteWithParams batchBuildSwapQuoteParams inputTokenMint
      outputTokenMint pools pairRoutes percents amounts dir
      (hopIteration (max_list (length <$> pairRoutes)) dir) = Returns quoteMap /\
    categorizeQuotes tradeAmount dir quoteMap = Returns (cleaned, failures).

End OptimizerVocabulary.

End Vocabulary.

Import Vocabulary.

(** * Further vocabulary *)

Module Chains.

(** The test of [categorizeQuotes]: as many Success results as the route has
    hops. *)
Definition chainComplete (q : InternalRouteQuote) : Prop :=
  length (successHops (irq_calculatedHops q)) = length (irq_route q).

#[global] Instance chainComplete_dec (q : InternalRouteQuote) : Decision (chainComplete q).
Proof. unfold chainComplete. apply _. Defined.

(** The failure kind [categorizeQuotes] reads off an entry:
    [quoteFailures[0].error]. *)
Definition firstFailure (q : InternalRouteQuote) : option (option SwapErrorCode) :=
  head (failureHops (irq_calculatedHops q)).

(** The amount of a Success hop on the side the caller fixed, and on the other
    side. *)
Definition fixedSide (dir : bool) (h : SuccessHop) : Z :=
  if dir then hop_amountIn h else hop_amountOut h.

Definition freeSide (dir : bool) (h : SuccessHop) : Z :=
  if dir then hop_amountOut h else hop_amountIn h.

(** A chain whose Success hops hand the amount on: the first hop in processing
    order was quoted for [amt], every later one for what the hop before it
    gave. *)
Definition chainLinked (dir : bool) (amt : Z) (len : nat)
    (hops : list (option HopResult)) : Prop :=
  forall i h, (i < len)%nat ->
    arrGet hops (slotOf dir len i) = Some (HopSuccess h) ->
    match i with
    | O => fixedSide dir h = amt
    | S i' =>
        exists h', arrGet hops (slotOf dir len i') = Some (HopSuccess h') /\
          fixedSide dir h = freeSide dir h'
    end.

(** The pool a route has at position [k], read from the front when the
    route's first pool holds the input token and from the back when not. *)
Definition poolAt (inputTokenMint : Address) (pools : gmap Address TokenPairPool)
    (route : list Address) (k : nat) : option TokenPairPool :=
  initialPool ← head route ≫= (pools !!.);
  (if decide (pool_tokenMintA initialPool = inputTokenMint \/
              pool_tokenMintB initialPool = inputTokenMint)
   then route !! k else route !! (length route - 1 - k)%nat) ≫= (pools !!.).

(** A chain whose Success hops carry the percentage of their bucket and the
    address of the pool of their position. *)
Definition chainLabelled (inputTokenMint : Address) (pools : gmap Address TokenPairPool)
    (p : Z) (route : list Address) (hops : list (option HopResult)) : Prop :=
  forall k h, arrGet hops k = Some (HopSuccess h) ->
    hop_percent h = p /\
    exists pool, poolAt inputTokenMint pools route k = Some pool /\
      hop_whirlpool h = pool_address pool.

End Chains.

(** ** Where the builder's requests go *)

Module Placement.

Section Placement.

Variable inputTokenMint : Address.
Variable pools : gmap Address TokenPairPool.
Variable hop : nat.
Variable amountSpecifiedIsInput : bool.

(** A request built for route [r] at [percent]: it goes to the pool the route
    names at position [hop], counted from the front when the route's first
    pool trades the input token and from the back when it does not. *)
Definition placedAt (percent : Z) (r : nat) (route : list Address) (u : QuoteUpdate) : Prop :=
  upd_percent u = percent /\ upd_routeIndex u = r /\ upd_hopIndex u = hop /\
  req_whirlpool (upd_request u) = upd_address u /\
  req_amountSpecifiedIsInput (upd_request u) = amountSpecifiedIsInput /\
  (hop < length route)%nat /\
  exists initialPool pool,
    head route ≫= (pools !!.) = Some initialPool /\
    (if decide (pool_tokenMintA initialPool = inputTokenMint \/
                pool_tokenMintB initialPool = inputTokenMint)
     then route !! hop else route !! (length route - 1 - hop)%nat) ≫= (pools !!.)
      = Some pool /\
    upd_address u = pool_address pool.

End Placement.

End Placement.

Import Chains.

(** * A scenario to run the router on *)

Module Scenario.

Definition tokenA : Address := "A".
Definition tokenB : Address := "B".
Definition tokenX : Address := "X".
Definition tokenY : Address := "Y".

Definition mkPool (a ma mb : Address) : TokenPairPool :=
  {| pool_address := a; pool_tokenMintA := ma; pool_tokenMintB := mb |}.

(** Two parallel pools A/B, a two-hop path A/X, X/B and a three-hop path
    A/X, X/Y, Y/B. *)
Definition pools : gmap Address TokenPairPool :=
  list_to_map
    [("pool1", mkPool "pool1" tokenA tokenB);
     ("pool2", mkPool "pool2" tokenA tokenB);
     ("poolAX", mkPool "poolAX" tokenA tokenX);
     ("poolXB", mkPool "poolXB" tokenX tokenB);
     ("poolXY", mkPool "poolXY" tokenX tokenY);
     ("poolYB", mkPool "poolYB" tokenY tokenB)].

Definition getRouteId (a b : Address) : string := a +:+ "/" +:+ b.

(** The parameter builder: vault names carry the pool's address. *)
Definition paramOf (r : SwapQuoteRequest) : option SwapQuoteParam :=
  p ← pools !! req_whirlpool r;
  Some {| sp_whirlpoolData :=
            {| wd_tokenMintA := pool_tokenMintA p; wd_tokenMintB := pool_tokenMintB p;
               wd_tokenVaultA := pool_address p; wd_tokenVaultB := pool_address p |};
          sp_tokenAmount := req_tokenAmount r;
          sp_aToB := bool_decide (req_tradeTokenMint r = pool_tokenMintA p)
                     && req_amountSpecifiedIsInput r
                     || bool_decide (req_tradeTokenMint r = pool_tokenMintB p)
                        && negb (req_amountSpecifiedIsInput r);
          sp_amountSpecifiedIsInput := req_amountSpecifiedIsInput r |}.

Definition batchBuildSwapQuoteParams (requests : list SwapQuoteRequest)
    : Exc (list SwapQuoteParam) :=
  match mapM paramOf requests with
  | Some params => Returns params
  | None => Throws (Fault "unknown whirlpool")
  end.

(** The quote engine: pool1 keeps 1%, pool2 keeps 2%, poolAX and poolYB trade
    one for one, and poolXB and poolXY have run out of tick arrays for every
    size. *)
Definition swapQuoteWithParams (param : option SwapQuoteParam) : Exc SwapQuote :=
  match param with
  | None => Throws TypeError
  | Some p =>
      let pool := wd_tokenVaultA (sp_whirlpoolData p) in
      if bool_decide (pool = "poolXB") || bool_decide (pool = "poolXY")
      then Throws (SwapError (Some TickArraySequenceInvalid))
      else if bool_decide (pool = "pool1")
      then Returns {| otherAmountThreshold := Z.quot (sp_tokenAmount p * 99) 100 |}
      else if bool_decide (pool = "pool2")
      then Returns {| otherAmountThreshold := Z.quot (sp_tokenAmount p * 98) 100 |}
      else Returns {| otherAmountThreshold := sp_tokenAmount p |}
  end.

Definition prefetchRoutes (pairRoutes : list (list Address)) : Exc unit := Returns tt.

(** The candidate routes from A to B: the three-hop path and pool1. *)
Definition pairRoutes : list (list Address) := [["poolAX"; "poolXY"; "poolYB"]; ["pool1"]].

Definition walks : gmap string (list (list Address)) :=
  {[ getRouteId tokenA tokenB := pairRoutes ]}.

(** A trade of 1000 in halves. *)
Definition percents : list Z := [50; 100].
Definition amounts : list Z := [500; 1000].

Definition halves : PartialRoutingOptions :=
  {| user_percentIncrement := Some 50; user_numTopRoutes := None;
     user_numTopPartialQuotes := None; user_maxSplits := None |}.

(** The quote map after [hops] turns of the forward hop loop. *)
Definition quoteMapAfter (hops : nat) : QuoteMap :=
  match quoteAllHops swapQuoteWithParams batchBuildSwapQuoteParams tokenA tokenB pools
          pairRoutes percents amounts true (seq 0 hops) with
  | Returns quoteMap => quoteMap
  | Throws _ => ∅
  end.

(** The requests of the third hop and the quote map the builder leaves. *)
Definition thirdHopRequests : list QuoteUpdate * QuoteMap :=
  match buildQuoteUpdateRequests tokenA tokenB pools pairRoutes percents amounts 2 true
          (quoteMapAfter 2) with
  | Returns built => built
  | Throws _ => ([], ∅)
  end.

(** The entry of the three-hop route at 100% after two turns. *)
Definition stoppedEntry : InternalRouteQuote :=
  default (freshEntry 100 []) (entryAt (quoteMapAfter 2) 100 0).

(** The requests of the first hop, built on the empty quote map. *)
Definition firstHopRequests : list QuoteUpdate * QuoteMap :=
  match buildQuoteUpdateRequests tokenA tokenB pools pairRoutes percents amounts 0 true ∅ with
  | Returns built => built
  | Throws _ => ([], ∅)
  end.


(** The parameters of the first hop's requests. *)
Definition firstHopParams : list SwapQuoteParam :=
  match batchBuildSwapQuoteParams (upd_request <$> firstHopRequests.1) with
  | Returns quoteParams => quoteParams
  | Throws _ => []
  end.

(** What [categorizeQuotes] makes of the final quote map. *)
Definition categorized : CleanQuoteMap * gset (option SwapErrorCode) :=
  match categorizeQuotes 1000 true (quoteMapAfter 3) with
  | Returns result => result
  | Throws _ => (∅, ∅)
  end.

(** A pair whose only route dead-ends at its second hop. *)
Definition deadEndRoutes : list (list Address) := [["poolAX"; "poolXB"]].

Definition deadEndWalks : gmap string (list (list Address)) :=
  {[ getRouteId tokenA tokenB := deadEndRoutes ]}.

Definition deadEndQuoteMap : QuoteMap :=
  match quoteAllHops swapQuoteWithParams batchBuildSwapQuoteParams tokenA tokenB pools
          deadEndRoutes percents amounts true (seq 0 2) with
  | Returns quoteMap => quoteMap
  | Throws _ => ∅
  end.

Definition deadEndCategorized : CleanQuoteMap * gset (option SwapErrorCode) :=
  match categorizeQuotes 1000 true deadEndQuoteMap with
  | Returns result => result
  | Throws _ => (∅, ∅)
  end.

(** Two parallel one-hop routes, and a caller who asks for one route. *)
Definition parallelRoutes : list (list Address) := [["pool1"]; ["pool2"]].

Definition parallelWalks : gmap string (list (list Address)) :=
  {[ getRouteId tokenA tokenB := parallelRoutes ]}.

Definition topOne : PartialRoutingOptions :=
  {| user_percentIncrement := Some 50; user_numTopRoutes := Some 1;
     user_numTopPartialQuotes := None; user_maxSplits := None |}.

(** Three quotes of one bucket, two of them tied on the output. *)
Definition mkQuote (route : Address) (amountIn amountOut : Z) : RouteQuote :=
  {| rq_percent := 100; rq_route := [route]; rq_amountIn := amountIn;
     rq_amountOut := amountOut; rq_calculatedHops := [] |}.

Definition tiedBucket : CleanQuoteMap :=
  {[ 100 := [mkQuote "pool1" 1000 980; mkQuote "pool2" 1000 990; mkQuote "poolAX" 1000 980] ]}.

End Scenario.

(** Modelled from the spec: [getRankedRoutes] of smart-swap/rank-route-sets is
    not among the sources.  Section 4.6: every choice of at most [maxSplits]
    distinct percentage buckets that sum to 100, with one pruned route quote
    from each, ranked by the comparator and cut to [numTopRoutes]. *)
Fixpoint routeCombinations (buckets : list (Z * list RouteQuote)) (remaining : Z)
    (splits : nat) : list (list RouteQuote) :=
  match buckets with
  | [] => if remaining =? 0 then [[]] else []
  | (percent, quotes) :: rest =>
      routeCombinations rest remaining splits ++
      match splits with
      | O => []
      | S splits' =>
          if percent <=? remaining
          then q ← quotes; (q ::.) <$> routeCombinations rest (remaining - percent) splits'
          else []
      end
  end.

(** Modelled from the spec: the totals of a combination are the sums over its
    members (section 3). *)
Definition tradeRouteOf (quotes : list RouteQuote) : TradeRoute :=
  {| tr_quotes := quotes;
     tr_percent := foldr Z.add 0 (rq_percent <$> quotes);
     tr_totalIn := foldr Z.add 0 (rq_amountIn <$> quotes);
     tr_totalOut := foldr Z.add 0 (rq_amountOut <$> quotes) |}.

(** Modelled from the spec: the ranker of section 4.6 over the combinations
    above, for running the router on the scenario. *)
Definition specRankedRoutes (prunedQuoteMap : CleanQuoteMap) (amountSpecifiedIsInput : bool)
    (topN maxSplits : Z) : list TradeRoute :=
  slice0
    (jsSort (getRouteCompareFn amountSpecifiedIsInput)
       (tradeRouteOf <$>
          routeCombinations (map_to_list prunedQuoteMap) 100 (Z.to_nat maxSplits)))
    topN.

(** * More of the scenario: edge cases, a fetcher *)

Module EdgeCases.

(** A caller who asks for an increment of 0, and one who asks for steps of 30. *)
Definition noStep : PartialRoutingOptions :=
  {| user_percentIncrement := Some 0; user_numTopRoutes := None;
     user_numTopPartialQuotes := None; user_maxSplits := None |}.

Definition steps30 : PartialRoutingOptions :=
  {| user_percentIncrement := Some 30; user_numTopRoutes := None;
     user_numTopPartialQuotes := None; user_maxSplits := None |}.

(** The first request of the first hop, and the quote map when the hop is
    applied with no parameter at all. *)
Definition firstRequest : QuoteUpdate :=
  default
    {| upd_percent := 0; upd_routeIndex := 0; upd_hopIndex := 0; upd_quoteIndex := 0;
       upd_address := "";
       upd_request := {| req_whirlpool := ""; req_tradeTokenMint := "";
                         req_tokenAmount := 0; req_amountSpecifiedIsInput := true |} |}
    (Scenario.firstHopRequests.1 !! 0%nat).

Definition quotedWithoutParams : QuoteMap :=
  match updateQuoteMap Scenario.swapQuoteWithParams Scenario.firstHopRequests.1 []
          Scenario.firstHopRequests.2 with
  | Returns quoteMap => quoteMap
  | Throws _ => ∅
  end.

(** The entry of pool1 at 100% when the hop loop is over, and the cleaned
    bucket of 100%. *)
Definition directEntry : InternalRouteQuote :=
  default (freshEntry 100 []) (entryAt (Scenario.quoteMapAfter 3) 100 1).

Definition fullBucket : list RouteQuote := default [] (Scenario.categorized.1 !! 100).

(** A parameter builder that is down, and a quote engine that throws [null]. *)
Definition brokenBatch (requests : list SwapQuoteRequest) : Exc (list SwapQuoteParam) :=
  Throws (Fault "rpc down").

Definition nullEngine (param : option SwapQuoteParam) : Exc SwapQuote := Throws Nullish.

(** A pair with no route at all, and one with an empty route beside pool1. *)
Definition noRouteWalks : gmap string (list (list Address)) :=
  {[ Scenario.getRouteId Scenario.tokenA Scenario.tokenB := [] ]}.

Definition holeRoutes : list (list Address) := [[]; ["pool1"]].

Definition holeWalks : gmap string (list (list Address)) :=
  {[ Scenario.getRouteId Scenario.tokenA Scenario.tokenB := holeRoutes ]}.

(** The scenario in steps of 30: the quote map and what [categorizeQuotes]
    makes of it. *)
Definition steps30QuoteMap : QuoteMap :=
  match quoteAllHops Scenario.swapQuoteWithParams Scenario.batchBuildSwapQuoteParams
          Scenario.tokenA Scenario.tokenB Scenario.pools Scenario.pairRoutes
          [30; 60; 90] [300; 600; 900] true (seq 0 3) with
  | Returns quoteMap => quoteMap
  | Throws _ => ∅
  end.

Definition steps30Categorized : CleanQuoteMap * gset (option SwapErrorCode) :=
  match categorizeQuotes 1000 true steps30QuoteMap with
  | Returns result => result
  | Throws _ => (∅, ∅)
  end.

(** A fetcher that knows every pool but poolXY, tick arrays named after their
    pool and offset, and a fetcher that is down. *)
Definition programId : Address := "whirLbMiicVdio4qvUfM5KAg6Ct8VwpYzGff3uctyCc".

Definition listPools (addresses : list Address) (refresh : bool)
    : Exc (list (option Prefetch.WhirlpoolData)) :=
  Returns
    ((fun a => if bool_decide (a = "poolXY") then None
               else Some {| Prefetch.tickCurrentIndex := 0; Prefetch.tickSpacing := 64 |})
       <$> addresses).

Definition listTickArrays (addresses : list Address) (refresh : bool) : Exc unit :=
  Returns tt.

Definition getTickArrayPublicKeys (tickCurrentIndex tickSpacing : Z) (aToB : bool)
    (program : Address) (pool : option Address) : Exc (list Address) :=
  match pool with
  | None => Throws TypeError
  | Some a =>
      Returns (if aToB then [a +:+ "/0"; a +:+ "/-1"; a +:+ "/-2"]
               else [a +:+ "/0"; a +:+ "/1"; a +:+ "/2"])
  end.

Definition listPoolsDown (addresses : list Address) (refresh : bool)
    : Exc (list (option Prefetch.WhirlpoolData)) :=
  Throws (Fault "rpc down").

Definition fetchedPools : list (option Prefetch.WhirlpoolData) :=
  match listPools (Prefetch.poolSetOf Scenario.pairRoutes) false with
  | Returns allWps => allWps
  | Throws _ => []
  end.

End EdgeCases.

(** * Theorems *)

(** ** The Percentage Slicer *)

Section Slicer.

Variables inputAmount minPercent : Z.
Hypothesis minPercent_pos : 0 < minPercent.

Lemma sliceLoopTest_pos (i : Z) :
  sliceLoopTest i minPercent = bool_decide (i * minPercent <= 100).
Proof.
  unfold sliceLoopTest.
  destruct (Z.eqb_spec minPercent 0) as [->|_]; [lia|].
  destruct (Z.ltb_spec 0 minPercent); [|lia].
  destruct (Z.leb_spec (i * minPercent) 100);
    [rewrite bool_decide_eq_true_2 | rewrite bool_decide_eq_false_2]; auto; lia.
Qed.

(** The loop started at [i] with [k] turns left appends the slices
    [i, i+1, ..., i+k-1] and stops. *)
Lemma sliceLoop_run (k : nat) : forall (fuel : nat) (i : Z) (percents amounts : list Z),
  (k < fuel)%nat ->
  (i + Z.of_nat k - 1) * minPercent <= 100 < (i + Z.of_nat k) * minPercent ->
  sliceLoop fuel inputAmount minPercent i percents amounts =
    Some (percents ++ ((fun j => j * minPercent) <$> seqZ i (Z.of_nat k)),
          amounts ++ ((fun j => Z.quot (inputAmount * (j * minPercent)) 100)
                        <$> seqZ i (Z.of_nat k))).
Proof.
  induction k as [|k IH]; intros fuel i percents amounts Hfuel Hk;
    (destruct fuel as [|fuel]; [lia|]); cbn [sliceLoop]; rewrite sliceLoopTest_pos.
  - rewrite bool_decide_eq_false_2 by lia.
    cbn. by rewrite !app_nil_r.
  - rewrite bool_decide_eq_true_2 by nia.
    rewrite IH by lia.
    rewrite (seqZ_cons i) by lia.
    replace (Z.pred (Z.of_nat (S k))) with (Z.of_nat k) by lia.
    replace (Z.succ i) with (i + 1) by lia.
    cbn [fmap list_fmap]. by rewrite <- !app_assoc.
Qed.

End Slicer.

Lemma slicePercents_lookup (inc : Z) (i : nat) (p : Z) :
  slicePercents inc !! i = Some p -> p = (Z.of_nat i + 1) * inc /\ Z.of_nat i < 100 / inc.
Proof.
  unfold slicePercents. rewrite list_lookup_fmap.
  destruct (seqZ 1 (100 / inc) !! i) as [j|] eqn:Hj; [|done].
  apply lookup_seqZ in Hj as [-> ?]. cbn. intros [= <-]. lia.
Qed.

Lemma slicePercents_increasing (inc : Z) (i j : nat) (p q : Z) :
  0 < inc -> (i < j)%nat ->
  slicePercents inc !! i = Some p -> slicePercents inc !! j = Some q -> p < q.
Proof.
  intros Hinc Hij [-> _]%slicePercents_lookup [-> _]%slicePercents_lookup. nia.
Qed.

Lemma slicePercents_NoDup (inc : Z) : 0 < inc -> NoDup (slicePercents inc).
Proof.
  intros Hinc. apply NoDup_alt. intros i j p Hi Hj.
  destruct (Nat.lt_total i j) as [Hlt|[->|Hlt]]; [|done|].
  - pose proof (slicePercents_increasing _ _ _ _ _ Hinc Hlt Hi Hj). lia.
  - pose proof (slicePercents_increasing _ _ _ _ _ Hinc Hlt Hj Hi). lia.
Qed.

Lemma generatePercentageAmounts_run (T inc : Z) (fuel : nat) :
  0 < inc -> (Z.to_nat (100 / inc) < fuel)%nat ->
  generatePercentageAmounts fuel T inc =
    Some (slicePercents inc, (fun p => Z.quot (T * p) 100) <$> slicePercents inc).
Proof.
  intros Hinc Hfuel. unfold generatePercentageAmounts, slicePercents.
  assert (0 <= 100 / inc) by (apply Z.div_pos; lia).
  rewrite (sliceLoop_run T inc Hinc (Z.to_nat (100 / inc))); [|done|].
  - rewrite Z2Nat.id by done. cbn [app]. by rewrite <- list_fmap_compose.
  - rewrite Z2Nat.id by done.
    pose proof (Z.mul_div_le 100 inc Hinc).
    pose proof (Z.mul_succ_div_gt 100 inc Hinc). lia.
Qed.

(** C3: for a non-negative total and an increment that evenly divides 100, the
    slicer returns (given fuel for its 100/inc turns) the percentages
    inc, 2 inc, ..., 100 in increasing order and, at the position of each
    percentage p, the amount floor(total * p / 100); the amounts never decrease
    along the list. *)
Theorem generatePercentageAmounts_slices (T inc : Z) (fuel : nat) :
  0 <= T -> 0 < inc -> (inc | 100) -> (Z.to_nat (100 / inc) < fuel)%nat ->
  exists percents amounts : list Z,
    generatePercentageAmounts fuel T inc = Some (percents, amounts) /\
    percents = (fun j => j * inc) <$> seqZ 1 (100 / inc) /\
    last percents = Some 100 /\
    amounts = (fun p => (T * p) / 100) <$> percents /\
    (forall (i j : nat) (p q : Z), (i < j)%nat ->
       percents !! i = Some p -> percents !! j = Some q -> p < q) /\
    (forall (i j : nat) (a b : Z), (i <= j)%nat ->
       amounts !! i = Some a -> amounts !! j = Some b -> a <= b).
Proof.
  intros HT Hinc [n Hn] Hfuel.
  exists (slicePercents inc), ((fun p => (T * p) / 100) <$> slicePercents inc).
  assert (Hdiv : 100 / inc = n) by (rewrite Hn; apply Z.div_mul; lia).
  assert (Hnpos : 0 < n) by nia.
  assert (Hpos : forall (i : nat) (p : Z), slicePercents inc !! i = Some p -> 0 < p).
  { intros i p [-> ?]%slicePercents_lookup. nia. }
  split_and!; [| done | | done | |].
  - rewrite generatePercentageAmounts_run by done. f_equal. f_equal.
    apply list_eq. intros i. rewrite !list_lookup_fmap.
    destruct (slicePercents inc !! i) as [p|] eqn:Hp; [|done]. cbn. f_equal.
    apply Z.quot_div_nonneg; [|lia]. specialize (Hpos _ _ Hp). nia.
  - unfold slicePercents.
    rewrite last_lookup, length_fmap, length_seqZ, list_lookup_fmap, Hdiv.
    assert (Hpred : Z.of_nat (Init.Nat.pred (Z.to_nat n)) = n - 1)
      by (destruct (Z.to_nat n) eqn:E; cbn; lia).
    rewrite lookup_seqZ_lt by lia. cbn. f_equal. rewrite Hpred. lia.
  - intros i j p q Hij Hi Hj. exact (slicePercents_increasing _ _ _ _ _ Hinc Hij Hi Hj).
  - intros i j a b Hij. rewrite !list_lookup_fmap.
    destruct (slicePercents inc !! i) as [p|] eqn:Hp; [|done].
    destruct (slicePercents inc !! j) as [q|] eqn:Hq; [|done].
    cbn. intros [= <-] [= <-].
    apply Z.div_le_mono; [lia|].
    assert (p <= q); [|nia].
    destruct (decide (i = j)) as [->|]; [naive_solver|].
    assert (i < j)%nat by lia.
    pose proof (slicePercents_increasing _ _ _ _ _ Hinc H Hp Hq). lia.
Qed.

(** Whatever the increment, a slicer that returns has made some number of
    turns, each appending one slice; with increment 0 it never returns. *)
Lemma sliceLoop_Some (T m : Z) (fuel : nat) :
  forall (i : Z) (percents amounts : list Z) (r : list Z * list Z),
  sliceLoop fuel T m i percents amounts = Some r ->
  m ≠ 0 /\
  exists k : nat,
    r = (percents ++ ((fun j => j * m) <$> seqZ i (Z.of_nat k)),
         amounts ++ ((fun j => Z.quot (T * (j * m)) 100) <$> seqZ i (Z.of_nat k))).
Proof.
  induction fuel as [|fuel IH]; intros i percents amounts r Hrun; [done|].
  cbn [sliceLoop] in Hrun. destruct (sliceLoopTest i m) eqn:Htest.
  - apply IH in Hrun as (Hm & k & ->). split; [done|]. exists (S k).
    rewrite (seqZ_cons i) by lia.
    replace (Z.pred (Z.of_nat (S k))) with (Z.of_nat k) by lia.
    replace (Z.succ i) with (i + 1) by lia.
    cbn [fmap list_fmap]. by rewrite <- !app_assoc.
  - injection Hrun as <-. split.
    + intros ->. unfold sliceLoopTest in Htest. cbn in Htest. done.
    + exists 0%nat. cbn. by rewrite !app_nil_r.
Qed.

(** The percentages the slicer returns are distinct and paired with as many
    amounts: the lists the hop loop is run on. *)
Lemma generatePercentageAmounts_distinct (T m : Z) (fuel : nat) (percents amounts : list Z) :
  generatePercentageAmounts fuel T m = Some (percents, amounts) ->
  NoDup (zip percents amounts).*1 /\ length percents = length amounts.
Proof.
  intros (Hm & k & [= -> ->])%sliceLoop_Some. cbn [app].
  assert (Hlen : length ((fun j => j * m) <$> seqZ 1 (Z.of_nat k))
                 = length ((fun j => Z.quot (T * (j * m)) 100) <$> seqZ 1 (Z.of_nat k)))
    by (by rewrite !length_fmap).
  split; [|done]. rewrite fst_zip by lia.
  apply NoDup_fmap_2; [|apply NoDup_seqZ].
  intros a b Hab. by apply Z.mul_cancel_r in Hab.
Qed.

(** ** Sorting with a comparator *)

Lemma bnCmp_le (a b : Z) : (bnCmp a b <=? 0) = (a <=? b).
Proof.
  unfold bnCmp. destruct (Z.compare_spec a b); symmetry.
  - by apply Z.leb_le; lia.
  - by apply Z.leb_le; lia.
  - by apply Z.leb_gt; lia.
Qed.

Section SortByKey.

Context {A : Type}.
Variable cmp : A -> A -> Z.
Variable key : A -> Z.
Hypothesis cmp_key : forall a b, (cmp a b <=? 0) = (key a <=? key b).

Lemma sortInsert_perm (x : A) (l : list A) : sortInsert cmp x l ≡ₚ x :: l.
Proof.
  induction l as [|y l IH]; cbn; [done|].
  destruct (cmp x y <=? 0); [done|].
  rewrite IH. apply perm_swap.
Qed.

Lemma jsSort_perm (l : list A) : jsSort cmp l ≡ₚ l.
Proof.
  induction l as [|x l IH]; cbn; [done|].
  by rewrite sortInsert_perm, IH.
Qed.

Lemma jsSort_length (l : list A) : length (jsSort cmp l) = length l.
Proof. by rewrite jsSort_perm. Qed.

Lemma sortInsert_sorted (x : A) (l : list A) :
  StronglySorted (fun a b => key a <= key b) l ->
  StronglySorted (fun a b => key a <= key b) (sortInsert cmp x l).
Proof.
  induction 1 as [|y l Hl IH Hy]; cbn.
  - repeat constructor.
  - rewrite cmp_key. destruct (Z.leb_spec (key x) (key y)) as [Hxy|Hxy].
    + constructor; [by constructor|].
      constructor; [done|].
      eapply Forall_impl; [exact Hy|]. cbn. intros. lia.
    + constructor; [done|].
      rewrite sortInsert_perm. constructor; [lia|done].
Qed.

Lemma jsSort_sorted (l : list A) :
  StronglySorted (fun a b => key a <= key b) (jsSort cmp l).
Proof.
  induction l as [|x l IH]; cbn; [constructor|]. by apply sortInsert_sorted.
Qed.

(** Stability: the elements of one key keep the order they came in. *)
Lemma sortInsert_stable (k : Z) (x : A) (l : list A) :
  filter (fun a => key a = k) (sortInsert cmp x l) = filter (fun a => key a = k) (x :: l).
Proof.
  induction l as [|y l IH]; cbn; [done|].
  rewrite cmp_key. destruct (Z.leb_spec (key x) (key y)) as [Hxy|Hxy]; [done|].
  rewrite (filter_cons _ y), IH, !filter_cons.
  repeat case_decide; try done; lia.
Qed.

Lemma jsSort_stable (k : Z) (l : list A) :
  filter (fun a => key a = k) (jsSort cmp l) = filter (fun a => key a = k) l.
Proof.
  induction l as [|x l IH]; cbn; [done|].
  rewrite sortInsert_stable, !filter_cons, IH. done.
Qed.

Lemma jsSort_ordered (l : list A) (i j : nat) (a b : A) :
  (i < j)%nat -> jsSort cmp l !! i = Some a -> jsSort cmp l !! j = Some b ->
  key a <= key b.
Proof.
  intros Hij Hi Hj. pose proof (jsSort_sorted l) as Hs.
  revert i j Hij Hi Hj. induction Hs as [|y s Hs IH Hy]; intros i j Hij Hi Hj; [done|].
  destruct j as [|j]; [lia|]. cbn in Hj.
  destruct i as [|i]; cbn in Hi.
  - injection Hi as ->. rewrite Forall_forall in Hy. apply Hy.
    by eapply list_elem_of_lookup_2.
  - eapply (IH i j); [lia|done..].
Qed.

End SortByKey.

(** ** The Quote Pruner *)

Lemma pruneSortFn_key (amountSpecifiedIsInput : bool) (a b : RouteQuote) :
  (pruneSortFn amountSpecifiedIsInput a b <=? 0) =
  (pruneKey amountSpecifiedIsInput a <=? pruneKey amountSpecifiedIsInput b).
Proof.
  unfold pruneSortFn, pruneKey.
  destruct amountSpecifiedIsInput; rewrite bnCmp_le; [|done].
  destruct (Z.leb_spec (rq_amountOut b) (rq_amountOut a));
    destruct (Z.leb_spec (- rq_amountOut a) (- rq_amountOut b)); auto; lia.
Qed.

Lemma slice0_take {A : Type} (l : list A) (n : Z) :
  0 <= n -> slice0 l n = take (Z.to_nat n) l.
Proof. intros Hn. unfold slice0. destruct (Z.ltb_spec n 0); [lia|done]. Qed.

Lemma pruneQuoteMap_lookup (quoteMap : CleanQuoteMap) (pruneN : Z) (dir : bool) (percent : Z) :
  (pruneQuoteMap quoteMap pruneN dir).1 !! percent =
  (fun quotes => slice0 (jsSort (pruneSortFn dir) quotes) pruneN) <$> quoteMap !! percent.
Proof. unfold pruneQuoteMap. cbn. by rewrite lookup_fmap. Qed.

Lemma pruneQuoteMap_sorted_lookup (quoteMap : CleanQuoteMap) (pruneN : Z) (dir : bool)
    (percent : Z) :
  (pruneQuoteMap quoteMap pruneN dir).2 !! percent =
  jsSort (pruneSortFn dir) <$> quoteMap !! percent.
Proof. unfold pruneQuoteMap. cbn. by rewrite lookup_fmap. Qed.

(** C6: for every percentage bucket, on its own, the pruned map holds the first
    [numTopPartialQuotes] elements of the bucket's route quotes sorted
    descending by [amountOut] when the amount is fixed on the input side and
    ascending by [amountIn] when it is fixed on the output side; the sorted
    list is a rearrangement of the bucket in which quotes of equal ranking
    amount keep the order they had in the bucket (the route-enumeration
    order). *)
Theorem pruneQuoteMap_keeps_top (quoteMap : CleanQuoteMap) (numTopPartialQuotes : Z)
    (amountSpecifiedIsInput : bool) (percent : Z) (quotes : list RouteQuote) :
  0 <= numTopPartialQuotes ->
  quoteMap !! percent = Some quotes ->
  exists sorted : list RouteQuote,
    (pruneQuoteMap quoteMap numTopPartialQuotes amountSpecifiedIsInput).1 !! percent
      = Some (take (Z.to_nat numTopPartialQuotes) sorted) /\
    sorted ≡ₚ quotes /\
    (forall (i j : nat) (a b : RouteQuote), (i < j)%nat ->
       sorted !! i = Some a -> sorted !! j = Some b ->
       if amountSpecifiedIsInput then rq_amountOut b <= rq_amountOut a
       else rq_amountIn a <= rq_amountIn b) /\
    (forall amount : Z,
       filter (fun q => (if amountSpecifiedIsInput then rq_amountOut q else rq_amountIn q)
                        = amount) sorted =
       filter (fun q => (if amountSpecifiedIsInput then rq_amountOut q else rq_amountIn q)
                        = amount) quotes).
Proof.
  intros Hn Hq. exists (jsSort (pruneSortFn amountSpecifiedIsInput) quotes).
  pose proof (pruneSortFn_key amountSpecifiedIsInput) as Hkey.
  split_and!.
  - rewrite pruneQuoteMap_lookup, Hq. cbn. by rewrite slice0_take.
  - apply jsSort_perm.
  - intros i j a b Hij Hi Hj.
    pose proof (jsSort_ordered _ _ Hkey quotes i j a b Hij Hi Hj) as Hle.
    unfold pruneKey in Hle. destruct amountSpecifiedIsInput; lia.
  - intros amount.
    pose proof (jsSort_stable _ _ Hkey
                  (if amountSpecifiedIsInput then - amount else amount) quotes) as Hst.
    erewrite (list_filter_iff _ (fun q => pruneKey amountSpecifiedIsInput q = _)),
      (list_filter_iff _ (fun q => pruneKey amountSpecifiedIsInput q = _) quotes);
      [exact Hst|..];
      intros q; unfold pruneKey; destruct amountSpecifiedIsInput; lia.
Qed.

(** ** Loops and arrays *)

(** A property of the loop state that every turn keeps holds when the loop
    returns; [P k] speaks of the state after [k] turns. *)
Lemma forEachIndexed_invariant {A St : Type} (body : St -> nat -> A -> Exc St)
    (P : nat -> St -> Prop) (l : list A) : forall (i : nat) (s s' : St),
  forEachIndexed body s i l = Returns s' ->
  P i s ->
  (forall (k : nat) (x : A) (t t' : St),
     l !! k = Some x -> P (i + k)%nat t -> body t (i + k)%nat x = Returns t' ->
     P (S (i + k)) t') ->
  P (i + length l)%nat s'.
Proof.
  induction l as [|x l IH]; intros i s s' Hrun HP Hstep; cbn in Hrun.
  - injection Hrun as <-. by rewrite Nat.add_0_r.
  - destruct (body s i x) as [t|e] eqn:Hbody; [|done]. cbn in Hrun.
    cbn [length]. replace (i + S (length l))%nat with (S i + length l)%nat by lia.
    apply (IH (S i) t s' Hrun).
    + specialize (Hstep 0%nat x s t). rewrite Nat.add_0_r in Hstep. by apply Hstep.
    + intros k y u u' Hk Hu Hb.
      replace (S i + k)%nat with (i + S k)%nat in * by lia.
      by apply (Hstep (S k) y u u').
Qed.

Lemma forEach_indexed {A St : Type} (body : St -> A -> Exc St) (l : list A) :
  forall (i : nat) (s : St),
  forEach body s l = forEachIndexed (fun t _ x => body t x) s i l.
Proof.
  induction l as [|x l IH]; intros i s; cbn; [done|].
  destruct (body s x); cbn; [apply IH|done].
Qed.

Lemma forEach_invariant {A St : Type} (body : St -> A -> Exc St)
    (P : nat -> St -> Prop) (l : list A) (s s' : St) :
  forEach body s l = Returns s' ->
  P 0%nat s ->
  (forall (k : nat) (x : A) (t t' : St),
     l !! k = Some x -> P k t -> body t x = Returns t' -> P (S k) t') ->
  P (length l) s'.
Proof.
  rewrite (forEach_indexed body l 0). intros Hrun HP Hstep.
  by apply (forEachIndexed_invariant _ P l 0%nat s s' Hrun).
Qed.

(** A loop whose every turn returns, returns. *)
Lemma forEach_returns {A St : Type} (body : St -> A -> Exc St)
    (P : nat -> St -> Prop) (l : list A) (s : St) :
  P 0%nat s ->
  (forall (k : nat) (x : A) (t : St),
     l !! k = Some x -> P k t -> exists t', body t x = Returns t' /\ P (S k) t') ->
  exists s', forEach body s l = Returns s' /\ P (length l) s'.
Proof.
  revert P s. induction l as [|x l IH]; intros P s HP Hstep; cbn.
  - by exists s.
  - destruct (Hstep 0%nat x s eq_refl HP) as (t & -> & Ht). cbn.
    apply (IH (fun k => P (S k)) t Ht).
    intros k y u Hk Hu. by apply (Hstep (S k)).
Qed.

Section Arrays.

Context {A : Type}.
Implicit Types (a : list (option A)) (i j : nat) (v : A).

Lemma arrGet_arrSet_eq a i v : arrGet (arrSet i v a) i = Some v.
Proof.
  unfold arrGet, arrSet. case_decide.
  - by rewrite list_lookup_insert_eq.
  - rewrite lookup_app_r by lia.
    rewrite lookup_app_r by (rewrite length_replicate; lia).
    rewrite length_replicate.
    replace (i - length a - (i - length a))%nat with 0%nat by lia. done.
Qed.

Lemma arrGet_arrSet_ne a i j v : i ≠ j -> arrGet (arrSet i v a) j = arrGet a j.
Proof.
  intros Hij. unfold arrGet, arrSet. case_decide.
  - by rewrite list_lookup_insert_ne.
  - destruct (decide (j < length a)%nat).
    + by rewrite lookup_app_l.
    + rewrite lookup_app_r by lia.
      rewrite (lookup_ge_None_2 a j) by lia. cbn.
      destruct (decide (j < i)%nat).
      * rewrite lookup_app_l by (rewrite length_replicate; lia).
        rewrite lookup_replicate_2 by lia. done.
      * rewrite lookup_app_r by (rewrite length_replicate; lia).
        rewrite length_replicate. rewrite lookup_ge_None_2; [done|]. cbn. lia.
Qed.

Lemma arrSet_in_range a i v : (i < length a)%nat -> arrSet i v a = <[i := Some v]> a.
Proof. intros. unfold arrSet. by rewrite decide_True. Qed.

Lemma length_arrSet a i v : (i < length a)%nat -> length (arrSet i v a) = length a.
Proof. intros. rewrite arrSet_in_range by done. apply length_insert. Qed.

Lemma arrGet_Some_lt a i v : arrGet a i = Some v -> (i < length a)%nat.
Proof.
  unfold arrGet. destruct (a !! i) eqn:E; [|done]. intros _.
  by eapply lookup_lt_Some.
Qed.

Lemma arrGetZ_nat a i : arrGetZ a (Z.of_nat i) = arrGet a i.
Proof.
  unfold arrGetZ. destruct (Z.ltb_spec (Z.of_nat i) 0); [lia|].
  by rewrite Nat2Z.id.
Qed.

Lemma arrGet_replicate_None (n i : nat) : arrGet (replicate n (@None A)) i = None.
Proof.
  unfold arrGet. destruct (replicate n None !! i) eqn:E; [|done].
  apply lookup_replicate in E as [-> _]. done.
Qed.

End Arrays.

(** ** Reading the quote map *)

Lemma getEntry_Returns (quoteMap : QuoteMap) (p : Z) (r : nat) (e : option InternalRouteQuote) :
  getEntry quoteMap p r = Returns e ->
  is_Some (quoteMap !! p) /\ e = entryAt quoteMap p r.
Proof.
  unfold getEntry, entryAt. destruct (quoteMap !! p) as [b|]; [|done].
  intros [= <-]. eauto.
Qed.

Lemma getEntry_entryAt (quoteMap : QuoteMap) (p : Z) (r : nat) :
  is_Some (quoteMap !! p) -> getEntry quoteMap p r = Returns (entryAt quoteMap p r).
Proof. intros [b Hb]. unfold getEntry, entryAt. by rewrite Hb. Qed.

Lemma setEntry_Returns (quoteMap quoteMap' : QuoteMap) (p : Z) (r : nat)
    (e : InternalRouteQuote) :
  setEntry quoteMap p r e = Returns quoteMap' ->
  entryAt quoteMap' p r = Some e /\
  (forall p' r', (p', r') ≠ (p, r) -> entryAt quoteMap' p' r' = entryAt quoteMap p' r') /\
  (forall p', is_Some (quoteMap' !! p') <-> is_Some (quoteMap !! p')) /\
  (forall n, bucketsSized n quoteMap -> (r < n)%nat -> bucketsSized n quoteMap').
Proof.
  unfold setEntry. destruct (quoteMap !! p) as [b|] eqn:Hb; [|done].
  intros [= <-]. split_and!.
  - unfold entryAt. rewrite lookup_insert_eq. cbn. apply arrGet_arrSet_eq.
  - intros p' r' Hne. unfold entryAt.
    destruct (decide (p' = p)) as [->|Hp].
    + rewrite lookup_insert_eq, Hb. cbn. apply arrGet_arrSet_ne. congruence.
    + by rewrite lookup_insert_ne.
  - intros p'. destruct (decide (p' = p)) as [->|Hp].
    + rewrite lookup_insert_eq, Hb. split; eauto.
    + by rewrite lookup_insert_ne.
  - intros n Hn Hr p' b'. destruct (decide (p' = p)) as [->|Hp].
    + rewrite lookup_insert_eq. intros [= <-].
      rewrite length_arrSet; [by eapply Hn|]. by rewrite (Hn _ _ Hb).
    + rewrite lookup_insert_ne by done. apply Hn.
Qed.

Lemma setEntry_is_Some (quoteMap : QuoteMap) (p : Z) (r : nat) (e : InternalRouteQuote) :
  is_Some (quoteMap !! p) -> exists quoteMap', setEntry quoteMap p r e = Returns quoteMap'.
Proof. intros [b Hb]. unfold setEntry. rewrite Hb. eauto. Qed.

Lemma entryAt_is_Some_bucket (quoteMap : QuoteMap) (p : Z) (r : nat) :
  is_Some (entryAt quoteMap p r) -> is_Some (quoteMap !! p).
Proof. unfold entryAt. destruct (quoteMap !! p); [eauto|]. by intros [? ?]. Qed.

(** ** The Quote Batch Builder *)

Section Builder.

Variables inputTokenMint outputTokenMint : Address.
Variable pools : gmap Address TokenPairPool.
Variable pairRoutes : list (list Address).
Variable hop : nat.
Variable amountSpecifiedIsInput : bool.

Local Abbreviation eligibleAt := (Vocabulary.eligibleAt hop amountSpecifiedIsInput).
Local Abbreviation startsAt := (Vocabulary.startsAt hop amountSpecifiedIsInput).
Local Abbreviation adjacentHop := (Vocabulary.adjacentHop hop amountSpecifiedIsInput).
Local Abbreviation tradeOf :=
  (Vocabulary.tradeOf inputTokenMint outputTokenMint hop amountSpecifiedIsInput).
Local Abbreviation requestOf := (Vocabulary.requestOf hop amountSpecifiedIsInput).
Local Abbreviation builtFrom :=
  (Vocabulary.builtFrom inputTokenMint outputTokenMint hop amountSpecifiedIsInput).
Local Abbreviation routesDone :=
  (Vocabulary.routesDone inputTokenMint outputTokenMint pairRoutes hop amountSpecifiedIsInput).
Local Abbreviation requestOrder := (Vocabulary.requestOrder pairRoutes).
Local Abbreviation requestsAligned := (Vocabulary.requestsAligned pairRoutes hop).
Local Abbreviation percentsDone :=
  (Vocabulary.percentsDone inputTokenMint outputTokenMint pairRoutes hop
     amountSpecifiedIsInput).

Lemma eligibleAt_lt (route : list Address) :
  eligibleAt route = true <-> (hop < length route)%nat.
Proof.
  unfold eligibleAt. destruct amountSpecifiedIsInput.
  - destruct (Z.leb_spec (Z.of_nat (length route)) (Z.of_nat hop)); cbn; split; (lia || done).
  - rewrite Z.gtb_ltb.
    destruct (Z.ltb_spec (Z.of_nat (length route) - 1) (Z.of_nat hop)); cbn;
      split; (lia || done).
Qed.

Lemma buildRouteRequest_Returns (percent tradeAmount : Z) (us us' : list QuoteUpdate)
    (qm qm' : QuoteMap) (r : nat) (route : list Address) :
  buildRouteRequest inputTokenMint outputTokenMint pools hop amountSpecifiedIsInput
    percent tradeAmount (us, qm) r route = Returns (us', qm') ->
  if eligibleAt route then
    exists q : InternalRouteQuote,
      entryAt qm' percent r = Some q /\
      (if startsAt route then q = freshEntry percent route else qm' = qm) /\
      (forall p' r', (p', r') ≠ (percent, r) -> entryAt qm' p' r' = entryAt qm p' r') /\
      (forall p', is_Some (qm' !! p') <-> is_Some (qm !! p')) /\
      (forall n, bucketsSized n qm -> (r < n)%nat -> bucketsSized n qm') /\
      match tradeOf tradeAmount route q with
      | None => us' = us
      | Some (tokenAmount, tradeToken) =>
          exists pool, us' = us ++ [requestOf percent r (length us) pool tokenAmount tradeToken]
      end
  else us' = us /\ qm' = qm.
Proof.
  unfold buildRouteRequest, eligibleAt.
  destruct (if amountSpecifiedIsInput then _ else _) eqn:Hskip; cbn [negb].
  { by intros [= <- <-]. }
  fold (startsAt route).
  destruct (startsAt route) eqn:Hstart.
  - destruct (setEntry qm percent r _) as [qm1|] eqn:Hset; [|done]. cbn.
    apply setEntry_Returns in Hset as (Hq & Hframe & Hdom & Hsized).
    destruct (getEntry qm1 percent r) as [cur|] eqn:Hget; [|done]. cbn.
    apply getEntry_Returns in Hget as [_ ->]. rewrite Hq.
    destruct (route !! 0%nat ≫= _) as [initialPool|]; [|done].
    unfold tradeOf. rewrite Hstart.
    destruct (_ !! hop ≫= _) as [pool|]; [|done].
    intros [= <- <-]. exists (freshEntry percent route). split_and!; eauto.
  - cbn. destruct (getEntry qm percent r) as [cur|] eqn:Hget; [|done]. cbn.
    apply getEntry_Returns in Hget as [_ ->].
    destruct (route !! 0%nat ≫= _) as [initialPool|]; [|done].
    destruct (entryAt qm percent r) as [q|] eqn:Hq; [|done].
    fold (adjacentHop q).
    unfold tradeOf. rewrite Hstart.
    destruct (adjacentHop q) as [[h|e]|] eqn:Hadj.
    + destruct (_ !! hop ≫= _) as [pool|]; [|done].
      intros [= <- <-]. exists q. rewrite Hadj. split_and!; eauto.
    + intros [= <- <-]. exists q. rewrite Hadj. split_and!; eauto.
    + intros [= <- <-]. exists q. rewrite Hadj. split_and!; eauto.
Qed.

Lemma routesDone_step (percent tradeAmount : Z) (us0 : list QuoteUpdate) (qmS : QuoteMap)
    (k : nat) (route : list Address) (st st' : list QuoteUpdate * QuoteMap) :
  pairRoutes !! k = Some route ->
  routesDone percent tradeAmount us0 qmS k st ->
  buildRouteRequest inputTokenMint outputTokenMint pools hop amountSpecifiedIsInput
    percent tradeAmount st k route = Returns st' ->
  routesDone percent tradeAmount us0 qmS (S k) st'.
Proof.
  intros Hroute (new & Hus & Hframe & Hdom & Hsized & Hdone & Hidx & Hsub & Hnew) Hbody.
  destruct st as [us qm], st' as [us' qm']. cbn [fst snd] in *.
  assert (Hlt : (k < length pairRoutes)%nat) by (by eapply lookup_lt_Some).
  assert (Hnewlt : forall u, u ∈ new -> (upd_routeIndex u < k)%nat).
  { intros u Hu.
    assert (upd_routeIndex u ∈ seq 0 k) as Hin.
    { eapply elem_of_sublist; [|exact Hsub]. by apply list_elem_of_fmap_2. }
    apply elem_of_seq in Hin. lia. }
  apply buildRouteRequest_Returns in Hbody.
  destruct (eligibleAt route) eqn:Helig.
  - destruct Hbody as (q & Hq & Hstart & Hfr & Hdom' & Hsized' & Htrade).
    assert (Hother : forall r', r' ≠ k -> entryAt qm' percent r' = entryAt qm percent r').
    { intros r' Hr'. apply Hfr. congruence. }
    assert (Hqm : entryAt qm percent k = entryAt qmS percent k) by (apply Hframe; lia).
    assert (Hus' : exists new', us' = us0 ++ new' /\
                   (tradeOf tradeAmount route q = None /\ new' = new \/
                    exists u, new' = new ++ [u] /\ upd_routeIndex u = k /\
                      upd_percent u = percent /\ upd_hopIndex u = hop /\
                      upd_quoteIndex u = (length us0 + length new)%nat /\
                      builtFrom tradeAmount route q u)).
    { destruct (tradeOf tradeAmount route q) as [[a t]|] eqn:Ht.
      - destruct Htrade as [pool ->]. subst us. eexists. rewrite <- app_assoc.
        split; [done|]. right.
        eexists. split; [done|]. cbn. rewrite length_app.
        split_and!; try done. by exists a, t, pool.
      - subst us' us. exists new. split; [done|]. by left. }
    destruct Hus' as (new' & -> & Hnew').
    exists new'. split_and!; [done|..].
    + intros p' r Hpr. rewrite Hfr; [apply Hframe|]; [|intros [= -> ->]]; lia.
    + intros p'. by rewrite Hdom'.
    + intros Hs. apply Hsized'; [by apply Hsized|lia].
    + intros r route' Hr Hroute'.
      destruct (decide (r = k)) as [->|Hrk].
      * assert (route' = route) as -> by congruence. rewrite Helig.
        exists q. split_and!; [done| |].
        -- destruct (startsAt route); [done|]. subst qm'. by rewrite <- Hqm.
        -- intros Hsome. destruct Hnew' as [[Hnone _]|(u & -> & Hu & _)].
           ++ rewrite Hnone in Hsome. by destruct Hsome.
           ++ exists u. split; [|done]. apply elem_of_app. right. by constructor.
      * specialize (Hdone r route' ltac:(lia) Hroute').
        destruct (eligibleAt route'); [|by rewrite Hother].
        destruct Hdone as (q' & Hq' & Hst' & Hreq). exists q'. rewrite Hother by done.
        split_and!; [done..|]. intros Hsome. destruct (Hreq Hsome) as (u & Hu & Hur).
        exists u. split; [|done]. destruct Hnew' as [[_ ->]|(u' & -> & _)]; [done|].
        apply elem_of_app. by left.
    + intros j u Hj. destruct Hnew' as [[_ Heq]|(u' & Heq & _ & _ & _ & Hqi & _)];
        rewrite Heq in Hj; [by apply Hidx|].
      apply lookup_app_Some in Hj as [Hj|[Hge Hj]]; [by apply Hidx|].
      apply list_lookup_singleton_Some in Hj as [Hj ->]. lia.
    + rewrite seq_S. cbn. destruct Hnew' as [[_ ->]|(u' & -> & Hur & _)].
      * by apply sublist_inserts_r.
      * rewrite fmap_app. cbn. rewrite Hur. by apply sublist_app.
    + intros u Hu. destruct Hnew' as [[_ Heq]|(u' & Heq & Hur & Hup & Huh & _ & Hbuilt)];
        rewrite Heq in Hu.
      * destruct (Hnew u Hu) as (? & ? & route' & q' & ? & ? & ? & ?).
        split_and!; [done..|]. exists route', q'. split_and!; try done.
        rewrite Hother; [done|]. specialize (Hnewlt u Hu). lia.
      * apply elem_of_app in Hu as [Hu|Hu].
        -- destruct (Hnew u Hu) as (? & ? & route' & q' & ? & ? & ? & ?).
           split_and!; [done..|]. exists route', q'. split_and!; try done.
           rewrite Hother; [done|]. specialize (Hnewlt u Hu). lia.
        -- apply list_elem_of_singleton in Hu as ->.
           split_and!; [done..|]. exists route, q. rewrite Hur. by split_and!.
  - destruct Hbody as [-> ->].
    exists new. split_and!; try done.
    + intros p' r Hpr. apply Hframe. lia.
    + intros r route' Hr Hroute'.
      destruct (decide (r = k)) as [->|Hrk].
      * assert (route' = route) as -> by congruence. rewrite Helig.
        apply Hframe. lia.
      * apply Hdone; [lia|done].
    + rewrite seq_S. by apply sublist_inserts_r.
Qed.

Lemma buildPercentRequests_Returns (percent tradeAmount : Z) (us0 : list QuoteUpdate)
    (qm0 : QuoteMap) (st' : list QuoteUpdate * QuoteMap) :
  buildPercentRequests inputTokenMint outputTokenMint pools pairRoutes hop
    amountSpecifiedIsInput (us0, qm0) (percent, tradeAmount) = Returns st' ->
  exists qmS : QuoteMap,
    routesDone percent tradeAmount us0 qmS (length pairRoutes) st' /\
    (forall p' r, entryAt qmS p' r = entryAt qm0 p' r) /\
    (bucketsSized (length pairRoutes) qm0 -> bucketsSized (length pairRoutes) qmS) /\
    (forall p', is_Some (qmS !! p') -> is_Some (qm0 !! p') \/ p' = percent).
Proof.
  unfold buildPercentRequests.
  set (qmS := match qm0 !! percent with
              | Some _ => qm0
              | None => <[percent := replicate (length pairRoutes) None]> qm0
              end).
  intros Hrun. exists qmS. split_and!.
  - apply (forEachIndexed_invariant _
             (routesDone percent tradeAmount us0 qmS) pairRoutes 0%nat _ _ Hrun).
    + exists []. cbn. rewrite app_nil_r. split_and!; try done.
      * intros r route Hr. lia.
      * intros u Hu. by apply elem_of_nil in Hu.
    + intros k route t t' Hk Ht Hbody. cbn in *. by eapply routesDone_step.
  - intros p' r. subst qmS. destruct (qm0 !! percent) eqn:Hp; [done|].
    unfold entryAt. destruct (decide (p' = percent)) as [->|Hne].
    + rewrite lookup_insert_eq, Hp. cbn. apply arrGet_replicate_None.
    + by rewrite lookup_insert_ne.
  - intros Hs. subst qmS. destruct (qm0 !! percent) eqn:Hp; [done|].
    intros p' b. destruct (decide (p' = percent)) as [->|Hne].
    + rewrite lookup_insert_eq. intros [= <-]. apply length_replicate.
    + rewrite lookup_insert_ne by done. apply Hs.
  - intros p'. subst qmS. destruct (qm0 !! percent) eqn:Hp; [by left|].
    destruct (decide (p' = percent)) as [->|Hne]; [by right|].
    rewrite lookup_insert_ne by done. by left.
Qed.

Lemma requestsAligned_step (slices : list (Z * Z)) (k : nat) (percent tradeAmount : Z)
    (st st' : list QuoteUpdate * QuoteMap) :
  slices !! k = Some (percent, tradeAmount) ->
  requestsAligned slices k st ->
  buildPercentRequests inputTokenMint outputTokenMint pools pairRoutes hop
    amountSpecifiedIsInput st (percent, tradeAmount) = Returns st' ->
  requestsAligned slices (S k) st'.
Proof.
  intros Hk [Hidx Hsub] Hrun. destruct st as [us qm].
  apply buildPercentRequests_Returns in Hrun as (qmS & Hdone & _).
  destruct Hdone as (new & Hus & _ & _ & _ & _ & Hqi & Hnewsub & Hnew).
  cbn [fst snd] in *. split.
  - intros i u. rewrite Hus. intros Hi.
    apply lookup_app_Some in Hi as [Hi|[Hge Hi]]; [by apply Hidx|].
    rewrite (Hqi _ _ Hi). split; [lia|].
    apply Hnew. by eapply list_elem_of_lookup_2.
  - rewrite Hus, fmap_app. rewrite (take_S_r _ _ _ Hk), fmap_app. cbn.
    unfold requestOrder. rewrite bind_app. apply sublist_app; [done|].
    cbn. rewrite app_nil_r.
    replace (updateKey <$> new) with ((fun r => (percent, r)) <$> (upd_routeIndex <$> new)).
    + by apply fmap_sublist.
    + rewrite <- list_fmap_compose. apply list_fmap_ext. intros i u Hu. cbn.
      unfold updateKey. apply list_elem_of_lookup_2 in Hu.
      by destruct (Hnew u Hu) as (-> & _).
Qed.

(** Quote indices are positions and the requests follow [requestOrder]. *)
Lemma buildQuoteUpdateRequests_aligned (percents amounts : list Z) (qm0 qm' : QuoteMap)
    (us : list QuoteUpdate) :
  buildQuoteUpdateRequests inputTokenMint outputTokenMint pools pairRoutes percents amounts
    hop amountSpecifiedIsInput qm0 = Returns (us, qm') ->
  (forall i u, us !! i = Some u -> upd_quoteIndex u = i /\ upd_hopIndex u = hop) /\
  (updateKey <$> us) `sublist_of` requestOrder (zip percents amounts).*1.
Proof.
  unfold buildQuoteUpdateRequests. intros Hrun.
  assert (requestsAligned (zip percents amounts) (length (zip percents amounts)) (us, qm'))
    as [Hidx Hsub].
  { apply (forEach_invariant _ (requestsAligned (zip percents amounts))
             (zip percents amounts) _ _ Hrun).
    - split; [done|]. cbn. apply sublist_nil_l.
    - intros k [p a] t t' Hk Ht Hbody. by eapply requestsAligned_step. }
  rewrite take_ge in Hsub by done. done.
Qed.

Lemma percentsDone_step (slices : list (Z * Z)) (qm0 : QuoteMap) (k : nat)
    (percent tradeAmount : Z) (st st' : list QuoteUpdate * QuoteMap) :
  NoDup slices.*1 ->
  slices !! k = Some (percent, tradeAmount) ->
  percentsDone slices qm0 k st ->
  buildPercentRequests inputTokenMint outputTokenMint pools pairRoutes hop
    amountSpecifiedIsInput st (percent, tradeAmount) = Returns st' ->
  percentsDone slices qm0 (S k) st'.
Proof.
  intros Hnodup Hk (Hframe & Hsized & Hdom & Hdone & Hreq) Hrun.
  destruct st as [us qm], st' as [us' qm']. unfold percentsDone. cbn [fst snd] in *.
  assert (Hfresh : percent ∉ (take k slices).*1).
  { intros Hin. apply list_elem_of_lookup in Hin as [i Hi].
    assert (i < k)%nat as Hik.
    { apply lookup_lt_Some in Hi. rewrite length_fmap, length_take in Hi. lia. }
    rewrite list_lookup_fmap, lookup_take_lt in Hi by done.
    assert (slices.*1 !! i = Some percent) as Hi' by (by rewrite list_lookup_fmap).
    assert (slices.*1 !! k = Some percent) as Hk' by (by rewrite list_lookup_fmap, Hk).
    pose proof (NoDup_lookup _ _ _ _ Hnodup Hi' Hk'). lia. }
  assert (Htake : take (S k) slices = take k slices ++ [(percent, tradeAmount)])
    by (by apply take_S_r).
  apply buildPercentRequests_Returns in Hrun
    as (qmS & (new & Hus & Hfr & HdomS & Hsz & Hdn & _ & _ & Hnew) & HqmS & HszS & Hdom0).
  cbn [fst snd] in *. subst us'.
  assert (Hold : forall p r, p ≠ percent -> entryAt qm' p r = entryAt qm p r).
  { intros p r Hp. rewrite Hfr by auto. apply HqmS. }
  split_and!.
  - intros p r Hp. rewrite Htake, fmap_app, elem_of_app in Hp. cbn in Hp.
    rewrite Hold; [apply Hframe; tauto|]. rewrite list_elem_of_singleton in Hp. tauto.
  - intros Hs. apply Hsz, HszS, Hsized, Hs.
  - intros p Hp. rewrite Htake, fmap_app, elem_of_app. cbn.
    apply HdomS, Hdom0 in Hp as [Hp| ->].
    + apply Hdom in Hp. tauto.
    + right. right. by constructor.
  - intros p amt r route Hin Hroute. rewrite Htake, elem_of_app in Hin.
    destruct Hin as [Hin|Hin].
    + assert (p ≠ percent) as Hp.
      { intros ->. apply Hfresh. by apply (list_elem_of_fmap_2 fst) in Hin. }
      specialize (Hdone p amt r route Hin Hroute). rewrite Hold by done.
      destruct (eligibleAt route); [|done].
      destruct Hdone as (q & Hq & Hst & Hu). exists q. split_and!; [done..|].
      intros Hsome. destruct (Hu Hsome) as (u & Hin' & ?). exists u.
      rewrite elem_of_app. tauto.
    + apply list_elem_of_singleton in Hin as [= -> ->].
      specialize (Hdn r route (lookup_lt_Some _ _ _ Hroute) Hroute).
      destruct (eligibleAt route).
      * destruct Hdn as (q & Hq & Hst & Hu). exists q. split_and!; [done| |].
        -- destruct (startsAt route); [done|]. rewrite <- Hst, HqmS. symmetry.
           by apply Hframe.
        -- intros Hsome. destruct (Hu Hsome) as (u & Hin' & ?). exists u.
           rewrite elem_of_app. split_and!; [tauto| |done]. by apply Hnew.
      * rewrite Hdn, HqmS. by apply Hframe.
  - intros u Hu. apply elem_of_app in Hu as [Hu|Hu].
    + destruct (Hreq u Hu) as (amt & route & q & Hin & Hroute & Helig & Hq & Hb).
      exists amt, route, q. rewrite Htake, elem_of_app. split_and!; [tauto|done..| |done].
      rewrite Hold; [done|]. intros Heq. apply Hfresh. rewrite <- Heq.
      by apply (list_elem_of_fmap_2 fst) in Hin.
    + destruct (Hnew u Hu) as (Hp & _ & route & q & Hroute & Helig & Hq & Hb).
      exists tradeAmount, route, q. rewrite Htake, elem_of_app, Hp.
      split_and!; [|done..]. right. by constructor.
Qed.

Lemma buildQuoteUpdateRequests_done (percents amounts : list Z) (qm0 qm' : QuoteMap)
    (us : list QuoteUpdate) :
  NoDup (zip percents amounts).*1 ->
  buildQuoteUpdateRequests inputTokenMint outputTokenMint pools pairRoutes percents amounts
    hop amountSpecifiedIsInput qm0 = Returns (us, qm') ->
  percentsDone (zip percents amounts) qm0 (length (zip percents amounts)) (us, qm').
Proof.
  unfold buildQuoteUpdateRequests. intros Hnodup Hrun.
  apply (forEach_invariant _ (percentsDone (zip percents amounts) qm0)
           (zip percents amounts) _ _ Hrun).
  - split_and!; cbn; try done.
    + by left.
    + intros p amt r route Hin. by apply elem_of_nil in Hin.
    + intros u Hu. by apply elem_of_nil in Hu.
  - intros k [p a] t t' Hk Ht Hbody. by eapply percentsDone_step.
Qed.

End Builder.

(** ** The Hop Quote Executor *)

Section Executor.

Variable swapQuoteWithParams : option SwapQuoteParam -> Exc SwapQuote.
Variable quoteParams : list SwapQuoteParam.

Local Abbreviation resultOf u :=
  (hopResultFor swapQuoteWithParams (upd_percent u) (upd_address u)
     (quoteParams !! upd_quoteIndex u)).

(** The [catch] block throws exactly when the engine threw [null] or
    [undefined], and then a TypeError. *)
Lemma hopResultFor_Throws (p : Z) (address : Address) (swapParam : option SwapQuoteParam)
    (e : Thrown) :
  hopResultFor swapQuoteWithParams p address swapParam = Throws e ->
  e = TypeError /\ swapQuoteWithParams swapParam = Throws Nullish.
Proof.
  unfold hopResultFor. destruct (swapQuoteWithParams swapParam) as [quote|e0].
  - by destruct swapParam.
  - destruct e0; cbn; try done. by intros [= <-].
Qed.

Lemma hopResultFor_is_Returns (p : Z) (address : Address)
    (swapParam : option SwapQuoteParam) :
  engineReadable swapQuoteWithParams swapParam <->
  exists result, hopResultFor swapQuoteWithParams p address swapParam = Returns result.
Proof.
  unfold engineReadable. split.
  - intros Hne. destruct (hopResultFor _ p address swapParam) as [result|e] eqn:Hres; [eauto|].
    by apply hopResultFor_Throws in Hres as [_ ?].
  - intros [result Hres] Hnull. unfold hopResultFor in Hres. by rewrite Hnull in Hres.
Qed.

Lemma applyQuoteUpdate_Returns (qm qm' : QuoteMap) (u : QuoteUpdate) :
  applyQuoteUpdate swapQuoteWithParams quoteParams qm u = Returns qm' ->
  exists q result,
    resultOf u = Returns result /\
    entryAt qm (upd_percent u) (upd_routeIndex u) = Some q /\
    entryAt qm' (upd_percent u) (upd_routeIndex u) = Some (writeHop u result q) /\
    (forall p r, (p, r) ≠ updateKey u -> entryAt qm' p r = entryAt qm p r) /\
    (forall n, bucketsSized n qm -> bucketsSized n qm').
Proof.
  unfold applyQuoteUpdate.
  destruct (getEntry qm _ _) as [e|] eqn:Hget; [|done]. cbn.
  apply getEntry_Returns in Hget as [_ ->].
  destruct (entryAt qm _ _) as [q|] eqn:Hq; [|done].
  destruct (hopResultFor _ _ _ _) as [result|] eqn:Hres; [|done]. cbn.
  intros (Hw & Hframe & _ & Hsized)%setEntry_Returns.
  exists q, result. split_and!; [done..|].
  intros n Hn. apply Hsized; [done|].
  unfold entryAt in Hq. destruct (qm !! upd_percent u) as [b|] eqn:Hb; [|done].
  cbn in Hq. apply arrGet_Some_lt in Hq. by rewrite <- (Hn _ _ Hb).
Qed.

Lemma applyQuoteUpdate_is_Some (qm : QuoteMap) (u : QuoteUpdate) :
  is_Some (entryAt qm (upd_percent u) (upd_routeIndex u)) ->
  engineReadable swapQuoteWithParams (quoteParams !! upd_quoteIndex u) ->
  exists qm', applyQuoteUpdate swapQuoteWithParams quoteParams qm u = Returns qm'.
Proof.
  intros Hq [result Hres]%(hopResultFor_is_Returns (upd_percent u) (upd_address u)).
  unfold applyQuoteUpdate.
  rewrite getEntry_entryAt by (by eapply entryAt_is_Some_bucket). cbn.
  destruct Hq as [q Hq]. rewrite Hq, Hres. cbn.
  apply setEntry_is_Some. by eapply entryAt_is_Some_bucket.
Qed.

Lemma updateQuoteMap_other (us : list QuoteUpdate) (p : Z) (r : nat) :
  forall qm qm' : QuoteMap,
  updateQuoteMap swapQuoteWithParams us quoteParams qm = Returns qm' ->
  (forall u, u ∈ us -> updateKey u ≠ (p, r)) ->
  entryAt qm' p r = entryAt qm p r.
Proof.
  unfold updateQuoteMap.
  induction us as [|u us IH]; intros qm qm' Hrun Hkeys; cbn in Hrun.
  - by injection Hrun as <-.
  - destruct (applyQuoteUpdate _ _ qm u) as [qm1|] eqn:Hstep; [|done]. cbn in Hrun.
    apply applyQuoteUpdate_Returns in Hstep as (q & result & _ & _ & _ & Hframe & _).
    rewrite (IH qm1 qm' Hrun).
    + apply Hframe. intros Heq. eapply Hkeys; [|done]. by left.
    + intros u' Hu'. apply Hkeys. by right.
Qed.

Lemma updateQuoteMap_sized (us : list QuoteUpdate) (n : nat) :
  forall qm qm' : QuoteMap,
  updateQuoteMap swapQuoteWithParams us quoteParams qm = Returns qm' ->
  bucketsSized n qm -> bucketsSized n qm'.
Proof.
  unfold updateQuoteMap.
  induction us as [|u us IH]; intros qm qm' Hrun Hn; cbn in Hrun.
  - by injection Hrun as <-.
  - destruct (applyQuoteUpdate _ _ qm u) as [qm1|] eqn:Hstep; [|done]. cbn in Hrun.
    apply applyQuoteUpdate_Returns in Hstep as (q & result & _ & _ & _ & _ & Hsized).
    apply (IH qm1 qm' Hrun). by apply Hsized.
Qed.

Lemma updateQuoteMap_at (us : list QuoteUpdate) :
  forall (qm qm' : QuoteMap) (i : nat) (u : QuoteUpdate),
  updateQuoteMap swapQuoteWithParams us quoteParams qm = Returns qm' ->
  NoDup (updateKey <$> us) ->
  us !! i = Some u ->
  exists q result,
    resultOf u = Returns result /\
    entryAt qm (upd_percent u) (upd_routeIndex u) = Some q /\
    entryAt qm' (upd_percent u) (upd_routeIndex u) = Some (writeHop u result q).
Proof.
  induction us as [|u0 us IH]; intros qm qm' i u Hrun Hnodup Hi; [done|].
  unfold updateQuoteMap in Hrun. cbn in Hrun.
  destruct (applyQuoteUpdate _ _ qm u0) as [qm1|] eqn:Hstep; [|done]. cbn in Hrun.
  fold (updateQuoteMap swapQuoteWithParams us quoteParams qm1) in Hrun.
  apply applyQuoteUpdate_Returns in Hstep as (q & result & Hres & Hq & Hw & Hframe & _).
  cbn in Hnodup. apply NoDup_cons in Hnodup as [Hnotin Hnodup].
  destruct i as [|i]; cbn in Hi.
  - injection Hi as <-. exists q, result. split_and!; [done..|].
    rewrite (updateQuoteMap_other us _ _ qm1 qm' Hrun); [done|].
    intros u' Hu' Heq. apply Hnotin. change (updateKey u' = updateKey u0) in Heq.
    rewrite <- Heq. by apply list_elem_of_fmap_2.
  - destruct (IH qm1 qm' i u Hrun Hnodup Hi) as (q1 & result1 & Hres1 & Hq1 & Hw1).
    exists q1, result1. split_and!; [done| |done]. rewrite <- Hq1. symmetry. apply Hframe.
    intros Heq. apply Hnotin. change (updateKey u = updateKey u0) in Heq. rewrite <- Heq.
    apply (list_elem_of_fmap_2 updateKey). by eapply list_elem_of_lookup_2.
Qed.

(** The loop runs to its end when every update addresses an entry and the
    engine throws nothing unreadable on the parameters the updates name. *)
Lemma updateQuoteMap_returns (us : list QuoteUpdate) :
  forall qm : QuoteMap,
  (forall u, u ∈ us -> is_Some (entryAt qm (upd_percent u) (upd_routeIndex u))) ->
  (forall u, u ∈ us ->
     engineReadable swapQuoteWithParams (quoteParams !! upd_quoteIndex u)) ->
  exists qm', updateQuoteMap swapQuoteWithParams us quoteParams qm = Returns qm'.
Proof.
  unfold updateQuoteMap.
  induction us as [|u us IH]; intros qm Hq Hengine; cbn; [eauto|].
  destruct (applyQuoteUpdate_is_Some qm u) as [qm1 Hstep];
    [apply Hq; by left|apply Hengine; by left|].
  rewrite Hstep. cbn. apply IH; [|intros u' Hu'; apply Hengine; by right]. intros u' Hu'.
  apply applyQuoteUpdate_Returns in Hstep as (q & result & _ & Hq0 & Hw & Hframe & _).
  destruct (decide ((upd_percent u', upd_routeIndex u') = updateKey u)) as [Heq|Hne].
  - injection Heq as -> ->. by rewrite Hw.
  - rewrite Hframe by done. apply Hq. by right.
Qed.

Lemma updateQuoteMap_dom (us : list QuoteUpdate) (p : Z) :
  forall qm qm' : QuoteMap,
  updateQuoteMap swapQuoteWithParams us quoteParams qm = Returns qm' ->
  is_Some (qm' !! p) <-> is_Some (qm !! p).
Proof.
  unfold updateQuoteMap.
  induction us as [|u us IH]; intros qm qm' Hrun; cbn in Hrun.
  - by injection Hrun as <-.
  - destruct (applyQuoteUpdate _ _ qm u) as [qm1|] eqn:Hstep; [|done]. cbn in Hrun.
    rewrite (IH qm1 qm' Hrun).
    unfold applyQuoteUpdate in Hstep.
    destruct (getEntry qm _ _) as [e|]; [|done]. cbn in Hstep.
    destruct e as [q|]; [|done].
    destruct (hopResultFor _ _ _ _) as [result|]; [|done]. cbn in Hstep.
    by apply setEntry_Returns in Hstep as (_ & _ & Hdom & _).
Qed.

End Executor.

(** ** Order of the requests *)

Lemma StronglySorted_sublist {A : Type} (R : relation A) (l1 l2 : list A) :
  l1 `sublist_of` l2 -> StronglySorted R l2 -> StronglySorted R l1.
Proof.
  induction 1 as [|x l1 l2 Hsub IH|x l1 l2 Hsub IH]; intros Hs; [done|..].
  - apply StronglySorted_cons in Hs as [Hx Hs].
    apply StronglySorted_cons. split; [|by apply IH].
    rewrite Forall_forall in *. intros y Hy. apply Hx. by eapply elem_of_sublist.
  - apply StronglySorted_cons in Hs as [_ Hs]. by apply IH.
Qed.

Lemma StronglySorted_lookup {A : Type} (R : relation A) (l : list A) (i j : nat) (x y : A) :
  StronglySorted R l -> (i < j)%nat -> l !! i = Some x -> l !! j = Some y -> R x y.
Proof.
  intros Hs. revert i j. induction Hs as [|z l Hs IH Hz]; intros i j Hij Hi Hj; [done|].
  destruct j as [|j]; [lia|]. cbn in Hj. destruct i as [|i]; cbn in Hi.
  - injection Hi as ->. rewrite Forall_forall in Hz. apply Hz.
    by eapply list_elem_of_lookup_2.
  - apply (IH i j); [lia|done..].
Qed.

Lemma StronglySorted_of_lookup {A : Type} (R : relation A) (l : list A) :
  (forall i j x y, (i < j)%nat -> l !! i = Some x -> l !! j = Some y -> R x y) ->
  StronglySorted R l.
Proof.
  induction l as [|z l IH]; intros Hl; constructor.
  - apply IH. intros i j x y Hij Hi Hj. apply (Hl (S i) (S j)); [lia|done..].
  - apply Forall_forall. intros y Hy. apply list_elem_of_lookup in Hy as [j Hj].
    apply (Hl 0%nat (S j)); [lia|done..].
Qed.

Lemma requestOrder_sorted (pairRoutes : list (list Address)) (percents : list Z) :
  StronglySorted Z.lt percents ->
  StronglySorted keyBefore (requestOrder pairRoutes percents).
Proof.
  unfold requestOrder. induction 1 as [|p ps Hs IH Hp]; cbn; [constructor|].
  apply StronglySorted_app. split_and!; [|..|done].
  - intros [p1 r1] [p2 r2] (r & [= -> ->] & _)%list_elem_of_fmap
      (q & (r' & [= -> ->] & _)%list_elem_of_fmap & Hq)%list_elem_of_bind.
    left. cbn. rewrite Forall_forall in Hp. by apply Hp.
  - apply StronglySorted_of_lookup. intros i j x y Hij.
    rewrite !list_lookup_fmap.
    destruct (seq 0 _ !! i) as [ri|] eqn:Hi; [|done].
    destruct (seq 0 _ !! j) as [rj|] eqn:Hj; [|done].
    apply lookup_seq in Hi as [-> _]. apply lookup_seq in Hj as [-> _].
    cbn. intros [= <-] [= <-]. right. cbn. lia.
Qed.

Lemma requestOrder_NoDup (pairRoutes : list (list Address)) (percents : list Z) :
  NoDup percents -> NoDup (requestOrder pairRoutes percents).
Proof.
  intros Hnd. unfold requestOrder. apply NoDup_bind; [| |done].
  - intros p1 p2 [p r] _ _ (r1 & [= -> ->] & _)%list_elem_of_fmap
      (r2 & [= -> ->] & _)%list_elem_of_fmap. done.
  - intros p _. apply NoDup_fmap_2; [|apply NoDup_seq]. by intros r1 r2 [= ->].
Qed.

Lemma zip_fst_lookup {A B : Type} (l : list A) (k : list B) (i : nat) (x : A) :
  (zip l k).*1 !! i = Some x -> l !! i = Some x.
Proof.
  rewrite list_lookup_fmap. destruct (zip l k !! i) as [[a b]|] eqn:Hz; [|done].
  apply lookup_zip_Some in Hz as [Ha _]. cbn. by intros [= <-].
Qed.

Lemma zip_fst_sublist {A B : Type} (l : list A) (k : list B) :
  (zip l k).*1 `sublist_of` l.
Proof.
  revert k. induction l as [|x l IH]; intros [|y k]; cbn; try apply sublist_nil_l.
  by apply sublist_skip.
Qed.

Lemma NoDup_fst_unique {A B : Type} (l : list (A * B)) (a : A) (b b' : B) :
  NoDup l.*1 -> (a, b) ∈ l -> (a, b') ∈ l -> b = b'.
Proof.
  intros Hnd [i Hi]%list_elem_of_lookup [j Hj]%list_elem_of_lookup.
  assert (i = j) as ->.
  { eapply (NoDup_lookup _ _ _ a Hnd); by rewrite list_lookup_fmap, ?Hi, ?Hj. }
  congruence.
Qed.

(** ** One hop of the batch *)

(** C9: in the list [buildQuoteUpdateRequests] returns for a hop, each
    element's [quoteIndex] is its position; so with one parameter per request
    the lookup [quoteParams[quoteIndex]] of [updateQuoteMap] is in bounds and
    reads the parameter at the request's own position.  The requests come in
    the order of the percentage list and, within a percentage, in route
    enumeration order; for an ascending percentage list that is ascending
    percentage, then ascending route index. *)
Theorem buildQuoteUpdateRequests_quoteIndex_is_position
    (inputTokenMint outputTokenMint : Address) (pools : gmap Address TokenPairPool)
    (pairRoutes : list (list Address)) (percents amounts : list Z) (hop : nat)
    (amountSpecifiedIsInput : bool) (quoteMap quoteMap' : QuoteMap)
    (quoteUpdates : list QuoteUpdate) :
  buildQuoteUpdateRequests inputTokenMint outputTokenMint pools pairRoutes percents amounts
    hop amountSpecifiedIsInput quoteMap = Returns (quoteUpdates, quoteMap') ->
  (forall i u, quoteUpdates !! i = Some u -> upd_quoteIndex u = i) /\
  (forall (quoteParams : list SwapQuoteParam) i u,
     length quoteParams = length quoteUpdates -> quoteUpdates !! i = Some u ->
     is_Some (quoteParams !! upd_quoteIndex u) /\
     quoteParams !! upd_quoteIndex u = quoteParams !! i) /\
  (fun u => (upd_percent u, upd_routeIndex u)) <$> quoteUpdates
    `sublist_of` (percents ≫= fun p => (fun r => (p, r)) <$> seq 0 (length pairRoutes)) /\
  (StronglySorted Z.lt percents ->
   forall i j u v, (i < j)%nat ->
     quoteUpdates !! i = Some u -> quoteUpdates !! j = Some v ->
     upd_percent u < upd_percent v \/
     (upd_percent u = upd_percent v /\ (upd_routeIndex u < upd_routeIndex v)%nat)).
Proof.
  intros Hrun.
  apply buildQuoteUpdateRequests_aligned in Hrun as [Hidx Hsub].
  pose proof (zip_fst_sublist percents amounts) as Hpre.
  assert (Hsub' : updateKey <$> quoteUpdates `sublist_of` requestOrder pairRoutes percents).
  { etrans; [exact Hsub|]. unfold requestOrder. by apply bind_sublist. }
  split_and!.
  - intros i u Hi. by apply Hidx.
  - intros quoteParams i u Hlen Hi. rewrite (proj1 (Hidx i u Hi)). split; [|done].
    apply lookup_lt_is_Some. rewrite Hlen. by eapply lookup_lt_Some.
  - exact Hsub'.
  - intros Hsorted i j u v Hij Hi Hj.
    pose proof (StronglySorted_sublist keyBefore _ _ Hsub'
                  (requestOrder_sorted pairRoutes percents Hsorted)) as Hs.
    apply (StronglySorted_lookup keyBefore _ i j (updateKey u) (updateKey v) Hs Hij);
      by rewrite list_lookup_fmap, ?Hi, ?Hj.
Qed.

Section HopBatch.

Variable swapQuoteWithParams : option SwapQuoteParam -> Exc SwapQuote.
Variables inputTokenMint outputTokenMint : Address.
Variable pools : gmap Address TokenPairPool.
Variable pairRoutes : list (list Address).
Variables percents amounts : list Z.
Variable hop : nat.
Variable amountSpecifiedIsInput : bool.
Variables (quoteMap quoteMap1 : QuoteMap) (quoteUpdates : list QuoteUpdate).

Hypothesis percents_NoDup : NoDup (zip percents amounts).*1.
Hypothesis built :
  buildQuoteUpdateRequests inputTokenMint outputTokenMint pools pairRoutes percents amounts
    hop amountSpecifiedIsInput quoteMap = Returns (quoteUpdates, quoteMap1).

Lemma built_keys_NoDup : NoDup (updateKey <$> quoteUpdates).
Proof.
  destruct (buildQuoteUpdateRequests_aligned _ _ _ _ _ _ _ _ _ _ _ built) as [_ Hsub].
  eapply sublist_NoDup; [|exact Hsub]. by apply requestOrder_NoDup.
Qed.

Lemma built_hopIndex (u : QuoteUpdate) : u ∈ quoteUpdates -> upd_hopIndex u = hop.
Proof.
  intros [i Hi]%list_elem_of_lookup.
  by destruct (buildQuoteUpdateRequests_aligned _ _ _ _ _ _ _ _ _ _ _ built) as [Hidx _];
    apply Hidx in Hi as [_ ?].
Qed.

Lemma built_entries (u : QuoteUpdate) :
  u ∈ quoteUpdates ->
  exists amt route q,
    (upd_percent u, amt) ∈ zip percents amounts /\
    pairRoutes !! upd_routeIndex u = Some route /\
    eligibleAt hop amountSpecifiedIsInput route = true /\
    entryAt quoteMap1 (upd_percent u) (upd_routeIndex u) = Some q /\
    builtFrom inputTokenMint outputTokenMint hop amountSpecifiedIsInput amt route q u.
Proof.
  intros Hu.
  pose proof (buildQuoteUpdateRequests_done _ _ _ _ _ _ _ _ _ _ _
                percents_NoDup built) as (_ & _ & _ & _ & Hreq).
  cbn [fst snd] in Hreq. rewrite take_ge in Hreq by done. by apply Hreq.
Qed.

(** What the builder leaves at the entry of one percentage and route. *)
Lemma built_entry (p amt : Z) (r : nat) (route : list Address) :
  (p, amt) ∈ zip percents amounts -> pairRoutes !! r = Some route ->
  if eligibleAt hop amountSpecifiedIsInput route then
    exists q, entryAt quoteMap1 p r = Some q /\
      (if startsAt hop amountSpecifiedIsInput route then q = freshEntry p route
       else entryAt quoteMap p r = Some q) /\
      (is_Some (tradeOf inputTokenMint outputTokenMint hop amountSpecifiedIsInput amt route q)
       <-> exists u, u ∈ quoteUpdates /\ upd_percent u = p /\ upd_routeIndex u = r)
  else entryAt quoteMap1 p r = entryAt quoteMap p r /\
       forall u, u ∈ quoteUpdates -> updateKey u ≠ (p, r).
Proof.
  intros Hin Hroute.
  pose proof (buildQuoteUpdateRequests_done _ _ _ _ _ _ _ _ _ _ _
                percents_NoDup built) as (_ & _ & _ & Hdone & _).
  cbn [fst snd] in Hdone. rewrite take_ge in Hdone by done.
  specialize (Hdone p amt r route Hin Hroute).
  destruct (eligibleAt hop amountSpecifiedIsInput route) eqn:Helig.
  - destruct Hdone as (q & Hq & Hst & Hreq). exists q. split_and!; [done..|].
    split; [done|]. intros (u & Hu & <- & <-).
    destruct (built_entries u Hu) as (amt' & route' & q' & Hin' & Hroute' & _ & Hq' & Hb).
    assert (amt' = amt) as -> by (by eapply NoDup_fst_unique).
    assert (route' = route) as -> by congruence.
    assert (q' = q) as -> by congruence.
    destruct Hb as (a & t & pool & -> & _). eauto.
  - split; [done|]. intros u Hu [= <- <-].
    destruct (built_entries u Hu) as (_ & route' & _ & _ & Hroute' & Helig' & _).
    congruence.
Qed.

Lemma built_sized :
  bucketsSized (length pairRoutes) quoteMap -> bucketsSized (length pairRoutes) quoteMap1.
Proof.
  by pose proof (buildQuoteUpdateRequests_done _ _ _ _ _ _ _ _ _ _ _
                   percents_NoDup built) as (_ & Hs & _).
Qed.

Lemma built_dom (p : Z) :
  is_Some (quoteMap1 !! p) -> is_Some (quoteMap !! p) \/ p ∈ (zip percents amounts).*1.
Proof.
  pose proof (buildQuoteUpdateRequests_done _ _ _ _ _ _ _ _ _ _ _
                percents_NoDup built) as (_ & _ & Hdom & _).
  cbn [fst snd] in Hdom. rewrite take_ge in Hdom by done. apply Hdom.
Qed.


End HopBatch.

(** ** One turn of the hop loop, entry by entry *)

Section HopTurn.

Variable swapQuoteWithParams : option SwapQuoteParam -> Exc SwapQuote.
Variable batchBuildSwapQuoteParams : list SwapQuoteRequest -> Exc (list SwapQuoteParam).
Variables inputTokenMint outputTokenMint : Address.
Variable pools : gmap Address TokenPairPool.
Variable pairRoutes : list (list Address).
Variables percents amounts : list Z.
Variable amountSpecifiedIsInput : bool.

Hypothesis percents_NoDup : NoDup (zip percents amounts).*1.

Lemma quoteHop_Returns (quoteMap quoteMap2 : QuoteMap) (hop : nat) :
  quoteHop swapQuoteWithParams batchBuildSwapQuoteParams inputTokenMint outputTokenMint
    pools pairRoutes percents amounts amountSpecifiedIsInput quoteMap hop
    = Returns quoteMap2 ->
  (bucketsSized (length pairRoutes) quoteMap ->
   bucketsSized (length pairRoutes) quoteMap2) /\
  (forall p, is_Some (quoteMap2 !! p) ->
     is_Some (quoteMap !! p) \/ p ∈ (zip percents amounts).*1) /\
  forall p amt r route,
    (p, amt) ∈ zip percents amounts -> pairRoutes !! r = Some route ->
    if eligibleAt hop amountSpecifiedIsInput route then
      exists q,
        (if startsAt hop amountSpecifiedIsInput route then q = freshEntry p route
         else entryAt quoteMap p r = Some q) /\
        match tradeOf inputTokenMint outputTokenMint hop amountSpecifiedIsInput amt route q with
        | Some _ => exists result, entryAt quoteMap2 p r = Some (setHop hop result q)
        | None => entryAt quoteMap2 p r = Some q
        end
    else entryAt quoteMap2 p r = entryAt quoteMap p r.
Proof.
  unfold quoteHop.
  destruct (buildQuoteUpdateRequests _ _ _ _ _ _ _ _ _) as [[us qm1]|] eqn:Hbuild; [|done].
  cbn. destruct (batchBuildSwapQuoteParams _) as [quoteParams|]; [|done]. cbn.
  intros Hupd. split_and!.
  - intros Hs. eapply updateQuoteMap_sized; [exact Hupd|].
    by eapply built_sized.
  - intros p Hp. rewrite (updateQuoteMap_dom _ _ _ _ _ _ Hupd) in Hp.
    by eapply built_dom.
  - intros p amt r route Hin Hroute.
    pose proof (built_entry _ _ _ _ _ _ _ _ _ _ _ percents_NoDup Hbuild
                  p amt r route Hin Hroute) as Hentry.
    destruct (eligibleAt hop amountSpecifiedIsInput route).
    + destruct Hentry as (q & Hq & Hst & Hreq). exists q. split; [done|].
      destruct (tradeOf _ _ _ _ _ _ _) as [trade|] eqn:Htrade.
      * destruct (proj1 Hreq) as (u & Hu & <- & <-); [eauto|].
        apply list_elem_of_lookup in Hu as [i Hi].
        destruct (updateQuoteMap_at _ _ _ _ _ i u Hupd
                    (built_keys_NoDup _ _ _ _ _ _ _ _ _ _ _ percents_NoDup Hbuild) Hi)
          as (q' & result & _ & Hq' & Hw).
        assert (q' = q) as -> by congruence.
        eexists. rewrite Hw. unfold writeHop, setHop.
        rewrite (built_hopIndex _ _ _ _ _ _ _ _ _ _ _ Hbuild u); [done|].
        by eapply list_elem_of_lookup_2.
      * rewrite (updateQuoteMap_other _ _ _ _ _ _ _ Hupd); [done|].
        intros u Hu [= <- <-]. destruct (proj2 Hreq) as [? ?]; [eauto|done].
    + destruct Hentry as [Heq Hnone].
      by rewrite (updateQuoteMap_other _ _ _ _ _ _ _ Hupd).
Qed.

End HopTurn.

(** ** The shape of a chain of hops *)

Section Chain.

Variable dir : bool.
Variable len : nat.

Lemma slotOf_inj (i j : nat) :
  (i < len)%nat -> (j < len)%nat -> slotOf dir len i = slotOf dir len j -> i = j.
Proof. unfold slotOf. destruct dir; lia. Qed.

Lemma slotOf_lt (i : nat) : (i < len)%nat -> (slotOf dir len i < len)%nat.
Proof. unfold slotOf. destruct dir; lia. Qed.

Lemma chainShape_start (result : HopResult) :
  (1 <= len)%nat ->
  chainShape dir 1 len (arrSet (slotOf dir len 0) result (replicate len None)).
Proof.
  intros Hlen. split_and!.
  - rewrite length_arrSet; rewrite length_replicate; [done|]. apply slotOf_lt. lia.
  - done.
  - destruct result as [h|c].
    + exists 1%nat. split_and!; [done|..].
      * intros i Hi. assert (i = 0)%nat as -> by lia. exists h. apply arrGet_arrSet_eq.
      * lia.
      * intros i Hi Hs. rewrite arrGet_arrSet_ne; [apply arrGet_replicate_None|].
        intros Heq. apply slotOf_inj in Heq; lia.
    + exists 0%nat. split_and!; [lia|..].
      * intros i Hi. lia.
      * intros _. exists c. apply arrGet_arrSet_eq.
      * intros i Hi Hs. rewrite arrGet_arrSet_ne; [apply arrGet_replicate_None|].
        intros Heq. apply slotOf_inj in Heq; lia.
Qed.

Lemma chainShape_extend (done : nat) (hops : list (option HopResult))
    (h : SuccessHop) (result : HopResult) :
  chainShape dir done len hops -> (1 <= done < len)%nat ->
  arrGet hops (slotOf dir len (done - 1)) = Some (HopSuccess h) ->
  chainShape dir (S done) len (arrSet (slotOf dir len done) result hops).
Proof.
  intros (Hlen & Hdone & s & Hs & Hsucc & Hfail & Hnone) Hd Hadj.
  assert (s = done) as ->.
  { destruct (decide (s = done)) as [|Hne]; [done|]. exfalso.
    destruct (decide (s = done - 1)%nat) as [->|Hne'].
    - destruct Hfail as [c Hc]; [lia|]. congruence.
    - rewrite Hnone in Hadj; [done|lia|lia]. }
  split_and!.
  - rewrite length_arrSet; [done|]. rewrite Hlen. apply slotOf_lt. lia.
  - lia.
  - destruct result as [h'|c].
    + exists (S done). split_and!; [done|..].
      * intros i Hi. destruct (decide (i = done)) as [->|Hne].
        -- exists h'. apply arrGet_arrSet_eq.
        -- rewrite arrGet_arrSet_ne; [apply Hsucc; lia|].
           intros Heq. apply slotOf_inj in Heq; lia.
      * lia.
      * intros i Hi Hsi. rewrite arrGet_arrSet_ne; [apply Hnone; lia|].
        intros Heq. apply slotOf_inj in Heq; lia.
    + exists done. split_and!; [lia|..].
      * intros i Hi. rewrite arrGet_arrSet_ne; [apply Hsucc; lia|].
        intros Heq. apply slotOf_inj in Heq; lia.
      * intros _. exists c. apply arrGet_arrSet_eq.
      * intros i Hi Hsi. rewrite arrGet_arrSet_ne; [apply Hnone; lia|].
        intros Heq. apply slotOf_inj in Heq; lia.
Qed.

Lemma chainShape_skip (done : nat) (hops : list (option HopResult)) :
  chainShape dir done len hops -> (1 <= done < len)%nat ->
  (forall h, arrGet hops (slotOf dir len (done - 1)) ≠ Some (HopSuccess h)) ->
  chainShape dir (S done) len hops.
Proof.
  intros (Hlen & Hdone & s & Hs & Hsucc & Hfail & Hnone) Hd Hadj.
  assert (s < done)%nat as Hlt.
  { destruct (decide (s < done)%nat) as [|Hge]; [done|]. exfalso.
    destruct (Hsucc (done - 1)%nat) as [h Hh]; [lia|]. by eapply Hadj. }
  split_and!; [done|lia|]. exists s. split_and!; [lia|done|..].
  - intros _. by apply Hfail.
  - intros i Hi Hsi. apply Hnone; [done|]. lia.
Qed.

(** After a failure nothing later in processing order is set. *)
Lemma chainShape_sticky (done : nat) (hops : list (option HopResult)) (k k' : nat)
    (c : option SwapErrorCode) :
  chainShape dir done len hops ->
  arrGet hops k = Some (HopFailure c) ->
  (if dir then (k < k')%nat else (k' < k)%nat) ->
  arrGet hops k' = None.
Proof.
  intros (Hlen & Hdone & s & Hs & Hsucc & Hfail & Hnone) Hk Hlater.
  assert (k < len)%nat as Hklen by (rewrite <- Hlen; by eapply arrGet_Some_lt).
  destruct (decide (k' < len)%nat) as [Hk'|Hk'].
  2:{ unfold arrGet. rewrite lookup_ge_None_2; [done|lia]. }
  set (i := slotOf dir len k).
  assert (slotOf dir len i = k) as Hi by (unfold i, slotOf; destruct dir; lia).
  assert (i < len)%nat as Hilen by (unfold i, slotOf; destruct dir; lia).
  assert (i = s) as ->.
  { destruct (Nat.lt_total i s) as [Hlt|[->|Hgt]]; [|done|].
    - destruct (Hsucc i Hlt) as [h Hh]. congruence.
    - pose proof (Hnone i Hilen (or_introl Hgt)) as Hn. rewrite Hi in Hn. congruence. }
  set (i' := slotOf dir len k').
  assert (slotOf dir len i' = k') as Hi' by (unfold i', slotOf; destruct dir; lia).
  rewrite <- Hi'. apply Hnone; [unfold i', slotOf; destruct dir; lia|].
  left. subst i'. unfold slotOf in *. destruct dir; lia.
Qed.

End Chain.

(** ** The hop loop *)

Lemma hopIteration_lookup (maxLen t hop : nat) (dir : bool) :
  hopIteration maxLen dir !! t = Some hop ->
  (t < maxLen)%nat /\ hop = if dir then t else (maxLen - 1 - t)%nat.
Proof.
  unfold hopIteration. destruct dir.
  - intros [-> ?]%lookup_seq. done.
  - intros Hl. assert (t < maxLen)%nat as Ht.
    { apply lookup_lt_Some in Hl. by rewrite length_reverse, length_seq in Hl. }
    rewrite reverse_lookup in Hl by (by rewrite length_seq).
    rewrite length_seq in Hl. apply lookup_seq in Hl as [-> _]. split; [done|lia].
Qed.

Lemma hopIteration_length (maxLen : nat) (dir : bool) :
  length (hopIteration maxLen dir) = maxLen.
Proof. unfold hopIteration. destruct dir; by rewrite ?length_reverse, length_seq. Qed.

Section TurnFacts.

Variables (dir : bool) (maxLen t hop : nat) (route : list Address).
Hypothesis turn : hop = if dir then t else (maxLen - 1 - t)%nat.
Hypothesis t_lt : (t < maxLen)%nat.
Hypothesis route_le : (length route <= maxLen)%nat.

Lemma doneAt_not_eligible :
  eligibleAt hop dir route = false ->
  doneAt dir maxLen (S t) (length route) = doneAt dir maxLen t (length route).
Proof.
  intros Hel. assert (~ (hop < length route)%nat) as Hge.
  { intros Hlt. by rewrite (proj2 (eligibleAt_lt hop dir route) Hlt) in Hel. }
  unfold doneAt. destruct dir; lia.
Qed.

Lemma doneAt_eligible :
  eligibleAt hop dir route = true ->
  doneAt dir maxLen (S t) (length route) = S (doneAt dir maxLen t (length route)) /\
  slotOf dir (length route) (doneAt dir maxLen t (length route)) = hop /\
  (startsAt hop dir route = true <-> doneAt dir maxLen t (length route) = 0%nat) /\
  forall q, (1 <= doneAt dir maxLen t (length route))%nat ->
    adjacentHop hop dir q =
    arrGet (irq_calculatedHops q)
      (slotOf dir (length route) (doneAt dir maxLen t (length route) - 1)).
Proof.
  intros Hlt%eligibleAt_lt. unfold doneAt, slotOf, startsAt, adjacentHop.
  destruct dir; (split; [lia|split; [lia|split]]).
  - destruct (Z.eqb_spec (Z.of_nat hop) 0); split; (lia || done).
  - intros q Hd. replace (Z.of_nat hop - 1) with (Z.of_nat (hop - 1)) by lia.
    rewrite arrGetZ_nat. f_equal. lia.
  - destruct (Z.eqb_spec (Z.of_nat hop) (Z.of_nat (length route) - 1)); split;
      (lia || done).
  - intros q Hd. replace (Z.of_nat hop + 1) with (Z.of_nat (hop + 1)) by lia.
    rewrite arrGetZ_nat. f_equal. lia.
Qed.

End TurnFacts.

Section HopLoop.

Variable swapQuoteWithParams : option SwapQuoteParam -> Exc SwapQuote.
Variable batchBuildSwapQuoteParams : list SwapQuoteRequest -> Exc (list SwapQuoteParam).
Variables inputTokenMint outputTokenMint : Address.
Variable pools : gmap Address TokenPairPool.
Variable pairRoutes : list (list Address).
Variables percents amounts : list Z.
Variable dir : bool.

Hypothesis percents_NoDup : NoDup (zip percents amounts).*1.

Local Abbreviation maxLen := (max_list (length <$> pairRoutes)).

Local Abbreviation hopsQuoted := (Vocabulary.hopsQuoted pairRoutes percents amounts dir).

Lemma route_length_le (r : nat) (route : list Address) :
  pairRoutes !! r = Some route -> (length route <= maxLen)%nat.
Proof.
  intros Hr. apply max_list_elem_of_le.
  apply list_elem_of_fmap_2. by eapply list_elem_of_lookup_2.
Qed.

Lemma hopsQuoted_turn (t hop : nat) (quoteMap quoteMap2 : QuoteMap) :
  hopIteration maxLen dir !! t = Some hop ->
  hopsQuoted t quoteMap ->
  quoteHop swapQuoteWithParams batchBuildSwapQuoteParams inputTokenMint outputTokenMint
    pools pairRoutes percents amounts dir quoteMap hop = Returns quoteMap2 ->
  hopsQuoted (S t) quoteMap2.
Proof.
  intros [Ht Hhop]%hopIteration_lookup (Hsized & Hdom & Hshape) Hturn.
  apply (quoteHop_Returns _ _ _ _ _ _ _ _ _ percents_NoDup) in Hturn
    as (Hsized' & Hdom' & Hentry).
  split_and!; [by apply Hsized'|..].
  - intros p Hp. destruct (Hdom' p Hp) as [Hp'|Hp']; [by apply Hdom|done].
  - intros p amt r route Hin Hroute.
    specialize (Hentry p amt r route Hin Hroute).
    specialize (Hshape p amt r route Hin Hroute).
    pose proof (route_length_le r route Hroute) as Hle.
    destruct (eligibleAt hop dir route) eqn:Helig.
    2:{ rewrite (doneAt_not_eligible dir maxLen t hop route Hhop Ht Hle Helig).
        by rewrite Hentry. }
    destruct (doneAt_eligible dir maxLen t hop route Hhop Ht Hle Helig)
      as (-> & Hslot & Hstart & Hadj).
    assert (1 <= length route)%nat as Hlen1.
    { apply eligibleAt_lt in Helig. lia. }
    destruct Hentry as (q & Hq & Htrade). cbn [entryShaped].
    destruct (doneAt dir maxLen t (length route)) as [|d] eqn:Hd.
    + (* the route starts at this hop *)
      rewrite (proj2 Hstart eq_refl) in Hq. subst q.
      unfold tradeOf in Htrade. rewrite (proj2 Hstart eq_refl) in Htrade.
      destruct Htrade as [result ->]. eexists. split; [done|]. cbn.
      split_and!; [done..|]. rewrite <- Hslot. by apply chainShape_start.
    + destruct (startsAt hop dir route) eqn:Hst;
        [destruct Hstart as [Hs _]; specialize (Hs eq_refl); lia|].
      cbn [entryShaped] in Hshape.
      destruct Hshape as (q0 & Hq0 & Hp0 & Hr0 & Hchain).
      assert (q0 = q) as -> by congruence.
      assert (S d < length route)%nat as Hdlt.
      { assert (doneAt dir maxLen (S t) (length route) <= length route)%nat
          by (unfold doneAt; destruct dir; lia).
        apply eligibleAt_lt in Helig.
        destruct (doneAt_eligible dir maxLen t hop route Hhop Ht Hle) as (Hn & _);
          [by apply eligibleAt_lt|]. lia. }
      unfold tradeOf in Htrade. rewrite Hst, (Hadj q) in Htrade by lia.
      destruct (arrGet _ _) as [[h|c]|] eqn:Hget.
      * destruct Htrade as [result ->]. eexists. split; [done|]. cbn.
        split_and!; [done..|]. rewrite <- Hslot.
        eapply chainShape_extend; [done|lia|done].
      * exists q. split_and!; [done..|].
        apply chainShape_skip; [done|lia|]. intros h. by rewrite Hget.
      * exists q. split_and!; [done..|].
        apply chainShape_skip; [done|lia|]. intros h. by rewrite Hget.
Qed.

Lemma quoteAllHops_hopsQuoted (quoteMap : QuoteMap) :
  quoteAllHops swapQuoteWithParams batchBuildSwapQuoteParams inputTokenMint outputTokenMint
    pools pairRoutes percents amounts dir (hopIteration maxLen dir) = Returns quoteMap ->
  hopsQuoted maxLen quoteMap.
Proof.
  unfold quoteAllHops. intros Hrun.
  rewrite <- (hopIteration_length maxLen dir) at 1.
  apply (forEach_invariant _ hopsQuoted _ _ _ Hrun).
  - split_and!.
    + intros p b. by rewrite lookup_empty.
    + intros p [b Hb]. by rewrite lookup_empty in Hb.
    + intros p amt r route Hin Hroute.
      pose proof (route_length_le r route Hroute) as Hle.
      replace (doneAt dir maxLen 0 (length route)) with 0%nat
        by (unfold doneAt; destruct dir; lia).
      cbn. unfold entryAt. by rewrite lookup_empty.
  - intros t hop qm qm2 Ht Hinv Hturn. by eapply hopsQuoted_turn.
Qed.

End HopLoop.

(** ** Counting the hops of a chain *)

Lemma omap_all_None {A B : Type} (f : A -> option B) (l : list A) :
  Forall (fun x => f x = None) l -> omap f l = [].
Proof. induction 1 as [|x l Hx _ IH]; cbn; [done|]. by rewrite Hx. Qed.

Lemma omap_all_Some {A B : Type} (f : A -> option B) (l : list A) :
  Forall (fun x => is_Some (f x)) l -> length (omap f l) = length l.
Proof.
  induction 1 as [|x l [y Hx] _ IH]; cbn; [done|]. rewrite Hx. cbn. by rewrite IH.
Qed.

Lemma arrGet_lookup {A : Type} (a : list (option A)) (i : nat) (x : option A) :
  a !! i = Some x -> arrGet a i = x.
Proof. unfold arrGet. by intros ->. Qed.

Lemma arrGet_reverse {A : Type} (a : list (option A)) (i : nat) :
  (i < length a)%nat -> arrGet (reverse a) i = arrGet a (length a - 1 - i).
Proof.
  intros Hi. unfold arrGet. rewrite reverse_lookup by done.
  do 2 f_equal. lia.
Qed.

(** The counts of a forward chain: its successes, and one failure if it
    stopped early. *)
Lemma chainShape_counts_forward (done len : nat) (hops : list (option HopResult)) :
  chainShape true done len hops ->
  exists s, (s <= done)%nat /\
    length (successHops hops) = s /\
    length (failureHops hops) = if decide (s < done)%nat then 1%nat else 0%nat.
Proof.
  intros (Hlen & Hdone & s & Hs & Hsucc & Hfail & Hnone). exists s. split; [done|].
  unfold slotOf in *.
  assert (Hhead : Forall (fun x => exists h, x = Some (HopSuccess h)) (take s hops)).
  { apply Forall_lookup. intros i x Hi.
    assert (i < s)%nat as His.
    { apply lookup_lt_Some in Hi. rewrite length_take in Hi. lia. }
    rewrite lookup_take_lt in Hi by done.
    destruct (Hsucc i His) as [h Hh]. exists h. by rewrite <- (arrGet_lookup _ _ _ Hi). }
  assert (Htail : forall k, (if decide (s < done)%nat then s < k else s <= k)%nat ->
            Forall (fun x => x = None) (drop k hops)).
  { intros k Hk. apply Forall_lookup. intros i x Hi. rewrite lookup_drop in Hi.
    assert (k + i < len)%nat as Hlt by (rewrite <- Hlen; by eapply lookup_lt_Some).
    rewrite <- (arrGet_lookup _ _ _ Hi). apply Hnone; [done|].
    case_decide; lia. }
  rewrite <- (take_drop s hops). unfold successHops, failureHops. rewrite !omap_app.
  rewrite !length_app.
  rewrite (omap_all_Some _ (take s hops)), length_take
    by (eapply Forall_impl; [exact Hhead|]; by intros x [h ->]).
  rewrite (omap_all_None _ (take s hops))
    by (eapply Forall_impl; [exact Hhead|]; by intros x [h ->]).
  case_decide as Hsd.
  - destruct (Hfail Hsd) as [c Hc].
    assert (hops !! s = Some (Some (HopFailure c))) as Hl.
    { unfold arrGet in Hc. destruct (hops !! s) as [x|] eqn:Hx; [|done]. cbn in Hc.
      by rewrite Hc. }
    rewrite (drop_S _ _ _ Hl). cbn.
    rewrite !omap_all_None
      by (eapply Forall_impl; [apply (Htail (S s)); lia|]; by intros x ->).
    cbn. lia.
  - rewrite !omap_all_None
      by (eapply Forall_impl; [apply (Htail s); lia|]; by intros x ->).
    cbn. lia.
Qed.

Lemma chainShape_reverse (done len : nat) (hops : list (option HopResult)) :
  chainShape false done len hops -> chainShape true done len (reverse hops).
Proof.
  intros (Hlen & Hdone & s & Hs & Hsucc & Hfail & Hnone).
  split_and!; [by rewrite length_reverse|done|]. exists s.
  unfold slotOf in *. split_and!; [done|..].
  - intros i Hi. rewrite arrGet_reverse, Hlen by lia. by apply Hsucc.
  - intros Hsd. rewrite arrGet_reverse, Hlen by lia. by apply Hfail.
  - intros i Hi Hsi. rewrite arrGet_reverse, Hlen by lia. by apply Hnone.
Qed.

Lemma chainShape_counts (dir : bool) (done len : nat) (hops : list (option HopResult)) :
  chainShape dir done len hops ->
  exists s, (s <= done)%nat /\
    length (successHops hops) = s /\
    length (failureHops hops) = if decide (s < done)%nat then 1%nat else 0%nat.
Proof.
  destruct dir; [apply chainShape_counts_forward|].
  intros Hc%chainShape_reverse%chainShape_counts_forward.
  destruct Hc as (s & Hs & Hsucc & Hfail). exists s. split; [done|].
  unfold successHops, failureHops in *.
  by rewrite !reverse_Permutation in Hsucc, Hfail.
Qed.

(** ** The Quote Aggregator returns *)

Lemma categorizeEntry_returns (tradeAmount : Z) (dir : bool) (percent : Z)
    (st : list RouteQuote * gset (option SwapErrorCode))
    (entry : option InternalRouteQuote) :
  entryGood entry ->
  exists st', categorizeEntry tradeAmount dir percent st entry = Returns st'.
Proof.
  intros (q & -> & Hq). destruct st as [cleaned failures]. unfold categorizeEntry.
  destruct Hq as [[Hlen Hpos]|[Hlen Hfail]].
  - rewrite bool_decide_eq_true_2 by done.
    destruct (successHops (irq_calculatedHops q)) as [|h hs] eqn:Hhs using rev_ind.
    { cbn in Hlen. lia. }
    rewrite last_snoc. destruct dir; cbn; [eauto|].
    destruct (hs ++ [h]) as [|h' hs'] eqn:Happ; [by destruct hs|]. cbn. eauto.
  - rewrite bool_decide_eq_false_2 by done.
    destruct (failureHops (irq_calculatedHops q)); [done|]. eauto.
Qed.

Lemma categorizeBucket_returns (tradeAmount : Z) (dir : bool)
    (st : CleanQuoteMap * gset (option SwapErrorCode)) (percent : Z)
    (bucket : list (option InternalRouteQuote)) :
  Forall entryGood bucket ->
  exists st', categorizeBucket tradeAmount dir st (percent, bucket) = Returns st'.
Proof.
  intros Hgood. destruct st as [cm fs]. unfold categorizeBucket.
  destruct (forEach_returns (categorizeEntry tradeAmount dir percent) (fun _ _ => True)
              bucket ([], fs) I) as ([cl fs'] & -> & _); [|cbn; eauto].
  intros k e t Hk _.
  destruct (categorizeEntry_returns tradeAmount dir percent t e) as [t' Ht'].
  - rewrite Forall_lookup in Hgood. by eapply Hgood.
  - eauto.
Qed.

Lemma categorizeQuotes_returns (tradeAmount : Z) (dir : bool) (quoteMap : QuoteMap) :
  (forall p bucket, quoteMap !! p = Some bucket -> Forall entryGood bucket) ->
  exists cleaned failures,
    categorizeQuotes tradeAmount dir quoteMap = Returns (cleaned, failures).
Proof.
  intros Hgood. unfold categorizeQuotes.
  destruct (forEach_returns (categorizeBucket tradeAmount dir) (fun _ _ => True)
              (map_to_list quoteMap) (∅, ∅) I) as ([cm fs] & -> & _); [|eauto].
  intros k [p bucket] t Hk _.
  destruct (categorizeBucket_returns tradeAmount dir t p bucket) as [t' Ht']; [|eauto].
  apply (Hgood p). apply elem_of_map_to_list. by eapply list_elem_of_lookup_2.
Qed.

(** ** What the Quote Aggregator produces *)

Lemma categorizeEntry_Returns (tradeAmount : Z) (dir : bool) (percent : Z)
    (cleaned cleaned' : list RouteQuote) (failures failures' : gset (option SwapErrorCode))
    (entry : option InternalRouteQuote) :
  categorizeEntry tradeAmount dir percent (cleaned, failures) entry
    = Returns (cleaned', failures') ->
  cleaned' = cleaned \/
  exists q rq, entry = Some q /\ cleaned' = cleaned ++ [rq] /\
    cleanedFrom tradeAmount dir percent q rq.
Proof.
  unfold categorizeEntry. destruct entry as [q|]; [|done].
  case_bool_decide as Hlen.
  - destruct (if dir then _ else _) as [otherAmount|] eqn:Hother; [|done].
    intros [= <- <-]. right. eexists q, _. split_and!; [done..|].
    unfold cleanedFrom. cbn. split_and!; [done..|]. destruct dir; by rewrite Hother.
  - destruct (failureHops _); [done|]. intros [= <- <-]. by left.
Qed.

Lemma categorizeQuotes_Returns (tradeAmount : Z) (dir : bool) (quoteMap : QuoteMap)
    (cleaned : CleanQuoteMap) (failures : gset (option SwapErrorCode)) :
  categorizeQuotes tradeAmount dir quoteMap = Returns (cleaned, failures) ->
  forall percent quotes rq,
    cleaned !! percent = Some quotes -> rq ∈ quotes ->
    exists bucket q,
      quoteMap !! percent = Some bucket /\ Some q ∈ bucket /\
      cleanedFrom tradeAmount dir percent q rq.
Proof.
  unfold categorizeQuotes. intros Hrun.
  apply (forEach_invariant _
           (fun _ st => forall percent quotes rq,
              st.1 !! percent = Some quotes -> rq ∈ quotes ->
              exists bucket q,
                quoteMap !! percent = Some bucket /\ Some q ∈ bucket /\
                cleanedFrom tradeAmount dir percent q rq) _ _ _ Hrun).
  - cbn. intros percent quotes rq Hl. by rewrite lookup_empty in Hl.
  - intros k [p bucket] [cm fs] [cm' fs'] Hk Hinv Hstep. cbn [fst] in *.
    assert (Hb : quoteMap !! p = Some bucket).
    { apply elem_of_map_to_list. by eapply list_elem_of_lookup_2. }
    unfold categorizeBucket in Hstep.
    destruct (forEach _ _ bucket) as [[cl fs1]|] eqn:Hin; [|done].
    cbn in Hstep. injection Hstep as <- <-.
    assert (Hcl : forall rq, rq ∈ cl ->
              exists q, Some q ∈ bucket /\ cleanedFrom tradeAmount dir p q rq).
    { apply (forEach_invariant _
               (fun _ st => forall rq, rq ∈ st.1 ->
                  exists q, Some q ∈ bucket /\ cleanedFrom tradeAmount dir p q rq)
               _ _ _ Hin).
      - cbn. intros rq Hrq. by apply elem_of_nil in Hrq.
      - intros j e [c f] [c' f'] Hj Hc Hstep. cbn [fst] in *.
        apply categorizeEntry_Returns in Hstep as [->|(q & rq' & -> & -> & Hfrom)];
          [done|].
        intros rq [Hrq|Hrq%list_elem_of_singleton]%elem_of_app; [by apply Hc|].
        subst rq. exists q. split; [|done]. by eapply list_elem_of_lookup_2. }
    intros percent quotes rq Hl Hrq.
    destruct (decide (percent = p)) as [->|Hne].
    + rewrite lookup_insert_eq in Hl. injection Hl as <-.
      destruct (Hcl rq Hrq) as (q & Hq & Hfrom). by exists bucket, q.
    + rewrite lookup_insert_ne in Hl by done. by eapply Hinv.
Qed.

(** ** After the hop loop *)

Section AfterLoop.

Variable swapQuoteWithParams : option SwapQuoteParam -> Exc SwapQuote.
Variable batchBuildSwapQuoteParams : list SwapQuoteRequest -> Exc (list SwapQuoteParam).
Variables inputTokenMint outputTokenMint : Address.
Variable pools : gmap Address TokenPairPool.
Variable pairRoutes : list (list Address).
Variables percents amounts : list Z.
Variable amountSpecifiedIsInput : bool.
Variable quoteMap : QuoteMap.

Hypothesis percents_NoDup : NoDup (zip percents amounts).*1.
Hypothesis quoted :
  quoteAllHops swapQuoteWithParams batchBuildSwapQuoteParams inputTokenMint outputTokenMint
    pools pairRoutes percents amounts amountSpecifiedIsInput
    (hopIteration (max_list (length <$> pairRoutes)) amountSpecifiedIsInput)
  = Returns quoteMap.

(** Every entry of the final quote map is the chain of its route with every
    hop visited. *)
Lemma final_entry (p : Z) (r : nat) (q : InternalRouteQuote) :
  entryAt quoteMap p r = Some q ->
  pairRoutes !! r = Some (irq_route q) /\
  chainShape amountSpecifiedIsInput (length (irq_route q)) (length (irq_route q))
    (irq_calculatedHops q).
Proof.
  intros Hq.
  destruct (quoteAllHops_hopsQuoted _ _ _ _ _ _ _ _ _ percents_NoDup _ quoted)
    as (Hsized & Hdom & Hshape).
  assert (is_Some (quoteMap !! p)) as Hp by (eapply entryAt_is_Some_bucket; eauto).
  pose proof (Hdom p Hp) as Hin.
  apply list_elem_of_fmap in Hin as ([p' amt] & -> & Hin). cbn in *.
  destruct Hp as [bucket Hb].
  assert (r < length pairRoutes)%nat as Hr.
  { rewrite <- (Hsized _ _ Hb). unfold entryAt in Hq. rewrite Hb in Hq. cbn in Hq.
    by eapply arrGet_Some_lt. }
  destruct (lookup_lt_is_Some_2 _ _ Hr) as [route Hroute].
  specialize (Hshape p' amt r route Hin Hroute).
  replace (doneAt _ _ _ (length route)) with (length route) in Hshape.
  2:{ pose proof (route_length_le pairRoutes r route Hroute).
      unfold doneAt. destruct amountSpecifiedIsInput; lia. }
  unfold entryShaped in Hshape. destruct (length route) eqn:Hlen; [congruence|].
  destruct Hshape as (q' & Hq' & _ & Hr' & Hchain).
  assert (q' = q) as -> by congruence. subst route. rewrite Hlen. by split.
Qed.

(** Every slot of every bucket holds an entry once every route has a hop. *)
Lemma final_buckets_full (p : Z) (bucket : list (option InternalRouteQuote)) (r : nat) :
  Forall (fun route => route ≠ []) pairRoutes ->
  quoteMap !! p = Some bucket -> (r < length bucket)%nat ->
  exists q, bucket !! r = Some (Some q).
Proof.
  intros Hne Hb Hr.
  destruct (quoteAllHops_hopsQuoted _ _ _ _ _ _ _ _ _ percents_NoDup _ quoted)
    as (Hsized & Hdom & Hshape).
  pose proof (Hdom p (ex_intro _ _ Hb)) as Hin.
  apply list_elem_of_fmap in Hin as ([p' amt] & -> & Hin). cbn in *.
  rewrite (Hsized _ _ Hb) in Hr.
  destruct (lookup_lt_is_Some_2 _ _ Hr) as [route Hroute].
  specialize (Hshape p' amt r route Hin Hroute).
  replace (doneAt _ _ _ (length route)) with (length route) in Hshape.
  2:{ pose proof (route_length_le pairRoutes r route Hroute).
      unfold doneAt. destruct amountSpecifiedIsInput; lia. }
  unfold entryShaped in Hshape.
  destruct (length route) eqn:Hlen.
  { rewrite Forall_lookup in Hne. specialize (Hne _ _ Hroute). by destruct route. }
  destruct Hshape as (q & Hq & _). exists q.
  unfold entryAt in Hq. rewrite Hb in Hq. cbn in Hq. unfold arrGet in Hq.
  destruct (bucket !! r) as [x|]; [|done]. cbn in Hq. by rewrite Hq.
Qed.

(** C10: after the hop loop (over a list of distinct percentages), every
    (percentage, route) entry of the quote map whose chain has fewer Success
    results than the route has hops holds exactly one Failure result; so, all
    routes being non-empty, [categorizeQuotes] reads an existing
    [quoteFailures[0]] for every incomplete chain and returns. *)
Theorem incomplete_chain_has_one_failure :
  (forall p r q, entryAt quoteMap p r = Some q ->
     (length (successHops (irq_calculatedHops q)) < length (irq_route q))%nat ->
     length (failureHops (irq_calculatedHops q)) = 1%nat /\
     is_Some (head (failureHops (irq_calculatedHops q)))) /\
  (Forall (fun route => route ≠ []) pairRoutes ->
   forall tradeAmount, exists cleaned failures,
     categorizeQuotes tradeAmount amountSpecifiedIsInput quoteMap
       = Returns (cleaned, failures)).
Proof.
  split.
  - intros p r q Hq Hlt. destruct (final_entry p r q Hq) as [_ Hchain].
    apply chainShape_counts in Hchain as (s & Hs & Hsucc & Hfail).
    rewrite decide_True in Hfail by lia. split; [done|].
    destruct (failureHops (irq_calculatedHops q)); [done|]. cbn. eauto.
  - intros Hne tradeAmount. apply categorizeQuotes_returns. intros p bucket Hb.
    apply Forall_lookup. intros r e Hr.
    destruct (final_buckets_full p bucket r Hne Hb (lookup_lt_Some _ _ _ Hr)) as [q Hq].
    assert (e = Some q) as -> by congruence. exists q. split; [done|].
    assert (entryAt quoteMap p r = Some q) as Hentry.
    { unfold entryAt. rewrite Hb. cbn. unfold arrGet. by rewrite Hq. }
    destruct (final_entry p r q Hentry) as [Hroute Hchain].
    assert (1 <= length (irq_route q))%nat as Hpos.
    { rewrite Forall_lookup in Hne. specialize (Hne _ _ Hroute).
      destruct (irq_route q); [done|]. cbn. lia. }
    apply chainShape_counts in Hchain as (s & Hs & Hsucc & Hfail).
    destruct (decide (s < length (irq_route q))%nat) as [Hlt|Hge].
    + right. split; [lia|]. intros Hnil. by rewrite Hnil in Hfail.
    + left. split; [lia|done].
Qed.

End AfterLoop.

(** ** Failure is sticky *)

Section Sticky.

Variable swapQuoteWithParams : option SwapQuoteParam -> Exc SwapQuote.
Variable batchBuildSwapQuoteParams : list SwapQuoteRequest -> Exc (list SwapQuoteParam).
Variables inputTokenMint outputTokenMint : Address.
Variable pools : gmap Address TokenPairPool.
Variable pairRoutes : list (list Address).
Variables percents amounts : list Z.
Variable amountSpecifiedIsInput : bool.

Hypothesis percents_NoDup : NoDup (zip percents amounts).*1.

(** C4: for a list of distinct percentages.  In one call of the builder, a
    request at a hop that is not the route's first in processing order takes
    its amount and token from the adjacent already-computed hop (its output
    when the input is fixed, its input when the output is fixed); and when
    that adjacent hop is recorded as a Failure, no request is built for that
    (percentage, route), the builder leaves the entry as it was, and so does
    [updateQuoteMap].  Over the whole hop loop, every slot that comes after a
    Failure in processing order is still unset at the end. *)
Theorem failure_is_sticky :
  (forall hop quoteMap quoteUpdates quoteMap1,
     buildQuoteUpdateRequests inputTokenMint outputTokenMint pools pairRoutes percents
       amounts hop amountSpecifiedIsInput quoteMap = Returns (quoteUpdates, quoteMap1) ->
     (forall u route,
        u ∈ quoteUpdates -> pairRoutes !! upd_routeIndex u = Some route ->
        startsAt hop amountSpecifiedIsInput route = false ->
        exists q h,
          entryAt quoteMap (upd_percent u) (upd_routeIndex u) = Some q /\
          adjacentHop hop amountSpecifiedIsInput q = Some (HopSuccess h) /\
          req_tokenAmount (upd_request u)
            = (if amountSpecifiedIsInput then hop_amountOut h else hop_amountIn h) /\
          req_tradeTokenMint (upd_request u)
            = (if amountSpecifiedIsInput then hop_outputMint h else hop_inputMint h)) /\
     (forall p amt r route q c,
        (p, amt) ∈ zip percents amounts -> pairRoutes !! r = Some route ->
        startsAt hop amountSpecifiedIsInput route = false ->
        entryAt quoteMap p r = Some q ->
        adjacentHop hop amountSpecifiedIsInput q = Some (HopFailure c) ->
        (forall u, u ∈ quoteUpdates -> (upd_percent u, upd_routeIndex u) ≠ (p, r)) /\
        entryAt quoteMap1 p r = Some q /\
        (forall quoteParams quoteMap2,
           updateQuoteMap swapQuoteWithParams quoteUpdates quoteParams quoteMap1
             = Returns quoteMap2 ->
           entryAt quoteMap2 p r = Some q))) /\
  (forall quoteMap,
     quoteAllHops swapQuoteWithParams batchBuildSwapQuoteParams inputTokenMint
       outputTokenMint pools pairRoutes percents amounts amountSpecifiedIsInput
       (hopIteration (max_list (length <$> pairRoutes)) amountSpecifiedIsInput)
     = Returns quoteMap ->
     forall p r q k c k',
       entryAt quoteMap p r = Some q ->
       arrGet (irq_calculatedHops q) k = Some (HopFailure c) ->
       (if amountSpecifiedIsInput then (k < k')%nat else (k' < k)%nat) ->
       arrGet (irq_calculatedHops q) k' = None).
Proof.
  split.
  - intros hop quoteMap quoteUpdates quoteMap1 Hbuild.
    assert (Hreq : forall u route, u ∈ quoteUpdates ->
              pairRoutes !! upd_routeIndex u = Some route ->
              startsAt hop amountSpecifiedIsInput route = false ->
              exists q h a t pool,
                entryAt quoteMap (upd_percent u) (upd_routeIndex u) = Some q /\
                adjacentHop hop amountSpecifiedIsInput q = Some (HopSuccess h) /\
                a = (if amountSpecifiedIsInput then hop_amountOut h else hop_amountIn h) /\
                t = (if amountSpecifiedIsInput then hop_outputMint h else hop_inputMint h) /\
                u = requestOf hop amountSpecifiedIsInput (upd_percent u) (upd_routeIndex u)
                      (upd_quoteIndex u) pool a t).
    { intros u route Hu Hroute Hst.
      destruct (built_entries _ _ _ _ _ _ _ _ _ _ _ percents_NoDup Hbuild u Hu)
        as (amt & route' & q & Hin & Hroute' & Helig & Hq1 & (a & t & pool & Htrade & Hu')).
      assert (route' = route) as -> by congruence.
      pose proof (built_entry _ _ _ _ _ _ _ _ _ _ _ percents_NoDup Hbuild
                    _ amt _ route Hin Hroute) as Hentry.
      rewrite Helig, Hst in Hentry. destruct Hentry as (q' & Hq' & Hq0 & _).
      assert (q' = q) as -> by congruence.
      unfold tradeOf in Htrade. rewrite Hst in Htrade.
      destruct (adjacentHop hop amountSpecifiedIsInput q) as [[h|e]|] eqn:Hadj; try done.
      injection Htrade as <- <-. eexists q, h, _, _, pool. by split_and!. }
    split.
    + intros u route Hu Hroute Hst.
      destruct (Hreq u route Hu Hroute Hst) as (q & h & a & t & pool & Hq & Hadj & -> & -> & Hu').
      exists q, h. split_and!; [done..| |]; by rewrite Hu'.
    + intros p amt r route q c Hin Hroute Hst Hq Hadj.
      assert (Hnone : forall u, u ∈ quoteUpdates ->
                (upd_percent u, upd_routeIndex u) ≠ (p, r)).
      { intros u Hu [= <- <-].
        destruct (Hreq u route Hu Hroute Hst) as (q' & h & _ & _ & _ & Hq' & Hadj' & _).
        congruence. }
      pose proof (built_entry _ _ _ _ _ _ _ _ _ _ _ percents_NoDup Hbuild
                    p amt r route Hin Hroute) as Hentry.
      assert (Hq1 : entryAt quoteMap1 p r = Some q).
      { destruct (eligibleAt hop amountSpecifiedIsInput route).
        - rewrite Hst in Hentry. destruct Hentry as (q' & Hq' & Hq0 & _). congruence.
        - destruct Hentry as [-> _]. done. }
      split_and!; [done..|].
      intros quoteParams quoteMap2 Hupd.
      by rewrite (updateQuoteMap_other _ _ _ _ _ _ _ Hupd).
  - intros quoteMap Hquoted p r q k c k' Hq Hk Hlater.
    destruct (final_entry _ _ _ _ _ _ _ _ _ _ percents_NoDup Hquoted p r q Hq)
      as [_ Hchain].
    by eapply chainShape_sticky.
Qed.

End Sticky.

(** ** The Route Optimizer *)

Lemma getRouteCompareFn_key (dir : bool) (a b : TradeRoute) :
  (getRouteCompareFn dir a b <=? 0) =
  ((if dir then - tr_totalOut a else tr_totalIn a)
   <=? (if dir then - tr_totalOut b else tr_totalIn b)).
Proof.
  unfold getRouteCompareFn. destruct dir; rewrite bnCmp_le; [|done].
  destruct (Z.leb_spec (tr_totalOut b) (tr_totalOut a));
    destruct (Z.leb_spec (- tr_totalOut a) (- tr_totalOut b)); auto; lia.
Qed.

Lemma jsSort_nil_inv {A : Type} (cmp : A -> A -> Z) (l : list A) :
  jsSort cmp l = [] -> l = [].
Proof.
  intros Hs. apply Permutation_nil_r. rewrite <- Hs. symmetry.
  apply jsSort_perm.
Qed.

Section Optimizer.

Variable swapQuoteWithParams : option SwapQuoteParam -> Exc SwapQuote.
Variable batchBuildSwapQuoteParams : list SwapQuoteRequest -> Exc (list SwapQuoteParam).
Variable prefetchRoutes : list (list Address) -> Exc unit.
Variable getRouteId : Address -> Address -> string.
Variable getRankedRoutes : CleanQuoteMap -> bool -> Z -> Z -> list TradeRoute.

Local Abbreviation findBestRoutes' :=
  (findBestRoutes swapQuoteWithParams batchBuildSwapQuoteParams prefetchRoutes getRouteId
     getRankedRoutes).

Local Abbreviation rankedCombinations := (Vocabulary.rankedCombinations getRankedRoutes).
Local Abbreviation reachesRanking :=
  (Vocabulary.reachesRanking swapQuoteWithParams batchBuildSwapQuoteParams prefetchRoutes
     getRouteId).

Lemma findBestRoutes_ranking (fuel : nat) (inputTokenMint outputTokenMint : Address)
    (tradeAmount : Z) (dir : bool) (walks : gmap string (list (list Address)))
    (pools : gmap Address TokenPairPool) (user : PartialRoutingOptions)
    (cleaned : CleanQuoteMap) (failures : gset (option SwapErrorCode)) :
  reachesRanking fuel inputTokenMint outputTokenMint tradeAmount dir walks pools
    (mergeRoutingOptions user) cleaned failures ->
  findBestRoutes' fuel inputTokenMint outputTokenMint tradeAmount dir walks pools user =
  let bestRoutes :=
    jsSort (getRouteCompareFn dir)
      (rankedCombinations (mergeRoutingOptions user) dir cleaned
       ++ degenerateCandidates (mergeRoutingOptions user) dir cleaned) in
  if bool_decide (bestRoutes = []) && bool_decide (Some TickArraySequenceInvalid ∈ failures)
  then Some (Resolved (BestRoutesFailure TRADE_AMOUNT_TOO_HIGH None))
  else Some (Resolved (BestRoutes bestRoutes)).
Proof.
  intros (pairRoutes & percents & amounts & quoteMap
          & Hwalk & Hzero & Hpre & Hslice & Hne & Hloop & Hcat).
  unfold findBestRoutes. rewrite Hwalk.
  destruct (Z.eqb_spec tradeAmount 0); [done|].
  rewrite Hpre, Hslice. destruct pairRoutes as [|route pairRoutes]; [done|].
  rewrite Hloop. unfold rankQuotes. rewrite Hcat.
  unfold rankedCombinations, degenerateCandidates, pruneQuoteMap. cbn.
  by destruct (bool_decide _ && bool_decide _).
Qed.

(** C7: when the call reaches the ranking stage and the final ranked list is
    empty, [findBestRoutes] resolves to Failure{TradeAmountTooHigh} exactly
    when the call-wide set of failure kinds holds TickArraySequenceInvalid, and
    to Success with no combination in every other case. *)
Theorem empty_result_is_diagnosed (fuel : nat) (inputTokenMint outputTokenMint : Address)
    (tradeAmount : Z) (dir : bool) (walks : gmap string (list (list Address)))
    (pools : gmap Address TokenPairPool) (user : PartialRoutingOptions)
    (cleaned : CleanQuoteMap) (failures : gset (option SwapErrorCode)) :
  reachesRanking fuel inputTokenMint outputTokenMint tradeAmount dir walks pools
    (mergeRoutingOptions user) cleaned failures ->
  jsSort (getRouteCompareFn dir)
    (rankedCombinations (mergeRoutingOptions user) dir cleaned
     ++ degenerateCandidates (mergeRoutingOptions user) dir cleaned) = [] ->
  (findBestRoutes' fuel inputTokenMint outputTokenMint tradeAmount dir walks pools user
     = Some (Resolved (BestRoutesFailure TRADE_AMOUNT_TOO_HIGH None))
   <-> Some TickArraySequenceInvalid ∈ failures) /\
  (Some TickArraySequenceInvalid ∉ failures ->
   findBestRoutes' fuel inputTokenMint outputTokenMint tradeAmount dir walks pools user
     = Some (Resolved (BestRoutes []))).
Proof.
  intros Hreach Hempty. rewrite (findBestRoutes_ranking _ _ _ _ _ _ _ _ _ _ Hreach).
  cbv zeta. rewrite Hempty. rewrite bool_decide_eq_true_2 by done. cbn [andb].
  destruct (decide (Some TickArraySequenceInvalid ∈ failures)) as [Hin|Hnot].
  - rewrite bool_decide_eq_true_2 by done. split; [done|]. intros Hn. by destruct Hn.
  - rewrite bool_decide_eq_false_2 by done. split; [|done]. split; [done|].
    intros Hin. by destruct Hnot.
Qed.

(** C2 as the code has it: validation runs in this order and its failures are
    handed to [Promise.reject]: a pair absent from the pool graph settles the
    promise as rejected with {success: false, error: RouteDoesNotExist},
    whatever the amount; a pair that is present with a zero amount settles it
    as rejected with {success: false, error: ZeroInputAmount}. *)
Theorem findBestRoutes_validation_rejects (fuel : nat)
    (inputTokenMint outputTokenMint : Address) (tradeAmount : Z) (dir : bool)
    (walks : gmap string (list (list Address))) (pools : gmap Address TokenPairPool)
    (user : PartialRoutingOptions) :
  walks !! getRouteId inputTokenMint outputTokenMint = None \/ tradeAmount = 0 ->
  findBestRoutes' fuel inputTokenMint outputTokenMint tradeAmount dir walks pools user =
  Some (Rejected (RejectedWith
    (BestRoutesFailure
       (match walks !! getRouteId inputTokenMint outputTokenMint with
        | None => ROUTE_DOES_NOT_EXIST
        | Some _ => ZERO_INPUT_AMOUNT
        end) None))).
Proof.
  intros Hcase. unfold findBestRoutes.
  destruct (walks !! getRouteId inputTokenMint outputTokenMint) as [pairRoutes|]; [|done].
  destruct Hcase as [Habsent | Hzero]; [done|]. by rewrite Hzero.
Qed.

(** C8 as the code has it: on success the returned list is the ranked
    combinations (computed from the pruned map, and the only part that is given
    [numTopRoutes]) together with the degenerate candidates, stably sorted by
    the direction's comparator and not cut afterwards: its length is the sum of
    the two.  The degenerate candidates are exactly the one-hop quotes of the
    unpruned 100% bucket, so every one-hop quote of that bucket is in the
    returned list as a candidate of its own. *)
Theorem bestRoutes_is_sorted_union (fuel : nat) (inputTokenMint outputTokenMint : Address)
    (tradeAmount : Z) (dir : bool) (walks : gmap string (list (list Address)))
    (pools : gmap Address TokenPairPool) (user : PartialRoutingOptions)
    (cleaned : CleanQuoteMap) (failures : gset (option SwapErrorCode))
    (bestRoutes : list TradeRoute) :
  reachesRanking fuel inputTokenMint outputTokenMint tradeAmount dir walks pools
    (mergeRoutingOptions user) cleaned failures ->
  findBestRoutes' fuel inputTokenMint outputTokenMint tradeAmount dir walks pools user
    = Some (Resolved (BestRoutes bestRoutes)) ->
  bestRoutes ≡ₚ rankedCombinations (mergeRoutingOptions user) dir cleaned
                ++ degenerateCandidates (mergeRoutingOptions user) dir cleaned /\
  length bestRoutes =
    (length (rankedCombinations (mergeRoutingOptions user) dir cleaned)
     + length (degenerateCandidates (mergeRoutingOptions user) dir cleaned))%nat /\
  (forall i j a b, (i < j)%nat -> bestRoutes !! i = Some a -> bestRoutes !! j = Some b ->
     if dir then tr_totalOut b <= tr_totalOut a else tr_totalIn a <= tr_totalIn b) /\
  (forall quotes q oneHop,
     cleaned !! 100 = Some quotes -> q ∈ quotes -> rq_calculatedHops q = [oneHop] ->
     {| tr_quotes := [q]; tr_percent := 100;
        tr_totalIn := hop_amountIn oneHop; tr_totalOut := hop_amountOut oneHop |}
       ∈ bestRoutes) /\
  (forall candidate,
     candidate ∈ degenerateCandidates (mergeRoutingOptions user) dir cleaned ->
     exists quotes q oneHop,
       cleaned !! 100 = Some quotes /\ q ∈ quotes /\ rq_calculatedHops q = [oneHop] /\
       candidate = {| tr_quotes := [q]; tr_percent := 100;
                      tr_totalIn := hop_amountIn oneHop;
                      tr_totalOut := hop_amountOut oneHop |}).
Proof.
  intros Hreach. rewrite (findBestRoutes_ranking _ _ _ _ _ _ _ _ _ _ Hreach). cbv zeta.
  set (union := rankedCombinations _ _ _ ++ degenerateCandidates _ _ _).
  intros Hres.
  assert (bestRoutes = jsSort (getRouteCompareFn dir) union) as ->.
  { destruct (bool_decide _ && bool_decide _); [done|]. by injection Hres as <-. }
  pose proof (getRouteCompareFn_key dir) as Hkey.
  split_and!.
  - apply jsSort_perm.
  - rewrite jsSort_length. subst union. by rewrite length_app.
  - intros i j a b Hij Hi Hj.
    pose proof (jsSort_ordered _ _ Hkey union i j a b Hij Hi Hj) as Hle.
    destruct dir; lia.
  - intros quotes q oneHop Hquotes Hq Hhops.
    rewrite jsSort_perm. subst union. apply elem_of_app. right.
    unfold degenerateCandidates, getSingleHopSplit.
    rewrite pruneQuoteMap_sorted_lookup, Hquotes. cbn.
    apply list_elem_of_omap. exists q. split.
    + by rewrite jsSort_perm.
    + unfold singleHopSplit. by rewrite Hhops.
  - intros candidate. unfold degenerateCandidates, getSingleHopSplit.
    rewrite pruneQuoteMap_sorted_lookup.
    destruct (cleaned !! 100) as [quotes|] eqn:Hquotes; cbn; [|by intros ?%elem_of_nil].
    intros (q & Hq & Hsplit)%list_elem_of_omap.
    rewrite jsSort_perm in Hq. unfold singleHopSplit in Hsplit.
    destruct (rq_calculatedHops q) as [|oneHop [|? ?]] eqn:Hhops; try done.
    injection Hsplit as <-. by exists quotes, q, oneHop.
Qed.

End Optimizer.

(** ** The Percentage Slicer on any increment *)

Lemma sliceLoopTest_neg (i m : Z) : m < 0 -> 0 < i -> sliceLoopTest i m = false.
Proof.
  intros Hm Hi. unfold sliceLoopTest.
  destruct (Z.eqb_spec m 0); [lia|].
  destruct (Z.ltb_spec 0 m); [lia|].
  apply Z.leb_gt. nia.
Qed.

Lemma div_100_neg (m : Z) : m < 0 -> 100 / m < 0.
Proof.
  intros Hm. pose proof (Z.div_mod 100 m ltac:(lia)).
  pose proof (Z.mod_neg_bound 100 m Hm). nia.
Qed.

Lemma generatePercentageAmounts_run_nonzero (T inc : Z) (fuel : nat) :
  inc ≠ 0 -> (Z.to_nat (100 / inc) < fuel)%nat ->
  generatePercentageAmounts fuel T inc =
    Some (slicePercents inc, (fun p => Z.quot (T * p) 100) <$> slicePercents inc).
Proof.
  intros Hinc Hfuel.
  destruct (Z.lt_total inc 0) as [Hneg|[?|Hpos]]; [|done|by apply generatePercentageAmounts_run].
  pose proof (div_100_neg inc Hneg) as Hq.
  unfold slicePercents. rewrite seqZ_nil by lia. cbn.
  destruct fuel as [|fuel]; [lia|].
  unfold generatePercentageAmounts. cbn [sliceLoop].
  by rewrite sliceLoopTest_neg by lia.
Qed.

(** X1: the slicer for any non-zero increment, given fuel for its turns: it makes
    floor(100 / inc) slices (none for an increment above 100 or below 0), as
    many amounts as percentages, every percentage a positive multiple of the
    increment up to 100; the largest is 100 less the remainder of 100 by the
    increment, so the whole amount is a slice exactly when the increment
    divides 100. *)
Theorem generatePercentageAmounts_reaches_100_iff_divides (T inc : Z) (fuel : nat) :
  inc ≠ 0 -> (Z.to_nat (100 / inc) < fuel)%nat ->
  exists percents amounts : list Z,
    generatePercentageAmounts fuel T inc = Some (percents, amounts) /\
    length percents = Z.to_nat (100 / inc) /\
    length amounts = length percents /\
    (forall p, p ∈ percents -> 0 < p <= 100 /\ (inc | p)) /\
    last percents
      = (if bool_decide (0 < inc <= 100) then Some (100 - 100 mod inc) else None) /\
    (100 ∈ percents <-> 0 < inc /\ (inc | 100)).
Proof.
  intros Hinc Hfuel.
  rewrite generatePercentageAmounts_run_nonzero by done.
  eexists _, _. split; [done|].
  assert (Hmem : forall p, p ∈ slicePercents inc -> 0 < inc /\ 0 < p <= 100 /\ (inc | p)).
  { intros p [i Hi]%list_elem_of_lookup.
    apply slicePercents_lookup in Hi as [-> Hlt].
    assert (0 < inc) as Hpos.
    { destruct (Z.lt_total inc 0) as [Hneg|[?|?]]; [|done..].
      pose proof (div_100_neg inc Hneg). lia. }
    split; [done|]. split; [|by apply Z.divide_factor_r].
    pose proof (Z.mul_div_le 100 inc Hpos). nia. }
  split_and!.
  - unfold slicePercents. by rewrite length_fmap, length_seqZ.
  - by rewrite length_fmap.
  - intros p Hp. by apply Hmem.
  - unfold slicePercents. rewrite last_lookup, length_fmap, length_seqZ, list_lookup_fmap.
    case_bool_decide as Hrange.
    + assert (1 <= 100 / inc) by (apply Z.div_le_lower_bound; lia).
      assert (Hpred : Z.of_nat (Init.Nat.pred (Z.to_nat (100 / inc))) = 100 / inc - 1)
        by (destruct (Z.to_nat (100 / inc)) eqn:E; cbn; lia).
      rewrite lookup_seqZ_lt by lia. cbn. f_equal. rewrite Hpred.
      rewrite Z.mod_eq by lia. lia.
    + assert (100 / inc <= 0).
      { destruct (Z.lt_total inc 0) as [Hneg|[?|?]]; [|done|].
        - pose proof (div_100_neg inc Hneg). lia.
        - rewrite Z.div_small by lia. lia. }
      by rewrite seqZ_nil by lia.
  - split.
    + intros H100. destruct (Hmem _ H100) as (Hpos & _ & Hdiv). done.
    + intros [Hpos [n Hn]]. unfold slicePercents. apply list_elem_of_fmap.
      exists n. split; [lia|]. apply elem_of_seqZ.
      assert (100 / inc = n) as -> by (rewrite Hn; apply Z.div_mul; lia). nia.
Qed.

(** With increment 0 the loop test [i <= 100 / 0] holds for every [i]: the
    slicer does not return, whatever the fuel. *)
Lemma generatePercentageAmounts_zero (T : Z) (fuel : nat) :
  generatePercentageAmounts fuel T 0 = None.
Proof.
  destruct (generatePercentageAmounts fuel T 0) as [r|] eqn:Hrun; [|done].
  by apply sliceLoop_Some in Hrun as [? _].
Qed.

(** ** The Hop Quote Executor on any list of updates *)

Section ExecutorAnyUpdates.

Variable swapQuoteWithParams : option SwapQuoteParam -> Exc SwapQuote.
Variable quoteParams : list SwapQuoteParam.

Lemma applyQuoteUpdate_Throws (qm : QuoteMap) (u : QuoteUpdate) (e : Thrown) :
  applyQuoteUpdate swapQuoteWithParams quoteParams qm u = Throws e ->
  e = TypeError /\
  (entryAt qm (upd_percent u) (upd_routeIndex u) = None \/
   swapQuoteWithParams (quoteParams !! upd_quoteIndex u) = Throws Nullish).
Proof.
  unfold applyQuoteUpdate, getEntry, setEntry, entryAt.
  destruct (qm !! upd_percent u) as [b|]; cbn; [|intros [= <-]; by split; [|left]].
  destruct (arrGet b (upd_routeIndex u)); [|intros [= <-]; by split; [|left]].
  destruct (hopResultFor _ _ _ _) as [result|e0] eqn:Hres; cbn; [done|].
  intros [= <-]. apply hopResultFor_Throws in Hres as [-> Hnull]. by split; [|right].
Qed.

(** Applying an update keeps which entries exist. *)
Lemma applyQuoteUpdate_is_Some_iff (qm qm' : QuoteMap) (u : QuoteUpdate) (p : Z) (r : nat) :
  applyQuoteUpdate swapQuoteWithParams quoteParams qm u = Returns qm' ->
  is_Some (entryAt qm' p r) <-> is_Some (entryAt qm p r).
Proof.
  intros (q & result & _ & Hq & Hw & Hframe & _)%applyQuoteUpdate_Returns.
  destruct (decide ((p, r) = updateKey u)) as [[= -> ->]|Hne].
  - rewrite Hq, Hw. split; eauto.
  - by rewrite Hframe.
Qed.

Lemma updateQuoteMap_Returns_inv (us : list QuoteUpdate) :
  forall qm qm' : QuoteMap,
  updateQuoteMap swapQuoteWithParams us quoteParams qm = Returns qm' ->
  forall u, u ∈ us ->
    is_Some (entryAt qm (upd_percent u) (upd_routeIndex u)) /\
    swapQuoteWithParams (quoteParams !! upd_quoteIndex u) ≠ Throws Nullish.
Proof.
  unfold updateQuoteMap.
  induction us as [|u0 us IH]; intros qm qm' Hrun u Hu; [by apply elem_of_nil in Hu|].
  cbn in Hrun.
  destruct (applyQuoteUpdate _ _ qm u0) as [qm1|] eqn:Hstep; [|done]. cbn in Hrun.
  apply elem_of_cons in Hu as [->|Hu].
  - apply applyQuoteUpdate_Returns in Hstep as (q & result & Hres & -> & _).
    split; [eauto|]. eapply hopResultFor_is_Returns; eauto.
  - rewrite <- (applyQuoteUpdate_is_Some_iff _ _ _ _ _ Hstep). by apply (IH qm1 qm').
Qed.

Lemma updateQuoteMap_Throws (us : list QuoteUpdate) :
  forall (qm : QuoteMap) (e : Thrown),
  updateQuoteMap swapQuoteWithParams us quoteParams qm = Throws e -> e = TypeError.
Proof.
  unfold updateQuoteMap.
  induction us as [|u0 us IH]; intros qm e Hrun; [done|]. cbn in Hrun.
  destruct (applyQuoteUpdate _ _ qm u0) as [qm1|e0] eqn:Hstep; cbn in Hrun.
  - by eapply IH.
  - injection Hrun as <-. by apply applyQuoteUpdate_Throws in Hstep as [-> _].
Qed.

(** X3: [updateQuoteMap] returns exactly when every update addresses an entry
    that exists in the quote map it is given and the quote engine throws
    neither [null] nor [undefined] on the parameter the update names.  Reading
    through a missing bucket or writing into a hole is a TypeError, outside
    the [try] or thrown again by the [catch] block; reading [e.errorCode] of a
    thrown [null] or [undefined] is one as well; and no other value is ever
    thrown, whatever else the engine throws. *)
Theorem updateQuoteMap_returns_iff_entries_exist_and_errors_readable
    (us : list QuoteUpdate) (qm : QuoteMap) :
  ((exists qm', updateQuoteMap swapQuoteWithParams us quoteParams qm = Returns qm') <->
   (forall u, u ∈ us ->
      is_Some (entryAt qm (upd_percent u) (upd_routeIndex u)) /\
      swapQuoteWithParams (quoteParams !! upd_quoteIndex u) ≠ Throws Nullish)) /\
  (forall e, updateQuoteMap swapQuoteWithParams us quoteParams qm = Throws e ->
     e = TypeError).
Proof.
  split; [split|].
  - intros [qm' Hrun]. by eapply updateQuoteMap_Returns_inv.
  - intros Hall. apply updateQuoteMap_returns; intros u Hu; by apply Hall.
  - apply updateQuoteMap_Throws.
Qed.

Lemma writeHop_frame (u : QuoteUpdate) (result : HopResult) (q : InternalRouteQuote) :
  irq_percent (writeHop u result q) = irq_percent q /\
  irq_route (writeHop u result q) = irq_route q /\
  forall k, k ≠ upd_hopIndex u ->
    arrGet (irq_calculatedHops (writeHop u result q)) k
    = arrGet (irq_calculatedHops q) k.
Proof.
  split_and!; [done..|]. intros k Hk. cbn. by apply arrGet_arrSet_ne.
Qed.

(** X4: what [updateQuoteMap] leaves alone, for any list of updates: the keys of
    the quote map, which entries exist, every entry no update addresses, and,
    in an entry that is addressed, its percentage, its route and every slot of
    its chain other than the hop indices of the updates addressing it. *)
Theorem updateQuoteMap_touches_only_addressed_slots (us : list QuoteUpdate)
    (qm qm' : QuoteMap) :
  updateQuoteMap swapQuoteWithParams us quoteParams qm = Returns qm' ->
  (forall p, is_Some (qm' !! p) <-> is_Some (qm !! p)) /\
  (forall p r, is_Some (entryAt qm' p r) <-> is_Some (entryAt qm p r)) /\
  (forall p r, (forall u, u ∈ us -> updateKey u ≠ (p, r)) ->
     entryAt qm' p r = entryAt qm p r) /\
  (forall p r q', entryAt qm' p r = Some q' ->
     exists q, entryAt qm p r = Some q /\
       irq_percent q' = irq_percent q /\ irq_route q' = irq_route q /\
       forall k, (forall u, u ∈ us -> updateKey u = (p, r) -> upd_hopIndex u ≠ k) ->
         arrGet (irq_calculatedHops q') k = arrGet (irq_calculatedHops q) k).
Proof.
  intros Hrun. split_and!.
  - intros p. by eapply updateQuoteMap_dom.
  - revert qm Hrun. unfold updateQuoteMap.
    induction us as [|u0 us IH]; intros qm Hrun p r; cbn in Hrun.
    + by injection Hrun as <-.
    + destruct (applyQuoteUpdate _ _ qm u0) as [qm1|] eqn:Hstep; [|done]. cbn in Hrun.
      rewrite (IH qm1 Hrun). by eapply applyQuoteUpdate_is_Some_iff.
  - intros p r Hkeys. by eapply updateQuoteMap_other.
  - revert qm Hrun. unfold updateQuoteMap.
    induction us as [|u0 us IH]; intros qm Hrun p r q' Hq'; cbn in Hrun.
    + injection Hrun as <-. exists q'. by split_and!.
    + destruct (applyQuoteUpdate _ _ qm u0) as [qm1|] eqn:Hstep; [|done]. cbn in Hrun.
      destruct (IH qm1 Hrun p r q' Hq') as (q1 & Hq1 & Hp1 & Hr1 & Hk1).
      apply applyQuoteUpdate_Returns in Hstep as (q0 & result & _ & Hq0 & Hw & Hframe & _).
      destruct (decide ((p, r) = updateKey u0)) as [[= -> ->]|Hne].
      * rewrite Hw in Hq1. injection Hq1 as <-.
        destruct (writeHop_frame u0 result q0) as (Hp0 & Hr0 & Hk0).
        exists q0. split_and!; [done|congruence..|].
        intros k Hk. rewrite Hk1, Hk0; [done|..].
        -- intros ->. eapply Hk; [by left|done..].
        -- intros u Hu. apply Hk. by right.
      * rewrite Hframe in Hq1 by done. exists q1. split_and!; [done..|].
        intros k Hk. apply Hk1. intros u Hu. apply Hk. by right.
Qed.

(** X5: an update whose [quoteIndex] lies past the end of the parameter array
    never records a Success: the quote engine is called with [undefined], and
    whether it throws or returns, the slot gets a Failure; it carries the
    engine's error kind if the engine threw one, and none if the engine
    returned (the destructuring of [undefined] is the TypeError caught). *)
Theorem updateQuoteMap_missing_param_is_failure (us : list QuoteUpdate) (qm qm' : QuoteMap)
    (i : nat) (u : QuoteUpdate) :
  updateQuoteMap swapQuoteWithParams us quoteParams qm = Returns qm' ->
  NoDup (updateKey <$> us) ->
  us !! i = Some u ->
  (length quoteParams <= upd_quoteIndex u)%nat ->
  exists code,
    hopAt qm' (upd_percent u) (upd_routeIndex u) (upd_hopIndex u) = Some (HopFailure code) /\
    (forall e, swapQuoteWithParams None = Throws e -> errorCodeOf e = Returns code) /\
    (forall quote, swapQuoteWithParams None = Returns quote -> code = None).
Proof.
  intros Hrun Hnodup Hi Hlen.
  destruct (updateQuoteMap_at _ _ _ _ _ i u Hrun Hnodup Hi) as (q & result & Hres & _ & Hw).
  unfold hopAt. rewrite Hw. cbn. rewrite arrGet_arrSet_eq.
  rewrite (lookup_ge_None_2 quoteParams) in Hres by done.
  unfold hopResultFor in Hres. destruct (swapQuoteWithParams None) as [quote|e].
  - injection Hres as <-. exists None. by split_and!.
  - destruct (errorCodeOf e) as [code|] eqn:Hcode; [|done]. cbn in Hres.
    injection Hres as <-. exists code. split_and!; [done| |done]. by intros ? [= <-].
Qed.

End ExecutorAnyUpdates.

Import Vocabulary Chains.

(** ** The Quote Aggregator, entry by entry *)

Section Aggregator.

Variable tradeAmount : Z.
Variable dir : bool.

Lemma categorizeEntry_spec (p : Z) (cl cl' : list RouteQuote)
    (fs fs' : gset (option SwapErrorCode)) (entry : option InternalRouteQuote) :
  categorizeEntry tradeAmount dir p (cl, fs) entry = Returns (cl', fs') ->
  exists q, entry = Some q /\ entryGood (Some q) /\
    if decide (chainComplete q)
    then (exists rq, cl' = cl ++ [rq] /\ cleanedFrom tradeAmount dir p q rq) /\ fs' = fs
    else cl' = cl /\ exists code, firstFailure q = Some code /\ fs' = fs ∪ {[ code ]}.
Proof.
  unfold categorizeEntry. destruct entry as [q|]; [|done]. intros Hrun.
  exists q. split; [done|]. unfold chainComplete, firstFailure.
  case_bool_decide as Hlen.
  - rewrite decide_True by done.
    destruct (if dir then _ else _) as [otherAmount|] eqn:Hother; [|done].
    injection Hrun as <- <-. split.
    + exists q. split; [done|]. left. split; [done|]. rewrite <- Hlen.
      destruct (successHops (irq_calculatedHops q)); [by destruct dir|cbn; lia].
    + split; [|done]. eexists. split; [done|]. unfold cleanedFrom. cbn.
      split_and!; [done..|]. destruct dir; by rewrite Hother.
  - rewrite decide_False by done.
    destruct (failureHops (irq_calculatedHops q)) as [|code codes] eqn:Hf; [done|].
    injection Hrun as <- <-. split.
    + exists q. split; [done|]. right. split; [done|]. by rewrite Hf.
    + split; [done|]. by exists code.
Qed.

Lemma categorizeEntry_Throws (p : Z) (st : list RouteQuote * gset (option SwapErrorCode))
    (entry : option InternalRouteQuote) (e : Thrown) :
  categorizeEntry tradeAmount dir p st entry = Throws e -> e = TypeError.
Proof.
  unfold categorizeEntry. destruct st as [cl fs]. destruct entry as [q|]; [|by intros [= <-]].
  case_bool_decide.
  - destruct (if dir then _ else _); [done|by intros [= <-]].
  - destruct (failureHops _); [by intros [= <-]|done].
Qed.

Lemma forEach_Throws {A St : Type} (body : St -> A -> Exc St) (P : Thrown -> Prop)
    (l : list A) : forall (s : St) (e : Thrown),
  forEach body s l = Throws e ->
  (forall t x e', body t x = Throws e' -> P e') -> P e.
Proof.
  induction l as [|x l IH]; intros s e Hrun Hbody; [done|]. cbn in Hrun.
  destruct (body s x) as [t|e0] eqn:Hstep; cbn in Hrun.
  - by eapply IH.
  - injection Hrun as <-. by eapply Hbody.
Qed.

(** One bucket: the entries are all present and digestible, the cleaned bucket
    holds the complete chains in the entries' order, and the failure kinds
    gain the first failure of every incomplete chain. *)
Lemma categorizeBucket_spec (cm cm' : CleanQuoteMap) (fs fs' : gset (option SwapErrorCode))
    (p : Z) (bucket : list (option InternalRouteQuote)) :
  categorizeBucket tradeAmount dir (cm, fs) (p, bucket) = Returns (cm', fs') ->
  exists entries quotes,
    bucket = Some <$> entries /\
    Forall entryGood bucket /\
    cm' = <[p := quotes]> cm /\
    Forall2 (cleanedFrom tradeAmount dir p) (filter chainComplete entries) quotes /\
    forall code, code ∈ fs' <->
      code ∈ fs \/ exists q, q ∈ entries /\ ~ chainComplete q /\ firstFailure q = Some code.
Proof.
  unfold categorizeBucket.
  destruct (forEach _ _ bucket) as [[cl fs1]|] eqn:Hin; [|done].
  cbn. intros [= <- <-].
  pose (P := fun (j : nat) (st : list RouteQuote * gset (option SwapErrorCode)) =>
    exists entries,
      take j bucket = Some <$> entries /\
      Forall entryGood (take j bucket) /\
      Forall2 (cleanedFrom tradeAmount dir p) (filter chainComplete entries) st.1 /\
      forall code, code ∈ st.2 <->
        code ∈ fs \/ exists q, q ∈ entries /\ ~ chainComplete q /\ firstFailure q = Some code).
  assert (HP : P (length bucket) (cl, fs1)).
  { apply (forEach_invariant _ P _ _ _ Hin).
    - exists []. cbn. split_and!; [done|by constructor|by constructor|].
      intros code. split; [by left|]. intros [?|(q & Hq & _)]; [done|].
      by apply elem_of_nil in Hq.
    - intros j entry [c f] [c' f'] Hj (entries & Htake & Hgood & Hcl & Hfs) Hstep.
      cbn [fst snd] in *.
      apply categorizeEntry_spec in Hstep as (q & -> & Hq & Hcase).
      exists (entries ++ [q]).
      rewrite (take_S_r _ _ _ Hj), Htake, fmap_app, filter_app, filter_cons, filter_nil.
      split_and!; [done|apply Forall_app; split; [by rewrite <- Htake|by constructor]|..].
      + destruct (decide (chainComplete q)).
        * destruct Hcase as [(rq & -> & Hfrom) _].
          apply Forall2_app; [done|]. constructor; [done|constructor].
        * destruct Hcase as [-> _]. by rewrite app_nil_r.
      + intros code. cbn [fst snd]. destruct (decide (chainComplete q)) as [Hc|Hc].
        * destruct Hcase as [_ ->]. rewrite Hfs. split.
          -- intros [?|(q' & Hq' & ?)]; [by left|]. right. exists q'.
             split; [|done]. apply elem_of_app. by left.
          -- intros [?|(q' & Hq' & Hn & Hf)]; [by left|]. right. exists q'.
             split; [|done].
             apply elem_of_app in Hq' as [?|Hq'%list_elem_of_singleton]; [done|].
             by subst q'.
        * destruct Hcase as (_ & code0 & Hcode0 & ->).
          rewrite elem_of_union, elem_of_singleton, Hfs. split.
          -- intros [[?|(q' & Hq' & ?)]| ->]; [by left|..].
             ++ right. exists q'. split; [|done]. apply elem_of_app. by left.
             ++ right. exists q. split; [|done]. apply elem_of_app. right.
                by apply list_elem_of_singleton.
          -- intros [?|(q' & Hq' & Hn & Hf)]; [by left; left|].
             apply elem_of_app in Hq' as [?|Hq'%list_elem_of_singleton].
             ++ left. right. by exists q'.
             ++ subst q'. right. congruence. }
  destruct HP as (entries & Htake & Hgood & Hcl & Hfs). cbn [fst snd] in *.
  rewrite take_ge in Htake, Hgood by done. by exists entries, cl.
Qed.

Lemma categorizeBucket_Throws (st : CleanQuoteMap * gset (option SwapErrorCode))
    (b : Z * list (option InternalRouteQuote)) (e : Thrown) :
  categorizeBucket tradeAmount dir st b = Throws e -> e = TypeError.
Proof.
  unfold categorizeBucket. destruct st as [cm fs]. destruct b as [p bucket].
  destruct (forEach _ _ bucket) as [[cl fs1]|e0] eqn:Hin; [done|]. cbn. intros [= <-].
  apply (forEach_Throws _ (fun e => e = TypeError) _ _ _ Hin).
  intros t x e'. apply categorizeEntry_Throws.
Qed.

(** The whole map, bucket by bucket. *)
Lemma categorizeQuotes_spec (quoteMap : QuoteMap) (cleaned : CleanQuoteMap)
    (failures : gset (option SwapErrorCode)) :
  categorizeQuotes tradeAmount dir quoteMap = Returns (cleaned, failures) ->
  (forall p, is_Some (cleaned !! p) <-> is_Some (quoteMap !! p)) /\
  (forall p bucket, quoteMap !! p = Some bucket ->
     Forall entryGood bucket /\
     exists entries quotes,
       bucket = Some <$> entries /\ cleaned !! p = Some quotes /\
       Forall2 (cleanedFrom tradeAmount dir p) (filter chainComplete entries) quotes) /\
  (forall code, code ∈ failures <->
     exists p bucket q, quoteMap !! p = Some bucket /\ Some q ∈ bucket /\
       ~ chainComplete q /\ firstFailure q = Some code).
Proof.
  unfold categorizeQuotes. intros Hrun.
  set (l := map_to_list quoteMap) in *.
  assert (Hnodup : NoDup l.*1) by apply NoDup_fst_map_to_list.
  pose (P := fun (k : nat) (st : CleanQuoteMap * gset (option SwapErrorCode)) =>
    (forall p, is_Some (st.1 !! p) <-> p ∈ (take k l).*1) /\
    (forall p bucket, (p, bucket) ∈ take k l ->
       Forall entryGood bucket /\
       exists entries quotes,
         bucket = Some <$> entries /\ st.1 !! p = Some quotes /\
         Forall2 (cleanedFrom tradeAmount dir p) (filter chainComplete entries) quotes) /\
    (forall code, code ∈ st.2 <->
       exists p bucket q, (p, bucket) ∈ take k l /\ Some q ∈ bucket /\
         ~ chainComplete q /\ firstFailure q = Some code)).
  assert (HP : P (length l) (cleaned, failures)).
  { apply (forEach_invariant _ P _ _ _ Hrun).
    - split_and!.
      + intros p. cbn. rewrite lookup_empty. split; [by intros [? ?]|].
        intros Hp. by apply elem_of_nil in Hp.
      + intros p bucket Hp. by apply elem_of_nil in Hp.
      + intros code. cbn. split; [set_solver|].
        intros (p & bucket & q & Hp & _). by apply elem_of_nil in Hp.
    - intros k [p bucket] [cm fs] [cm' fs'] Hk (Hdom & Hbuckets & Hfs) Hstep.
      cbn [fst snd] in *.
      apply categorizeBucket_spec in Hstep
        as (entries & quotes & Hb & Hgood & -> & Hcl & Hfs').
      assert (Hfresh : p ∉ (take k l).*1).
      { intros [j Hj]%list_elem_of_lookup.
        rewrite list_lookup_fmap in Hj.
        destruct (take k l !! j) as [[p' b']|] eqn:Hjl; [|done]. cbn in Hj.
        injection Hj as ->.
        apply lookup_take_Some in Hjl as [Hjl Hjk].
        assert (j = k); [|lia].
        eapply (NoDup_lookup _ _ _ _ Hnodup); rewrite list_lookup_fmap.
        - by rewrite Hjl.
        - by rewrite Hk. }
      unfold P. cbn [fst snd]. rewrite (take_S_r _ _ _ Hk). split_and!.
      + intros p'. rewrite fmap_app, elem_of_app. cbn.
        rewrite list_elem_of_singleton.
        destruct (decide (p' = p)) as [->|Hne].
        * rewrite lookup_insert_eq. split; [by right|eauto].
        * rewrite lookup_insert_ne by done. rewrite Hdom. split; [by left|].
          by intros [?|?].
      + intros p' bucket' [Hin|Hin%list_elem_of_singleton]%elem_of_app.
        * destruct (Hbuckets p' bucket' Hin) as (Hg & es & qs & ? & ? & ?).
          split; [done|]. exists es, qs. split_and!; [done| |done].
          rewrite lookup_insert_ne; [done|]. intros ->. apply Hfresh.
          by apply (list_elem_of_fmap_2 fst) in Hin.
        * injection Hin as -> ->. split; [done|].
          exists entries, quotes. by rewrite lookup_insert_eq.
      + intros code. rewrite Hfs', Hfs. split.
        * intros [(p' & b' & q & Hin & ?)|(q & Hq & ?)].
          -- exists p', b', q. split; [|done]. apply elem_of_app. by left.
          -- exists p, bucket, q. split; [apply elem_of_app; right;
               by apply list_elem_of_singleton|].
             split; [|done]. rewrite Hb. by apply list_elem_of_fmap_2.
        * intros (p' & b' & q & [Hin|Hin%list_elem_of_singleton]%elem_of_app & Hq & ?).
          -- left. by exists p', b', q.
          -- injection Hin as -> ->. right. exists q. split; [|done].
             rewrite Hb in Hq. apply list_elem_of_fmap in Hq as (q' & [= ->] & ?). done. }
  destruct HP as (Hdom & Hbuckets & Hfs). cbn [fst snd] in *.
  rewrite take_ge in Hdom, Hbuckets, Hfs by done.
  split_and!.
  - intros p. rewrite Hdom. unfold l. split.
    + intros [[p' b] [-> Hin]]%list_elem_of_fmap. cbn.
      apply elem_of_map_to_list in Hin. eauto.
    + intros [b Hb]. apply list_elem_of_fmap. exists (p, b). split; [done|].
      by apply elem_of_map_to_list.
  - intros p bucket Hb. apply Hbuckets. by apply elem_of_map_to_list.
  - intros code. rewrite Hfs. unfold l.
    split; intros (p & b & q & Hin & ?); exists p, b, q; (split; [|done]);
      by apply elem_of_map_to_list.
Qed.

End Aggregator.

(** X6: [categorizeQuotes] returns exactly when every slot of every bucket holds
    an entry it can digest: no hole, a complete chain of at least one hop (the
    boundary hop is read), or an incomplete chain with a recorded Failure
    ([quoteFailures[0]] is read).  Otherwise it throws a TypeError, and it
    never throws anything else. *)
Theorem categorizeQuotes_returns_iff_entries_digestible (tradeAmount : Z) (dir : bool)
    (quoteMap : QuoteMap) :
  ((exists cleaned failures,
      categorizeQuotes tradeAmount dir quoteMap = Returns (cleaned, failures)) <->
   (forall p bucket, quoteMap !! p = Some bucket -> Forall entryGood bucket)) /\
  (forall e, categorizeQuotes tradeAmount dir quoteMap = Throws e -> e = TypeError).
Proof.
  split; [split|].
  - intros (cleaned & failures & Hrun) p bucket Hb.
    apply categorizeQuotes_spec in Hrun as (_ & Hbuckets & _).
    by destruct (Hbuckets p bucket Hb) as [? _].
  - apply categorizeQuotes_returns.
  - intros e Hrun. unfold categorizeQuotes in Hrun.
    apply (forEach_Throws _ (fun e => e = TypeError) _ _ _ Hrun).
    intros t x e'. apply categorizeBucket_Throws.
Qed.

(** X7: the cleaned map has the keys of the quote map, and under each key the
    complete chains of the bucket, one route quote each, in the order of the
    bucket (route enumeration order); every route quote carries the bucket's
    key as its percentage, its entry's route and the Success hops of its
    entry's chain. *)
Theorem categorizeQuotes_keeps_complete_chains_in_order (tradeAmount : Z) (dir : bool)
    (quoteMap : QuoteMap) (cleaned : CleanQuoteMap) (failures : gset (option SwapErrorCode)) :
  categorizeQuotes tradeAmount dir quoteMap = Returns (cleaned, failures) ->
  (forall p, is_Some (cleaned !! p) <-> is_Some (quoteMap !! p)) /\
  (forall p bucket, quoteMap !! p = Some bucket ->
     exists entries quotes,
       bucket = Some <$> entries /\ cleaned !! p = Some quotes /\
       length quotes = length (filter chainComplete entries) /\
       Forall2 (fun q rq =>
                  rq_percent rq = p /\ rq_route rq = irq_route q /\
                  rq_calculatedHops rq = successHops (irq_calculatedHops q))
         (filter chainComplete entries) quotes).
Proof.
  intros (Hdom & Hbuckets & _)%categorizeQuotes_spec. split; [done|].
  intros p bucket Hb.
  destruct (Hbuckets p bucket Hb) as (_ & entries & quotes & -> & Hq & Hall).
  exists entries, quotes. split_and!; [done..| |].
  - symmetry. by eapply Forall2_length.
  - eapply Forall2_impl; [exact Hall|].
    intros q rq (? & ? & ? & _). done.
Qed.

(** X8: the set of failure kinds [categorizeQuotes] returns holds exactly the
    first recorded Failure of every incomplete chain of the quote map, over
    all buckets; a complete chain contributes nothing. *)
Theorem categorizeQuotes_collects_first_failures (tradeAmount : Z) (dir : bool)
    (quoteMap : QuoteMap) (cleaned : CleanQuoteMap) (failures : gset (option SwapErrorCode)) :
  categorizeQuotes tradeAmount dir quoteMap = Returns (cleaned, failures) ->
  forall code, code ∈ failures <->
    exists p bucket q, quoteMap !! p = Some bucket /\ Some q ∈ bucket /\
      length (successHops (irq_calculatedHops q)) ≠ length (irq_route q) /\
      head (failureHops (irq_calculatedHops q)) = Some code.
Proof.
  intros (_ & _ & Hfs)%categorizeQuotes_spec. exact Hfs.
Qed.

(** ** The Quote Pruner: sizes, keys and pruning twice *)

Lemma slice0_sublist {A : Type} (l : list A) (n : Z) : slice0 l n `sublist_of` l.
Proof. unfold slice0. destruct (n <? 0); apply sublist_take. Qed.

Lemma slice0_length {A : Type} (l : list A) (n : Z) :
  Z.of_nat (length (slice0 l n)) =
  if n <? 0 then Z.max 0 (Z.of_nat (length l) + n) else Z.min n (Z.of_nat (length l)).
Proof.
  unfold slice0. destruct (Z.ltb_spec n 0); rewrite length_take; lia.
Qed.

(** Sorting a list that is already in order changes nothing. *)
Lemma jsSort_sorted_id {A : Type} (cmp : A -> A -> Z) (key : A -> Z) (l : list A) :
  (forall a b, (cmp a b <=? 0) = (key a <=? key b)) ->
  StronglySorted (fun a b => key a <= key b) l -> jsSort cmp l = l.
Proof.
  intros Hkey. induction 1 as [|x l Hl IH Hx]; cbn; [done|].
  rewrite IH. destruct l as [|y l]; cbn; [done|].
  rewrite Hkey. apply Forall_cons in Hx as [Hxy _].
  by rewrite (proj2 (Z.leb_le _ _) Hxy).
Qed.

(** X9: [pruneQuoteMap] for any [pruneN], negative ones included ([slice(0, n)]
    then counts from the end): it neither drops nor adds a percentage key;
    the bucket it returns is a front part of the sorted bucket it leaves in
    its argument, which is a rearrangement of the bucket it was given; and the
    returned bucket has min(pruneN, length) quotes for a [pruneN] of 0 or
    more, and max(0, length + pruneN) for a negative one. *)
Theorem pruneQuoteMap_bucket_sizes (quoteMap : CleanQuoteMap) (pruneN : Z) (dir : bool) :
  (forall p, is_Some ((pruneQuoteMap quoteMap pruneN dir).1 !! p) <-> is_Some (quoteMap !! p)) /\
  (forall p, is_Some ((pruneQuoteMap quoteMap pruneN dir).2 !! p) <-> is_Some (quoteMap !! p)) /\
  (forall p quotes, quoteMap !! p = Some quotes ->
     exists kept sorted,
       (pruneQuoteMap quoteMap pruneN dir).1 !! p = Some kept /\
       (pruneQuoteMap quoteMap pruneN dir).2 !! p = Some sorted /\
       sorted ≡ₚ quotes /\
       kept `prefix_of` sorted /\
       kept ⊆+ quotes /\
       Z.of_nat (length kept) =
         if pruneN <? 0 then Z.max 0 (Z.of_nat (length quotes) + pruneN)
         else Z.min pruneN (Z.of_nat (length quotes))).
Proof.
  split_and!.
  - intros p. rewrite pruneQuoteMap_lookup. by rewrite fmap_is_Some.
  - intros p. rewrite pruneQuoteMap_sorted_lookup. by rewrite fmap_is_Some.
  - intros p quotes Hq. eexists _, _.
    rewrite pruneQuoteMap_lookup, pruneQuoteMap_sorted_lookup, Hq. cbn.
    split_and!; [done|done|apply jsSort_perm| | |].
    + unfold slice0. destruct (pruneN <? 0); apply prefix_take.
    + rewrite <- (jsSort_perm (pruneSortFn dir) quotes) at 2.
      apply sublist_submseteq, slice0_sublist.
    + by rewrite slice0_length, jsSort_length.
Qed.

(** X10: pruning is idempotent for a [pruneN] of 0 or more: pruning the pruned map
    again with the same [pruneN] and direction returns it unchanged, and the
    in-place sort of the second call leaves it as it is. *)
Theorem pruneQuoteMap_twice (quoteMap : CleanQuoteMap) (pruneN : Z) (dir : bool) :
  0 <= pruneN ->
  (pruneQuoteMap (pruneQuoteMap quoteMap pruneN dir).1 pruneN dir).1
    = (pruneQuoteMap quoteMap pruneN dir).1 /\
  (pruneQuoteMap (pruneQuoteMap quoteMap pruneN dir).1 pruneN dir).2
    = (pruneQuoteMap quoteMap pruneN dir).1.
Proof.
  intros Hn.
  assert (Hid : forall quotes,
            jsSort (pruneSortFn dir) (slice0 (jsSort (pruneSortFn dir) quotes) pruneN)
            = slice0 (jsSort (pruneSortFn dir) quotes) pruneN).
  { intros quotes. apply (jsSort_sorted_id _ (pruneKey dir)); [apply pruneSortFn_key|].
    eapply StronglySorted_sublist; [apply slice0_sublist|].
    apply jsSort_sorted, pruneSortFn_key. }
  split; apply map_eq; intros p.
  - rewrite !pruneQuoteMap_lookup.
    destruct (quoteMap !! p) as [quotes|]; [|done]. cbn. rewrite Hid.
    rewrite !slice0_take by done. by rewrite take_take, Nat.min_id.
  - rewrite pruneQuoteMap_sorted_lookup, pruneQuoteMap_lookup.
    destruct (quoteMap !! p) as [quotes|]; [|done]. cbn. by rewrite Hid.
Qed.

(** ** The Quote Batch Builder: which pool a request goes to *)

Section BuilderPlacement.

Variables inputTokenMint outputTokenMint : Address.
Variable pools : gmap Address TokenPairPool.
Variable pairRoutes : list (list Address).
Variable hop : nat.
Variable amountSpecifiedIsInput : bool.

Local Abbreviation placedAt :=
  (Placement.placedAt inputTokenMint pools hop amountSpecifiedIsInput).

Lemma oriented_lookup (initialPool : TokenPairPool) (route : list Address) :
  (hop < length route)%nat ->
  (if bool_decide (pool_tokenMintA initialPool ≠ inputTokenMint)
      && bool_decide (pool_tokenMintB initialPool ≠ inputTokenMint)
   then reverse route else route) !! hop
  = if decide (pool_tokenMintA initialPool = inputTokenMint \/
               pool_tokenMintB initialPool = inputTokenMint)
    then route !! hop else route !! (length route - 1 - hop)%nat.
Proof.
  intros Hlt.
  destruct (decide (pool_tokenMintA initialPool = inputTokenMint)) as [Ha|Ha];
    destruct (decide (pool_tokenMintB initialPool = inputTokenMint)) as [Hb|Hb].
  1-3: rewrite decide_True by tauto.
  4: rewrite decide_False by tauto.
  1-2: by rewrite (bool_decide_eq_false_2 (_ ≠ _)) by tauto.
  - rewrite (bool_decide_eq_false_2 (pool_tokenMintB _ ≠ _)) by tauto.
    by rewrite andb_false_r.
  - rewrite !bool_decide_eq_true_2 by done. cbn.
    rewrite reverse_lookup by done. f_equal. lia.
Qed.

Lemma buildRouteRequest_placed (percent tradeAmount : Z) (us us' : list QuoteUpdate)
    (qm qm' : QuoteMap) (r : nat) (route : list Address) :
  buildRouteRequest inputTokenMint outputTokenMint pools hop amountSpecifiedIsInput
    percent tradeAmount (us, qm) r route = Returns (us', qm') ->
  us' = us \/ exists u, us' = us ++ [u] /\ placedAt percent r route u.
Proof.
  unfold buildRouteRequest.
  destruct (if amountSpecifiedIsInput then _ else _) eqn:Hskip; [intros [= <- <-]; by left|].
  assert (Hlt : (hop < length route)%nat).
  { apply eligibleAt_lt with amountSpecifiedIsInput. unfold eligibleAt. by rewrite Hskip. }
  match goal with
  | |- context [if ?b then setEntry ?m ?p ?i ?e else Returns _] =>
      destruct b; [destruct (setEntry m p i e) as [qm1|]; [|done]|]
  end.
  all: cbn.
  all: match goal with |- context [getEntry ?m ?p ?i] =>
         destruct (getEntry m p i) as [cur|]; [|done] end.
  all: cbn; rewrite <- head_lookup.
  all: destruct (head route ≫= _) as [initialPool|] eqn:Hinit; [|done].
  all: destruct cur as [cur|]; [|done].
  2: destruct (if amountSpecifiedIsInput then arrGetZ _ _ else arrGetZ _ _) as [[h|c]|];
       [|intros [= <- <-]; by left..].
  all: destruct (_ !! hop ≫= _) as [pool|] eqn:Hpool; [|done].
  all: intros [= <- <-]; right; eexists; (split; [done|]).
  all: unfold Placement.placedAt; cbn; (split_and!; [done..|]).
  all: exists initialPool, pool; (split_and!; [done| |done]).
  all: by rewrite oriented_lookup in Hpool.
Qed.

Lemma buildQuoteUpdateRequests_placed (percents amounts : list Z)
    (quoteMap quoteMap' : QuoteMap) (quoteUpdates : list QuoteUpdate) :
  buildQuoteUpdateRequests inputTokenMint outputTokenMint pools pairRoutes percents amounts
    hop amountSpecifiedIsInput quoteMap = Returns (quoteUpdates, quoteMap') ->
  forall u, u ∈ quoteUpdates ->
    upd_percent u ∈ (zip percents amounts).*1 /\
    exists route, pairRoutes !! upd_routeIndex u = Some route /\
      placedAt (upd_percent u) (upd_routeIndex u) route u.
Proof.
  unfold buildQuoteUpdateRequests. intros Hrun.
  pose (Q := fun (u : QuoteUpdate) =>
    upd_percent u ∈ (zip percents amounts).*1 /\
    exists route, pairRoutes !! upd_routeIndex u = Some route /\
      placedAt (upd_percent u) (upd_routeIndex u) route u).
  assert (HQ : Forall Q quoteUpdates).
  { apply (forEach_invariant _ (fun _ st => Forall Q st.1) _ _ _ Hrun); [by constructor|].
    intros k [percent tradeAmount] [us0 qm0] st' Hk Hus Hbody. cbn [fst] in *.
    unfold buildPercentRequests in Hbody.
    assert (Hp : percent ∈ (zip percents amounts).*1).
    { apply list_elem_of_fmap. exists (percent, tradeAmount). split; [done|].
      by eapply list_elem_of_lookup_2. }
    apply (forEachIndexed_invariant _ (fun _ st => Forall Q st.1) _ _ _ _ Hbody); [done|].
    intros r route [us qm] [us' qm'] Hr Hall Hstep. cbn [fst] in *.
    apply buildRouteRequest_placed in Hstep as [->|(u & -> & Hu)]; [done|].
    apply Forall_app. split; [done|]. constructor; [|constructor].
    destruct Hu as (Hpu & Hru & Hu). split; [by rewrite Hpu|].
    exists route. rewrite Hpu, Hru. by split_and!. }
  intros u Hu. rewrite Forall_forall in HQ. by apply HQ.
Qed.

(** X11: every request [buildQuoteUpdateRequests] builds at a hop is for one of the
    percentages and one of the routes it was given, carries that hop as its
    [hopIndex] and the call's direction, names the same pool as [address] and
    as [request.whirlpool], and that pool is the one the route has at the hop
    position: read from the front of the route when the route's first pool
    holds the input token on either side, and from its back (the route
    reversed) when it does not. *)
Theorem buildQuoteUpdateRequests_addresses_oriented_route (percents amounts : list Z)
    (quoteMap quoteMap' : QuoteMap) (quoteUpdates : list QuoteUpdate) :
  buildQuoteUpdateRequests inputTokenMint outputTokenMint pools pairRoutes percents amounts
    hop amountSpecifiedIsInput quoteMap = Returns (quoteUpdates, quoteMap') ->
  forall u, u ∈ quoteUpdates ->
    upd_hopIndex u = hop /\
    upd_percent u ∈ (zip percents amounts).*1 /\
    req_whirlpool (upd_request u) = upd_address u /\
    req_amountSpecifiedIsInput (upd_request u) = amountSpecifiedIsInput /\
    exists route initialPool pool,
      pairRoutes !! upd_routeIndex u = Some route /\
      (hop < length route)%nat /\
      head route ≫= (pools !!.) = Some initialPool /\
      (if decide (pool_tokenMintA initialPool = inputTokenMint \/
                  pool_tokenMintB initialPool = inputTokenMint)
       then route !! hop else route !! (length route - 1 - hop)%nat) ≫= (pools !!.)
        = Some pool /\
      upd_address u = pool_address pool.
Proof.
  intros Hrun u Hu.
  destruct (buildQuoteUpdateRequests_placed _ _ _ _ _ Hrun u Hu)
    as (Hp & route & Hroute & _ & _ & ? & ? & ? & ? & init & pool & ?).
  split_and!; [done..|]. by exists route, init, pool.
Qed.

(** X12: at the hop where a route starts (hop 0 when the input is fixed, the
    route's last hop when the output is), the builder puts a fresh entry with
    an empty chain in the quote map, whatever was there, and builds a request
    for the slice amount in the token the caller fixed: the input token when
    the input is fixed, the output token when the output is. *)
Theorem buildQuoteUpdateRequests_starts_route_with_slice (percents amounts : list Z)
    (quoteMap quoteMap' : QuoteMap) (quoteUpdates : list QuoteUpdate)
    (p amt : Z) (r : nat) (route : list Address) :
  NoDup (zip percents amounts).*1 ->
  buildQuoteUpdateRequests inputTokenMint outputTokenMint pools pairRoutes percents amounts
    hop amountSpecifiedIsInput quoteMap = Returns (quoteUpdates, quoteMap') ->
  (p, amt) ∈ zip percents amounts ->
  pairRoutes !! r = Some route ->
  (hop < length route)%nat ->
  (if amountSpecifiedIsInput then hop = 0%nat else hop = (length route - 1)%nat) ->
  entryAt quoteMap' p r = Some (freshEntry p route) /\
  exists u, u ∈ quoteUpdates /\
    upd_percent u = p /\ upd_routeIndex u = r /\
    req_tokenAmount (upd_request u) = amt /\
    req_tradeTokenMint (upd_request u)
      = (if amountSpecifiedIsInput then inputTokenMint else outputTokenMint).
Proof.
  intros Hnodup Hrun Hin Hroute Hlt Hstart.
  pose proof (buildQuoteUpdateRequests_done _ _ _ _ _ _ _ _ _ _ _ Hnodup Hrun)
    as (_ & _ & _ & Hentries & Hus).
  rewrite take_ge in Hentries, Hus by done. cbn [fst snd] in *.
  specialize (Hentries p amt r route Hin Hroute).
  rewrite (proj2 (eligibleAt_lt hop amountSpecifiedIsInput route) Hlt) in Hentries.
  assert (Hst : startsAt hop amountSpecifiedIsInput route = true).
  { unfold startsAt. destruct amountSpecifiedIsInput; apply Z.eqb_eq; lia. }
  rewrite Hst in Hentries. destruct Hentries as (q & Hq & -> & Hreq). split; [done|].
  destruct Hreq as (u & Hu & Hpu & Hru).
  { unfold tradeOf. rewrite Hst. eauto. }
  exists u. split_and!; [done..| |].
  all: destruct (Hus u Hu) as (amt' & route' & q' & Hin' & Hroute' & _ & Hq' & Hbuilt).
  all: rewrite Hpu, Hru in *.
  all: assert (amt' = amt) as -> by (by eapply NoDup_fst_unique).
  all: assert (route' = route) as -> by congruence.
  all: destruct Hbuilt as (tokenAmount & tradeToken & pool & Htrade & ->).
  all: unfold tradeOf in Htrade; rewrite Hst in Htrade; by injection Htrade as <- <-.
Qed.

End BuilderPlacement.

(** ** When the hop loop returns *)

Lemma forEachIndexed_returns {A St : Type} (body : St -> nat -> A -> Exc St)
    (P : nat -> St -> Prop) (l : list A) : forall (i : nat) (s : St),
  P i s ->
  (forall (k : nat) (x : A) (t : St),
     l !! k = Some x -> P (i + k)%nat t ->
     exists t', body t (i + k)%nat x = Returns t' /\ P (S (i + k)) t') ->
  exists s', forEachIndexed body s i l = Returns s' /\ P (i + length l)%nat s'.
Proof.
  induction l as [|x l IH]; intros i s HP Hstep; cbn.
  - exists s. by rewrite Nat.add_0_r.
  - destruct (Hstep 0%nat x s eq_refl) as (t & Ht & HPt); [by rewrite Nat.add_0_r|].
    rewrite Nat.add_0_r in Ht, HPt. rewrite Ht. cbn.
    replace (i + S (length l))%nat with (S i + length l)%nat by lia.
    apply IH; [done|]. intros k y u Hk Hu.
    replace (S i + k)%nat with (i + S k)%nat in * by lia. by apply Hstep.
Qed.

Section BuilderReturns.

Variables inputTokenMint outputTokenMint : Address.
Variable pools : gmap Address TokenPairPool.
Variable pairRoutes : list (list Address).
Variable hop : nat.
Variable amountSpecifiedIsInput : bool.

Hypothesis pools_known :
  forall route a, route ∈ pairRoutes -> a ∈ route -> is_Some (pools !! a).

Local Abbreviation eligibleAt := (Vocabulary.eligibleAt hop amountSpecifiedIsInput).
Local Abbreviation startsAt := (Vocabulary.startsAt hop amountSpecifiedIsInput).
Local Abbreviation routesDone :=
  (Vocabulary.routesDone inputTokenMint outputTokenMint pairRoutes hop amountSpecifiedIsInput).
Local Abbreviation percentsDone :=
  (Vocabulary.percentsDone inputTokenMint outputTokenMint pairRoutes hop
     amountSpecifiedIsInput).

Lemma known_lookup (route : list Address) (b : bool) (i : nat) :
  route ∈ pairRoutes -> (i < length route)%nat ->
  is_Some ((if b then reverse route else route) !! i ≫= (pools !!.)).
Proof.
  intros Hroute Hi.
  destruct (lookup_lt_is_Some_2 (if b then reverse route else route) i) as [a Ha].
  { destruct b; [by rewrite length_reverse|done]. }
  rewrite Ha. cbn. apply (pools_known route); [done|].
  apply list_elem_of_lookup_2 in Ha. destruct b; [by apply elem_of_reverse|done].
Qed.

Lemma buildRouteRequest_returns (percent tradeAmount : Z) (us : list QuoteUpdate)
    (qm : QuoteMap) (r : nat) (route : list Address) :
  route ∈ pairRoutes ->
  is_Some (qm !! percent) ->
  (eligibleAt route = true -> startsAt route = false -> is_Some (entryAt qm percent r)) ->
  exists st',
    buildRouteRequest inputTokenMint outputTokenMint pools hop amountSpecifiedIsInput
      percent tradeAmount (us, qm) r route = Returns st'.
Proof.
  intros Hroute Hbucket Hentry. unfold buildRouteRequest.
  destruct (eligibleAt route) eqn:Helig; unfold Vocabulary.eligibleAt in Helig.
  2:{ apply negb_false_iff in Helig. rewrite Helig. eauto. }
  apply negb_true_iff in Helig. rewrite Helig.
  assert (Hlt : (hop < length route)%nat).
  { apply eligibleAt_lt with amountSpecifiedIsInput. unfold Vocabulary.eligibleAt.
    by rewrite Helig. }
  fold (startsAt route). specialize (Hentry eq_refl).
  destruct (known_lookup route false 0 Hroute ltac:(lia)) as [initialPool Hinit].
  cbn [reverse] in Hinit.
  destruct (startsAt route) eqn:Hstart.
  - destruct (setEntry_is_Some qm percent r (freshEntry percent route) Hbucket)
      as [qm1 Hset].
    unfold freshEntry in Hset. rewrite Hset. cbn.
    apply setEntry_Returns in Hset as (Hq & _ & Hdom & _).
    rewrite getEntry_entryAt by (by apply Hdom). cbn. rewrite Hq, Hinit.
    destruct (known_lookup route
                (bool_decide (pool_tokenMintA initialPool ≠ inputTokenMint)
                 && bool_decide (pool_tokenMintB initialPool ≠ inputTokenMint))
                hop Hroute Hlt) as [pool ->].
    eauto.
  - cbn. rewrite getEntry_entryAt by done. cbn.
    destruct (Hentry eq_refl) as [q ->]. rewrite Hinit.
    destruct (known_lookup route
                (bool_decide (pool_tokenMintA initialPool ≠ inputTokenMint)
                 && bool_decide (pool_tokenMintB initialPool ≠ inputTokenMint))
                hop Hroute Hlt) as [pool ->].
    destruct (if amountSpecifiedIsInput then arrGetZ _ _ else arrGetZ _ _) as [[h|c]|];
      eauto.
Qed.

Lemma buildPercentRequests_returns (percent tradeAmount : Z) (us0 : list QuoteUpdate)
    (qm0 : QuoteMap) :
  (forall r route, pairRoutes !! r = Some route ->
     eligibleAt route = true -> startsAt route = false ->
     is_Some (entryAt qm0 percent r)) ->
  exists st',
    buildPercentRequests inputTokenMint outputTokenMint pools pairRoutes hop
      amountSpecifiedIsInput (us0, qm0) (percent, tradeAmount) = Returns st'.
Proof.
  intros Hentries. unfold buildPercentRequests.
  set (qmS := match qm0 !! percent with
              | Some _ => qm0
              | None => <[percent := replicate (length pairRoutes) None]> qm0
              end).
  assert (HqmS : is_Some (qmS !! percent)).
  { subst qmS. destruct (qm0 !! percent) eqn:Hp; [by rewrite Hp|].
    rewrite lookup_insert_eq. eauto. }
  assert (Hsame : forall r, is_Some (entryAt qm0 percent r) ->
            entryAt qmS percent r = entryAt qm0 percent r).
  { intros r [q Hq]. subst qmS. destruct (qm0 !! percent) eqn:Hp; [done|].
    unfold entryAt in Hq. by rewrite Hp in Hq. }
  destruct (forEachIndexed_returns
              (buildRouteRequest inputTokenMint outputTokenMint pools hop
                 amountSpecifiedIsInput percent tradeAmount)
              (routesDone percent tradeAmount us0 qmS) pairRoutes 0%nat (us0, qmS))
    as (st' & Hrun & _); [| |by exists st'].
  - exists []. cbn. rewrite app_nil_r. split_and!; try done.
    + intros r route Hr. lia.
    + intros u Hu. by apply elem_of_nil in Hu.
  - intros k route [us qm] Hk Hdone. cbn in Hk, Hdone |- *.
    pose proof Hdone as (new & Hus & Hframe & Hdom & Hrest). cbn [fst snd] in *.
    destruct (buildRouteRequest_returns percent tradeAmount us qm k route) as [st' Hst'].
    + by eapply list_elem_of_lookup_2.
    + by apply Hdom.
    + intros Helig Hstart. rewrite Hframe by (right; lia).
      rewrite Hsame; by eapply Hentries.
    + exists st'. split; [done|].
      by eapply routesDone_step.
Qed.

Lemma buildQuoteUpdateRequests_returns (percents amounts : list Z) (qm0 : QuoteMap) :
  NoDup (zip percents amounts).*1 ->
  (forall p amt r route, (p, amt) ∈ zip percents amounts -> pairRoutes !! r = Some route ->
     eligibleAt route = true -> startsAt route = false ->
     is_Some (entryAt qm0 p r)) ->
  exists us qm',
    buildQuoteUpdateRequests inputTokenMint outputTokenMint pools pairRoutes percents
      amounts hop amountSpecifiedIsInput qm0 = Returns (us, qm').
Proof.
  intros Hnodup Hentries. unfold buildQuoteUpdateRequests.
  destruct (forEach_returns
              (buildPercentRequests inputTokenMint outputTokenMint pools pairRoutes hop
                 amountSpecifiedIsInput)
              (percentsDone (zip percents amounts) qm0) (zip percents amounts) ([], qm0))
    as ([us qm'] & Hrun & _); [| |by exists us, qm'].
  - split_and!; cbn; try done.
    + by left.
    + intros p amt r route Hin. by apply elem_of_nil in Hin.
    + intros u Hu. by apply elem_of_nil in Hu.
  - intros k [p amt] [us qm] Hk Hdone.
    destruct (buildPercentRequests_returns p amt us qm) as [st' Hst'].
    + intros r route Hroute Helig Hstart.
      destruct Hdone as (Hframe & _). cbn [fst snd] in Hframe.
      rewrite Hframe.
      * eapply Hentries; [|done..]. by eapply list_elem_of_lookup_2.
      * intros [j Hj]%list_elem_of_lookup.
        rewrite list_lookup_fmap in Hj.
        destruct (take k (zip percents amounts) !! j) as [[p' a']|] eqn:Hjl; [|done].
        cbn in Hj. injection Hj as ->.
        apply lookup_take_Some in Hjl as [Hjl Hjk].
        assert (j = k); [|lia].
        eapply (NoDup_lookup _ _ _ _ Hnodup); rewrite list_lookup_fmap.
        -- by rewrite Hjl.
        -- by rewrite Hk.
    + exists st'. split; [done|]. by eapply percentsDone_step.
Qed.

End BuilderReturns.

Section LoopReturns.

Variable swapQuoteWithParams : option SwapQuoteParam -> Exc SwapQuote.
Variable batchBuildSwapQuoteParams : list SwapQuoteRequest -> Exc (list SwapQuoteParam).
Variables inputTokenMint outputTokenMint : Address.
Variable pools : gmap Address TokenPairPool.
Variable pairRoutes : list (list Address).
Variables percents amounts : list Z.
Variable dir : bool.

Hypothesis percents_NoDup : NoDup (zip percents amounts).*1.
Hypothesis pools_known :
  forall route a, route ∈ pairRoutes -> a ∈ route -> is_Some (pools !! a).
Hypothesis batch_returns :
  forall requests,
    (forall request, request ∈ requests ->
       exists a pool, pools !! a = Some pool /\ req_whirlpool request = pool_address pool) ->
    exists quoteParams, batchBuildSwapQuoteParams requests = Returns quoteParams.
Hypothesis engine_readable :
  forall swapParam, engineReadable swapQuoteWithParams swapParam.

Local Abbreviation maxLen := (max_list (length <$> pairRoutes)).
Local Abbreviation hopsQuoted := (Vocabulary.hopsQuoted pairRoutes percents amounts dir).

Lemma buildQuoteUpdateRequests_returns_in_loop (t hop : nat) (quoteMap : QuoteMap) :
  hopIteration maxLen dir !! t = Some hop ->
  hopsQuoted t quoteMap ->
  exists us qm1,
    buildQuoteUpdateRequests inputTokenMint outputTokenMint pools pairRoutes percents
      amounts hop dir quoteMap = Returns (us, qm1).
Proof.
  intros [Ht Hhop]%hopIteration_lookup (Hsized & Hdom & Hshape).
  apply (buildQuoteUpdateRequests_returns inputTokenMint outputTokenMint pools
           pairRoutes hop dir pools_known percents amounts quoteMap percents_NoDup).
  intros p amt r route Hin Hroute Helig Hstart.
  specialize (Hshape p amt r route Hin Hroute).
  pose proof (route_length_le pairRoutes r route Hroute) as Hle.
  destruct (doneAt_eligible dir maxLen t hop route Hhop Ht Hle Helig)
    as (_ & _ & Hst & _).
  destruct (doneAt dir maxLen t (length route)) as [|d].
  - rewrite (proj2 Hst eq_refl) in Hstart. done.
  - cbn in Hshape. destruct Hshape as (q & -> & _). eauto.
Qed.

(** The requests of a batch name pools of [pools], so the parameter builder
    returns for them. *)
Lemma built_batch_returns (hop : nat) (quoteMap qm1 : QuoteMap) (us : list QuoteUpdate) :
  buildQuoteUpdateRequests inputTokenMint outputTokenMint pools pairRoutes percents
    amounts hop dir quoteMap = Returns (us, qm1) ->
  exists quoteParams,
    batchBuildSwapQuoteParams (upd_request <$> us) = Returns quoteParams.
Proof.
  intros Hbuild. apply batch_returns.
  intros request (u & -> & Hu)%list_elem_of_fmap.
  destruct (buildQuoteUpdateRequests_placed _ _ _ _ _ _ _ _ _ _ _ Hbuild u Hu)
    as (_ & route & _ & _ & _ & _ & Hw & _ & _ & init & pool & _ & Hpool & Ha).
  rewrite Hw, Ha.
  destruct (if decide _ then _ else _) as [a|]; [|done]. cbn in Hpool. eauto.
Qed.

Lemma quoteHop_returns (t hop : nat) (quoteMap : QuoteMap) :
  hopIteration maxLen dir !! t = Some hop ->
  hopsQuoted t quoteMap ->
  exists quoteMap2,
    quoteHop swapQuoteWithParams batchBuildSwapQuoteParams inputTokenMint outputTokenMint
      pools pairRoutes percents amounts dir quoteMap hop = Returns quoteMap2.
Proof.
  intros Hiter Hquoted. unfold quoteHop.
  destruct (buildQuoteUpdateRequests_returns_in_loop t hop quoteMap Hiter Hquoted)
    as (us & qm1 & Hbuild).
  rewrite Hbuild. cbn.
  destruct (built_batch_returns hop quoteMap qm1 us Hbuild) as [quoteParams ->].
  cbn. apply updateQuoteMap_returns; [|intros; apply engine_readable]. intros u Hu.
  destruct (built_entries _ _ _ _ _ _ _ _ _ _ _ percents_NoDup Hbuild u Hu)
    as (_ & _ & q & _ & _ & _ & -> & _).
  eauto.
Qed.

Lemma quoteAllHops_returns :
  exists quoteMap,
    quoteAllHops swapQuoteWithParams batchBuildSwapQuoteParams inputTokenMint outputTokenMint
      pools pairRoutes percents amounts dir (hopIteration maxLen dir) = Returns quoteMap.
Proof.
  unfold quoteAllHops.
  destruct (forEach_returns
              (quoteHop swapQuoteWithParams batchBuildSwapQuoteParams inputTokenMint
                 outputTokenMint pools pairRoutes percents amounts dir)
              hopsQuoted (hopIteration maxLen dir) ∅) as (qm & Hrun & _); [| |by exists qm].
  - split_and!.
    + intros p b. by rewrite lookup_empty.
    + intros p [b Hb]. by rewrite lookup_empty in Hb.
    + intros p amt r route Hin Hroute.
      pose proof (route_length_le pairRoutes r route Hroute) as Hle.
      replace (doneAt dir maxLen 0 (length route)) with 0%nat
        by (unfold doneAt; destruct dir; lia).
      cbn. unfold entryAt. by rewrite lookup_empty.
  - intros t hop qm Ht Hinv.
    destruct (quoteHop_returns t hop qm Ht Hinv) as [qm2 Hturn].
    exists qm2. split; [done|]. by eapply hopsQuoted_turn.
Qed.

End LoopReturns.

Import Vocabulary Chains.

(** ** What one turn of the hop loop writes *)

Section TurnResults.

Variable swapQuoteWithParams : option SwapQuoteParam -> Exc SwapQuote.
Variable batchBuildSwapQuoteParams : list SwapQuoteRequest -> Exc (list SwapQuoteParam).
Variables inputTokenMint outputTokenMint : Address.
Variable pools : gmap Address TokenPairPool.
Variable pairRoutes : list (list Address).
Variables percents amounts : list Z.
Variable dir : bool.

Hypothesis percents_NoDup : NoDup (zip percents amounts).*1.

(** The entry of an eligible route after the turn: the entry the builder
    found or made, with the hop written from the quote of the request built
    for it; unchanged when no request was built. *)
Lemma quoteHop_results (quoteMap quoteMap2 : QuoteMap) (hop : nat) :
  quoteHop swapQuoteWithParams batchBuildSwapQuoteParams inputTokenMint outputTokenMint
    pools pairRoutes percents amounts dir quoteMap hop = Returns quoteMap2 ->
  exists (quoteUpdates : list QuoteUpdate) (quoteParams : list SwapQuoteParam),
    batchBuildSwapQuoteParams (upd_request <$> quoteUpdates) = Returns quoteParams /\
    forall p amt r route,
      (p, amt) ∈ zip percents amounts -> pairRoutes !! r = Some route ->
      eligibleAt hop dir route = true ->
      exists q,
        (if startsAt hop dir route then q = freshEntry p route
         else entryAt quoteMap p r = Some q) /\
        match tradeOf inputTokenMint outputTokenMint hop dir amt route q with
        | Some (tokenAmount, tradeToken) =>
            exists i u result,
              quoteUpdates !! i = Some u /\
              req_tokenAmount (upd_request u) = tokenAmount /\
              req_tradeTokenMint (upd_request u) = tradeToken /\
              Placement.placedAt inputTokenMint pools hop dir p r route u /\
              hopResultFor swapQuoteWithParams p (upd_address u) (quoteParams !! i)
                = Returns result /\
              entryAt quoteMap2 p r = Some (setHop hop result q)
        | None => entryAt quoteMap2 p r = Some q
        end.
Proof.
  unfold quoteHop.
  destruct (buildQuoteUpdateRequests _ _ _ _ _ _ _ _ _) as [[us qm1]|] eqn:Hbuild; [|done].
  cbn. destruct (batchBuildSwapQuoteParams _) as [quoteParams|] eqn:Hbatch; [|done]. cbn.
  intros Hupd. exists us, quoteParams. split; [done|].
  intros p amt r route Hin Hroute Helig.
  pose proof (built_entry _ _ _ _ _ _ _ _ _ _ _ percents_NoDup Hbuild
                p amt r route Hin Hroute) as Hentry.
  rewrite Helig in Hentry.
  destruct Hentry as (q & Hq & Hst & Hreq). exists q. split; [done|].
  destruct (tradeOf _ _ _ _ _ _ _) as [[tokenAmount tradeToken]|] eqn:Htrade.
  - destruct (proj1 Hreq) as (u & Hu & Hpu & Hru); [eauto|].
    pose proof Hu as [i Hi]%list_elem_of_lookup.
    destruct (updateQuoteMap_at _ _ _ _ _ i u Hupd
                (built_keys_NoDup _ _ _ _ _ _ _ _ _ _ _ percents_NoDup Hbuild) Hi)
      as (q' & result & Hres & Hq' & Hw).
    rewrite Hpu, Hru in Hq', Hw.
    assert (q' = q) as -> by congruence.
    destruct (built_entries _ _ _ _ _ _ _ _ _ _ _ percents_NoDup Hbuild u Hu)
      as (amt' & route' & q' & Hin' & Hroute' & _ & Hq'' & Hbuilt).
    rewrite Hpu, Hru in *.
    assert (amt' = amt) as -> by (by eapply NoDup_fst_unique).
    assert (route' = route) as -> by congruence.
    assert (q' = q) as -> by congruence.
    destruct Hbuilt as (a & tok & pool & Htrade' & Hu').
    rewrite Htrade in Htrade'. injection Htrade' as <- <-.
    destruct (buildQuoteUpdateRequests_placed _ _ _ _ _ _ _ _ _ _ _ Hbuild u Hu)
      as (_ & route' & Hroute'' & Hplaced).
    rewrite Hpu, Hru in *.
    assert (route' = route) as -> by congruence.
    destruct (buildQuoteUpdateRequests_aligned _ _ _ _ _ _ _ _ _ _ _ Hbuild) as [Hidx _].
    destruct (Hidx i u Hi) as [Hqi Hhi].
    exists i, u, result. split_and!; [done|by rewrite Hu'..|done| |].
    + by rewrite <- Hqi.
    + rewrite Hw. unfold writeHop, setHop. by rewrite Hhi.
  - rewrite (updateQuoteMap_other _ _ _ _ _ _ _ Hupd); [done|].
    intros u Hu [= <- <-]. destruct (proj2 Hreq) as [? ?]; [eauto|done].
Qed.

End TurnResults.

Lemma hopResultFor_Success (swapQuoteWithParams : option SwapQuoteParam -> Exc SwapQuote)
    (p : Z) (address : Address) (swapParam : option SwapQuoteParam) (h : SuccessHop) :
  hopResultFor swapQuoteWithParams p address swapParam = Returns (HopSuccess h) ->
  exists param quote,
    swapParam = Some param /\ swapQuoteWithParams (Some param) = Returns quote /\
    hop_percent h = p /\ hop_whirlpool h = address /\ hop_quote h = quote /\
    hop_amountIn h = (if sp_amountSpecifiedIsInput param then sp_tokenAmount param
                      else otherAmountThreshold quote) /\
    hop_amountOut h = (if sp_amountSpecifiedIsInput param then otherAmountThreshold quote
                       else sp_tokenAmount param).
Proof.
  unfold hopResultFor.
  destruct (swapQuoteWithParams swapParam) as [quote|e] eqn:Hq;
    [|by destruct (errorCodeOf e)].
  destruct swapParam as [param|]; [|done].
  intros [= <-]. exists param, quote. by split_and!.
Qed.

Lemma chainShape_next_free (dir : bool) (done len : nat) (hops : list (option HopResult)) :
  chainShape dir done len hops -> (done < len)%nat ->
  arrGet hops (slotOf dir len done) = None.
Proof.
  intros (_ & _ & s & Hs & _ & _ & Hnone) Hlt. apply Hnone; [done|]. lia.
Qed.

Section ChainInvariants.

Variable swapQuoteWithParams : option SwapQuoteParam -> Exc SwapQuote.
Variable batchBuildSwapQuoteParams : list SwapQuoteRequest -> Exc (list SwapQuoteParam).
Variables inputTokenMint outputTokenMint : Address.
Variable pools : gmap Address TokenPairPool.
Variable pairRoutes : list (list Address).
Variables percents amounts : list Z.
Variable dir : bool.

Hypothesis percents_NoDup : NoDup (zip percents amounts).*1.

Local Abbreviation maxLen := (max_list (length <$> pairRoutes)).
Local Abbreviation hopsQuoted := (Vocabulary.hopsQuoted pairRoutes percents amounts dir).

(** An entry after a turn: as it was, or the entry of a route eligible at
    this hop with the free slot of that hop written from the quote of a
    request that the builder placed and sized from the slice or from the hop
    before. *)
Lemma turn_entry (t hop : nat) (quoteMap quoteMap2 : QuoteMap) :
  hopIteration maxLen dir !! t = Some hop ->
  hopsQuoted t quoteMap ->
  quoteHop swapQuoteWithParams batchBuildSwapQuoteParams inputTokenMint outputTokenMint
    pools pairRoutes percents amounts dir quoteMap hop = Returns quoteMap2 ->
  exists (quoteUpdates : list QuoteUpdate) (quoteParams : list SwapQuoteParam),
    batchBuildSwapQuoteParams (upd_request <$> quoteUpdates) = Returns quoteParams /\
    forall p amt r route q2,
      (p, amt) ∈ zip percents amounts -> pairRoutes !! r = Some route ->
      entryAt quoteMap2 p r = Some q2 ->
      entryAt quoteMap p r = Some q2 \/
      exists q i u tokenAmount result,
        (doneAt dir maxLen t (length route) < length route)%nat /\
        hop = slotOf dir (length route) (doneAt dir maxLen t (length route)) /\
        hopResultFor swapQuoteWithParams p (upd_address u) (quoteParams !! i)
          = Returns result /\
        q2 = setHop hop result q /\
        arrGet (irq_calculatedHops q) hop = None /\
        quoteUpdates !! i = Some u /\
        req_tokenAmount (upd_request u) = tokenAmount /\
        Placement.placedAt inputTokenMint pools hop dir p r route u /\
        match doneAt dir maxLen t (length route) with
        | O => q = freshEntry p route /\ tokenAmount = amt
        | S d' =>
            entryAt quoteMap p r = Some q /\
            exists h', arrGet (irq_calculatedHops q) (slotOf dir (length route) d')
                         = Some (HopSuccess h') /\
              tokenAmount = freeSide dir h'
        end.
Proof.
  intros Hiter (Hsized & Hdom & Hshape) Hturn.
  pose proof Hiter as [Ht Hhop]%hopIteration_lookup.
  pose proof (quoteHop_Returns _ _ _ _ _ _ _ _ _ percents_NoDup _ _ _ Hturn)
    as (_ & _ & Hentry).
  destruct (quoteHop_results _ _ _ _ _ _ _ _ _ percents_NoDup _ _ _ Hturn)
    as (us & params & Hbatch & Hres).
  exists us, params. split; [done|].
  intros p amt r route q2 Hin Hroute Hq2.
  specialize (Hentry p amt r route Hin Hroute).
  specialize (Hshape p amt r route Hin Hroute).
  pose proof (route_length_le pairRoutes r route Hroute) as Hle.
  destruct (eligibleAt hop dir route) eqn:Helig.
  2:{ left. by rewrite <- Hentry. }
  clear Hentry.
  destruct (doneAt_eligible dir maxLen t hop route Hhop Ht Hle Helig)
    as (Hnext & Hslot & Hstart & Hadj).
  assert (Hdlt : (doneAt dir maxLen t (length route) < length route)%nat).
  { assert (doneAt dir maxLen (S t) (length route) <= length route)%nat
      by (unfold doneAt; destruct dir; lia). lia. }
  destruct (Hres p amt r route Hin Hroute Helig) as (q & Hq & Htrade).
  unfold tradeOf in Htrade.
  destruct (doneAt dir maxLen t (length route)) as [|d'] eqn:Hd.
  - rewrite (proj2 Hstart eq_refl) in Hq, Htrade. subst q.
    destruct Htrade as (i & u & result & Hi & Hamt & _ & Hplaced & Hres' & Hw).
    right. exists (freshEntry p route), i, u, amt, result.
    split_and!; [done|done|done|congruence| |done..].
    cbn. apply arrGet_replicate_None.
  - destruct (startsAt hop dir route) eqn:Hst;
      [destruct Hstart as [Hs _]; specialize (Hs eq_refl); lia|].
    cbn [entryShaped] in Hshape.
    destruct Hshape as (q0 & Hq0 & _ & _ & Hchain).
    assert (q0 = q) as -> by congruence.
    rewrite (Hadj q) in Htrade by lia.
    replace (S d' - 1)%nat with d' in Htrade by lia.
    destruct (arrGet (irq_calculatedHops q) (slotOf dir (length route) d'))
      as [[h'|c]|] eqn:Hprev.
    + destruct Htrade as (i & u & result & Hi & Hamt & _ & Hplaced & Hres' & Hw).
      right. exists q, i, u, (freeSide dir h'), result.
      split_and!; [done|done|done|congruence| |done| |done|done|].
      * rewrite <- Hslot. by apply chainShape_next_free.
      * rewrite Hamt. unfold freeSide. by destruct dir.
      * by exists h'.
    + left. congruence.
    + left. congruence.
Qed.

(** Every Success hop of the quote map carries the percentage of its bucket
    and the address of the pool of its position: kept by every turn. *)
Lemma labelled_turn (t hop : nat) (quoteMap quoteMap2 : QuoteMap) :
  hopIteration maxLen dir !! t = Some hop ->
  hopsQuoted t quoteMap ->
  (forall p amt r route q,
     (p, amt) ∈ zip percents amounts -> pairRoutes !! r = Some route ->
     entryAt quoteMap p r = Some q ->
     chainLabelled inputTokenMint pools p route (irq_calculatedHops q)) ->
  quoteHop swapQuoteWithParams batchBuildSwapQuoteParams inputTokenMint outputTokenMint
    pools pairRoutes percents amounts dir quoteMap hop = Returns quoteMap2 ->
  forall p amt r route q,
    (p, amt) ∈ zip percents amounts -> pairRoutes !! r = Some route ->
    entryAt quoteMap2 p r = Some q ->
    chainLabelled inputTokenMint pools p route (irq_calculatedHops q).
Proof.
  intros Hiter Hquoted Hinv Hturn p amt r route q2 Hin Hroute Hq2.
  destruct (turn_entry t hop quoteMap quoteMap2 Hiter Hquoted Hturn)
    as (us & params & _ & Hcases).
  destruct (Hcases p amt r route q2 Hin Hroute Hq2)
    as [Hsame|(q & i & u & ta & result & _ & _ & Hres & -> & _ & _ & _ & Hplaced & Hprev)];
    [by eapply Hinv|].
  intros k h. cbn. destruct (decide (k = hop)) as [->|Hne].
  - rewrite arrGet_arrSet_eq. intros [= ->].
    apply hopResultFor_Success in Hres as (_ & _ & _ & _ & Hp & Ha & _).
    split; [done|].
    destruct Hplaced as (_ & _ & _ & _ & _ & _ & init & pool & Hinit & Hpool & Haddr).
    exists pool. unfold poolAt. rewrite Hinit. cbn. split; [done|congruence].
  - rewrite arrGet_arrSet_ne by done. intros Hk.
    destruct (doneAt dir maxLen t (length route)).
    + destruct Hprev as [-> _]. cbn in Hk. by rewrite arrGet_replicate_None in Hk.
    + destruct Hprev as [Hq _]. by eapply Hinv.
Qed.

Lemma quoteAllHops_labelled (quoteMap : QuoteMap) :
  quoteAllHops swapQuoteWithParams batchBuildSwapQuoteParams inputTokenMint outputTokenMint
    pools pairRoutes percents amounts dir (hopIteration maxLen dir) = Returns quoteMap ->
  forall p amt r route q,
    (p, amt) ∈ zip percents amounts -> pairRoutes !! r = Some route ->
    entryAt quoteMap p r = Some q ->
    chainLabelled inputTokenMint pools p route (irq_calculatedHops q).
Proof.
  unfold quoteAllHops. intros Hrun.
  pose (P := fun (t : nat) (qm : QuoteMap) =>
    hopsQuoted t qm /\
    forall p amt r route q,
      (p, amt) ∈ zip percents amounts -> pairRoutes !! r = Some route ->
      entryAt qm p r = Some q ->
      chainLabelled inputTokenMint pools p route (irq_calculatedHops q)).
  assert (HP : P (length (hopIteration maxLen dir)) quoteMap); [|by destruct HP].
  apply (forEach_invariant _ P _ _ _ Hrun).
  - split.
    + split_and!.
      * intros p b. by rewrite lookup_empty.
      * intros p [b Hb]. by rewrite lookup_empty in Hb.
      * intros p amt r route Hin Hroute.
        pose proof (route_length_le pairRoutes r route Hroute) as Hle.
        replace (doneAt dir maxLen 0 (length route)) with 0%nat
          by (unfold doneAt; destruct dir; lia).
        cbn. unfold entryAt. by rewrite lookup_empty.
    + intros p amt r route q _ _ Hq. unfold entryAt in Hq. by rewrite lookup_empty in Hq.
  - intros t hop qm qm2 Ht [Hq Hl] Hturn. split.
    + by eapply hopsQuoted_turn.
    + by eapply labelled_turn.
Qed.

(** With a parameter builder that hands each request's amount and direction
    on to its parameter, every Success hop was quoted for the slice amount
    (the first in processing order) or for what the hop before it gave. *)
Hypothesis batch_echo :
  forall requests quoteParams i request param,
    batchBuildSwapQuoteParams requests = Returns quoteParams ->
    requests !! i = Some request -> quoteParams !! i = Some param ->
    sp_tokenAmount param = req_tokenAmount request /\
    sp_amountSpecifiedIsInput param = req_amountSpecifiedIsInput request.

Lemma linked_turn (t hop : nat) (quoteMap quoteMap2 : QuoteMap) :
  hopIteration maxLen dir !! t = Some hop ->
  hopsQuoted t quoteMap ->
  (forall p amt r route q,
     (p, amt) ∈ zip percents amounts -> pairRoutes !! r = Some route ->
     entryAt quoteMap p r = Some q ->
     chainLinked dir amt (length route) (irq_calculatedHops q)) ->
  quoteHop swapQuoteWithParams batchBuildSwapQuoteParams inputTokenMint outputTokenMint
    pools pairRoutes percents amounts dir quoteMap hop = Returns quoteMap2 ->
  forall p amt r route q,
    (p, amt) ∈ zip percents amounts -> pairRoutes !! r = Some route ->
    entryAt quoteMap2 p r = Some q ->
    chainLinked dir amt (length route) (irq_calculatedHops q).
Proof.
  intros Hiter Hquoted Hinv Hturn p amt r route q2 Hin Hroute Hq2.
  destruct (turn_entry t hop quoteMap quoteMap2 Hiter Hquoted Hturn)
    as (us & params & Hbatch & Hcases).
  destruct (Hcases p amt r route q2 Hin Hroute Hq2)
    as [Hsame|(q & i & u & ta & result & Hdlt & Hslot & Hres & -> & Hfree & Hi & Hamt
               & Hplaced & Hprev)];
    [by eapply Hinv|].
  set (d := doneAt dir maxLen t (length route)) in *.
  intros j h Hj. cbn. destruct (decide (j = d)) as [->|Hne].
  - rewrite <- Hslot, arrGet_arrSet_eq. intros [= ->].
    apply hopResultFor_Success in Hres as (param & quote & Hparam & _ & _ & _ & _ & Hain & Haout).
    destruct (batch_echo _ _ i (upd_request u) param Hbatch) as [Hta Hd]; [|done|].
    { by rewrite list_lookup_fmap, Hi. }
    destruct Hplaced as (_ & _ & _ & _ & Hdir & _).
    rewrite Hdir in Hd. rewrite Hamt in Hta.
    assert (Hfix : fixedSide dir h = ta).
    { unfold fixedSide. rewrite Hain, Haout, Hd. by destruct dir. }
    destruct d as [|d'].
    + destruct Hprev as [_ ->]. done.
    + destruct Hprev as (_ & h' & Hh' & ->). exists h'. split; [|done].
      rewrite arrGet_arrSet_ne; [done|]. rewrite Hslot.
      intros Heq. apply slotOf_inj in Heq; lia.
  - assert (Hslotne : hop ≠ slotOf dir (length route) j).
    { rewrite Hslot. intros Heq. apply slotOf_inj in Heq; [congruence|done..]. }
    rewrite arrGet_arrSet_ne by done. intros Hk.
    destruct d as [|d'].
    + destruct Hprev as [-> _]. cbn in Hk. by rewrite arrGet_replicate_None in Hk.
    + destruct Hprev as [Hq _].
      pose proof (Hinv p amt r route q Hin Hroute Hq j h Hj Hk) as Hlink.
      destruct j as [|j']; [done|].
      destruct Hlink as (h' & Hh' & Hfix). exists h'. split; [|done].
      rewrite arrGet_arrSet_ne; [done|]. intros Heq. congruence.
Qed.

Lemma quoteAllHops_linked (quoteMap : QuoteMap) :
  quoteAllHops swapQuoteWithParams batchBuildSwapQuoteParams inputTokenMint outputTokenMint
    pools pairRoutes percents amounts dir (hopIteration maxLen dir) = Returns quoteMap ->
  forall p amt r route q,
    (p, amt) ∈ zip percents amounts -> pairRoutes !! r = Some route ->
    entryAt quoteMap p r = Some q ->
    chainLinked dir amt (length route) (irq_calculatedHops q).
Proof.
  unfold quoteAllHops. intros Hrun.
  pose (P := fun (t : nat) (qm : QuoteMap) =>
    hopsQuoted t qm /\
    forall p amt r route q,
      (p, amt) ∈ zip percents amounts -> pairRoutes !! r = Some route ->
      entryAt qm p r = Some q ->
      chainLinked dir amt (length route) (irq_calculatedHops q)).
  assert (HP : P (length (hopIteration maxLen dir)) quoteMap); [|by destruct HP].
  apply (forEach_invariant _ P _ _ _ Hrun).
  - split.
    + split_and!.
      * intros p b. by rewrite lookup_empty.
      * intros p [b Hb]. by rewrite lookup_empty in Hb.
      * intros p amt r route Hin Hroute.
        pose proof (route_length_le pairRoutes r route Hroute) as Hle.
        replace (doneAt dir maxLen 0 (length route)) with 0%nat
          by (unfold doneAt; destruct dir; lia).
        cbn. unfold entryAt. by rewrite lookup_empty.
    + intros p amt r route q _ _ Hq. unfold entryAt in Hq. by rewrite lookup_empty in Hq.
  - intros t hop qm qm2 Ht [Hq Hl] Hturn. split.
    + by eapply hopsQuoted_turn.
    + by eapply linked_turn.
Qed.

End ChainInvariants.

(** ** The state prefetch *)

Section PrefetchFacts.

Import Prefetch.

Lemma foldl_setAdd (l : list Address) : forall s : list Address,
  NoDup s ->
  NoDup (foldl setAdd s l) /\
  (forall x, x ∈ foldl setAdd s l <-> x ∈ s \/ x ∈ l) /\
  exists k, foldl setAdd s l = s ++ k /\ k `sublist_of` l.
Proof.
  induction l as [|x l IH]; intros s Hs; cbn.
  - split_and!; [done| |].
    + intros x. rewrite elem_of_nil. tauto.
    + exists []. by rewrite app_nil_r.
  - unfold setAdd at 2 4 6. destruct (decide (x ∈ s)) as [Hx|Hx].
    + destruct (IH s Hs) as (Hn & Hm & k & Hk & Hsub). split_and!; [done| |].
      * intros y. rewrite Hm, elem_of_cons. split; [tauto|].
        intros [?|[->|?]]; tauto.
      * exists k. split; [done|]. by apply sublist_cons.
    + destruct (IH (s ++ [x])) as (Hn & Hm & k & Hk & Hsub).
      { apply NoDup_app. split_and!; [done| |apply NoDup_singleton].
        intros y Hy ->%list_elem_of_singleton. done. }
      split_and!; [done| |].
      * intros y. rewrite Hm, elem_of_app, list_elem_of_singleton, elem_of_cons. tauto.
      * exists (x :: k). split; [by rewrite Hk, <- app_assoc|]. by apply sublist_skip.
Qed.

Lemma foldl_setAdd_NoDup (l : list Address) : forall s : list Address,
  NoDup (s ++ l) -> foldl setAdd s l = s ++ l.
Proof.
  induction l as [|x l IH]; intros s Hs; cbn; [by rewrite app_nil_r|].
  unfold setAdd at 2. rewrite decide_False.
  - rewrite IH; [by rewrite <- app_assoc|]. by rewrite <- app_assoc.
  - apply NoDup_app in Hs as (_ & Hdisj & _). intros Hx. apply (Hdisj x Hx). by left.
Qed.

Lemma setFrom_spec (l : list Address) :
  NoDup (setFrom l) /\ (forall x, x ∈ setFrom l <-> x ∈ l) /\ setFrom l `sublist_of` l.
Proof.
  unfold setFrom. destruct (foldl_setAdd l [] (NoDup_nil_2)) as (Hn & Hm & k & Hk & Hsub).
  split_and!; [done| |by rewrite Hk].
  intros x. rewrite Hm, elem_of_nil. tauto.
Qed.

Lemma poolSet_fold (pairRoutes : list (list Address)) : forall s : list Address,
  NoDup s ->
  NoDup (foldl (foldl setAdd) s pairRoutes) /\
  (forall x, x ∈ foldl (foldl setAdd) s pairRoutes
             <-> x ∈ s \/ exists route, route ∈ pairRoutes /\ x ∈ route) /\
  (exists k, foldl (foldl setAdd) s pairRoutes = s ++ k /\ k `sublist_of` concat pairRoutes) /\
  (NoDup (s ++ concat pairRoutes) ->
   foldl (foldl setAdd) s pairRoutes = s ++ concat pairRoutes).
Proof.
  induction pairRoutes as [|route pairRoutes IH]; intros s Hs; cbn.
  - split_and!; [done| | |by rewrite app_nil_r].
    + intros x. split; [by left|]. intros [?|(r & Hr & _)]; [done|].
      by apply elem_of_nil in Hr.
    + exists []. by rewrite app_nil_r.
  - destruct (foldl_setAdd route s Hs) as (Hn1 & Hm1 & k1 & Hk1 & Hsub1).
    destruct (IH _ Hn1) as (Hn & Hm & (k & Hk & Hsub) & Hid).
    split_and!; [done| | |].
    + intros x. rewrite Hm, Hm1. split.
      * intros [[?|?]|(r & ? & ?)]; [by left|right..].
        -- exists route. split; [by left|done].
        -- exists r. split; [by right|done].
      * intros [?|(r & [->|?]%elem_of_cons & ?)]; [by left; left|by left; right|].
        right. by exists r.
    + exists (k1 ++ k). split; [by rewrite Hk, Hk1, <- app_assoc|].
      by apply sublist_app.
    + intros Hnodup. rewrite app_assoc in Hnodup.
      rewrite foldl_setAdd_NoDup in Hid |- * by (by apply NoDup_app in Hnodup as [? _]).
      rewrite Hid by done. by rewrite <- app_assoc.
Qed.

Lemma poolSet_concat (pairRoutes : list (list Address)) : forall s : list Address,
  foldl (foldl setAdd) s pairRoutes = foldl setAdd s (concat pairRoutes).
Proof.
  induction pairRoutes as [|route pairRoutes IH]; intros s; cbn; [done|].
  by rewrite IH, foldl_app.
Qed.

(** Insertion order: a member that comes before another was added before the
    other's first occurrence. *)
Lemma setFrom_order (l : list Address) (i j : nat) (a b : Address) :
  setFrom l !! i = Some a -> setFrom l !! j = Some b -> (i < j)%nat ->
  exists k, l !! k = Some a /\ forall k', (k' <= k)%nat -> l !! k' ≠ Some b.
Proof.
  unfold setFrom. revert i j a b.
  induction l as [|x l IH] using rev_ind; intros i j a b Hi Hj Hlt; [done|].
  rewrite foldl_snoc in Hi, Hj.
  destruct (foldl_setAdd l [] NoDup_nil_2) as (Hn & Hm & _).
  remember (foldl setAdd [] l) as s eqn:Hs. clear Hs.
  assert (Hkeep : forall k y, l !! k = Some y -> (l ++ [x]) !! k = Some y)
    by (intros; by apply lookup_app_l_Some).
  assert (Hold : forall k k', l !! k = Some a -> (k' <= k)%nat ->
            (l ++ [x]) !! k' = l !! k').
  { intros k k' Hk Hle. apply lookup_app_l. apply lookup_lt_Some in Hk. lia. }
  unfold setAdd in Hi, Hj. destruct (decide (x ∈ s)) as [Hx|Hx].
  - destruct (IH i j a b Hi Hj Hlt) as (k & Hk & Hb). exists k. split; [by apply Hkeep|].
    intros k' Hle. rewrite (Hold k k' Hk Hle). by apply Hb.
  - apply lookup_app_Some in Hj as [Hj|[Hge Hj]].
    + apply lookup_app_Some in Hi as [Hi|[Hge _]];
        [|apply lookup_lt_Some in Hj; lia].
      destruct (IH i j a b Hi Hj Hlt) as (k & Hk & Hb). exists k. split; [by apply Hkeep|].
      intros k' Hle. rewrite (Hold k k' Hk Hle). by apply Hb.
    + apply list_lookup_singleton_Some in Hj as [Hj0 <-].
      apply lookup_app_Some in Hi as [Hi|[Hge' _]]; [|lia].
      assert (a ∈ l) as [k Hk]%list_elem_of_lookup.
      { apply list_elem_of_lookup_2 in Hi. apply Hm in Hi as [Hi|Hi]; [|done].
        by apply elem_of_nil in Hi. }
      exists k. split; [by apply Hkeep|].
      intros k' Hle. rewrite (Hold k k' Hk Hle). intros Hk'. apply Hx, Hm. right.
      by eapply list_elem_of_lookup_2.
Qed.

Section Facts.

Variable listPools : list Address -> bool -> Exc (list (option WhirlpoolData)).
Variable listTickArrays : list Address -> bool -> Exc unit.
Variable getTickArrayPublicKeys :
  Z -> Z -> bool -> Address -> option Address -> Exc (list Address).

Local Abbreviation prefetchRoutes' :=
  (prefetchRoutes listPools listTickArrays getTickArrayPublicKeys).

(** X22: the prefetch first asks the fetcher, without refresh, for the pools of the
    routes, each pool once, in the order in which the pools first occur along
    the routes: a pool listed before another occurs along the routes before
    the other's first occurrence.  It does so for every list of routes, the
    empty one included. *)
Theorem prefetchRoutes_lists_each_pool_once (pairRoutes : list (list Address))
    (programId : Address) :
  head (prefetchRoutes' pairRoutes programId).2
    = Some (ListPools (poolSetOf pairRoutes) false) /\
  NoDup (poolSetOf pairRoutes) /\
  (forall a, a ∈ poolSetOf pairRoutes <-> exists route, route ∈ pairRoutes /\ a ∈ route) /\
  (forall i j a b,
     poolSetOf pairRoutes !! i = Some a -> poolSetOf pairRoutes !! j = Some b ->
     (i < j)%nat ->
     exists k, concat pairRoutes !! k = Some a /\
       forall k', (k' <= k)%nat -> concat pairRoutes !! k' ≠ Some b) /\
  poolSetOf pairRoutes `sublist_of` concat pairRoutes /\
  (NoDup (concat pairRoutes) -> poolSetOf pairRoutes = concat pairRoutes).
Proof.
  destruct (poolSet_fold pairRoutes [] NoDup_nil_2) as (Hn & Hm & (k & Hk & Hsub) & Hid).
  unfold poolSetOf.
  split_and!; [|done| | |by rewrite Hk|done].
  - unfold prefetchRoutes. destruct (listPools _ _); [|done].
    by destruct (forEachIndexed _ _ _ _).
  - intros a. rewrite Hm, elem_of_nil. tauto.
  - rewrite poolSet_concat. apply setFrom_order.
Qed.

(** X23: when the prefetch returns it has made two calls: the pools, then, without
    refresh, the tick arrays of the pools the fetcher found.  The addresses
    requested are one group per entry of the fetcher's answer, in its order:
    nothing for a [null] pool, and for a pool that was found the keys of both
    swap directions, each key once. *)
Theorem prefetchRoutes_fetches_tick_arrays_of_found_pools (pairRoutes : list (list Address))
    (programId : Address) (allWps : list (option WhirlpoolData)) :
  listPools (poolSetOf pairRoutes) false = Returns allWps ->
  (prefetchRoutes' pairRoutes programId).1 = Returns tt ->
  exists groups : list (list Address),
    (prefetchRoutes' pairRoutes programId).2
      = [ListPools (poolSetOf pairRoutes) false; ListTickArrays (concat groups) false] /\
    listTickArrays (concat groups) false = Returns tt /\
    length groups = length allWps /\
    forall i group, groups !! i = Some group ->
      NoDup group /\
      match allWps !! i with
      | Some (Some wp) =>
          exists addr1 addr2,
            getTickArrayPublicKeys (tickCurrentIndex wp) (tickSpacing wp) true
              programId (poolSetOf pairRoutes !! i) = Returns addr1 /\
            getTickArrayPublicKeys (tickCurrentIndex wp) (tickSpacing wp) false
              programId (poolSetOf pairRoutes !! i) = Returns addr2 /\
            forall x, x ∈ group <-> x ∈ addr1 \/ x ∈ addr2
      | _ => group = []
      end.
Proof.
  intros Hpools. unfold prefetchRoutes. rewrite Hpools.
  set (ps := poolSetOf pairRoutes).
  destruct (forEachIndexed _ _ _ allWps) as [tickArrayAddresses|] eqn:Hloop; [|done].
  cbn [fst snd]. intros Hlist.
  pose (P := fun (k : nat) (st : list Address) =>
    exists groups : list (list Address),
      st = concat groups /\ length groups = k /\
      forall i group, groups !! i = Some group ->
        NoDup group /\
        match allWps !! i with
        | Some (Some wp) =>
            exists addr1 addr2,
              getTickArrayPublicKeys (tickCurrentIndex wp) (tickSpacing wp) true
                programId (ps !! i) = Returns addr1 /\
              getTickArrayPublicKeys (tickCurrentIndex wp) (tickSpacing wp) false
                programId (ps !! i) = Returns addr2 /\
              forall x, x ∈ group <-> x ∈ addr1 \/ x ∈ addr2
        | _ => group = []
        end).
  assert (HP : P (0 + length allWps)%nat tickArrayAddresses).
  { apply (forEachIndexed_invariant _ P allWps 0%nat _ _ Hloop).
    - exists []. by split_and!.
    - intros k wp st st' Hk (groups & -> & Hlen & Hgroups) Hstep. cbn in Hk, Hlen, Hstep |- *.
      unfold tickArraysOfPool in Hstep.
      assert (Hold : forall i group, groups !! i = Some group ->
                (groups ++ [group]) !! i = Some group) by (intros; by apply lookup_app_l_Some).
      destruct wp as [wp|].
      + destruct (getTickArrayPublicKeys _ _ true _ _) as [addr1|] eqn:H1; [|done].
        destruct (getTickArrayPublicKeys _ _ false _ _) as [addr2|] eqn:H2; [|done].
        cbn in Hstep. injection Hstep as <-.
        destruct (setFrom_spec (addr1 ++ addr2)) as (Hn & Hm & _).
        exists (groups ++ [setFrom (addr1 ++ addr2)]). split_and!.
        * rewrite concat_app. cbn. by rewrite app_nil_r.
        * rewrite length_app. cbn. lia.
        * intros i group Hi. apply lookup_app_Some in Hi as [Hi|[Hge Hi]]; [by apply Hgroups|].
          rewrite Hlen in Hge, Hi.
          destruct (i - k)%nat as [|n] eqn:Hik; [|done]. injection Hi as <-.
          assert (i = k) as -> by lia. rewrite Hk. split; [done|].
          exists addr1, addr2. split_and!; [done..|].
          intros x. by rewrite Hm, elem_of_app.
      + injection Hstep as <-. exists (groups ++ [[]]). split_and!.
        * rewrite concat_app. cbn. by rewrite app_nil_r.
        * rewrite length_app. cbn. lia.
        * intros i group Hi. apply lookup_app_Some in Hi as [Hi|[Hge Hi]]; [by apply Hgroups|].
          rewrite Hlen in Hge, Hi.
          destruct (i - k)%nat as [|n] eqn:Hik; [|done]. injection Hi as <-.
          assert (i = k) as -> by lia. rewrite Hk. split; [apply NoDup_nil_2|done]. }
  destruct HP as (groups & -> & Hlen & Hgroups).
  exists groups. by split_and!.
Qed.

(** A fetcher that fails to list the pools ends the prefetch there: the
    exception is the prefetch's own, and no tick array is asked for. *)
Lemma prefetchRoutes_pools_fault (pairRoutes : list (list Address)) (programId : Address)
    (e : Thrown) :
  listPools (poolSetOf pairRoutes) false = Throws e ->
  prefetchRoutes' pairRoutes programId
    = (Throws e, [ListPools (poolSetOf pairRoutes) false]).
Proof. intros Hpools. unfold prefetchRoutes. by rewrite Hpools. Qed.

End Facts.

End PrefetchFacts.

Import Vocabulary Chains.

(** ** The quote map the hop loop returns *)

Lemma successHops_le (hops : list (option HopResult)) :
  (length (successHops hops) <= length hops)%nat.
Proof.
  unfold successHops. induction hops as [|x hops IH]; cbn; [done|].
  destruct x as [[h|c]|]; cbn; lia.
Qed.

(** A chain with as many Success results as slots has nothing else. *)
Lemma successHops_complete (hops : list (option HopResult)) :
  length (successHops hops) = length hops ->
  hops = (fun h => Some (HopSuccess h)) <$> successHops hops.
Proof.
  induction hops as [|x hops IH]; [done|].
  pose proof (successHops_le hops) as Hle. unfold successHops in *. cbn.
  destruct x as [[h|c]|]; cbn; intros Hlen; try lia.
  f_equal. apply IH. lia.
Qed.

Section LoopResult.

Variable swapQuoteWithParams : option SwapQuoteParam -> Exc SwapQuote.
Variable batchBuildSwapQuoteParams : list SwapQuoteRequest -> Exc (list SwapQuoteParam).
Variables inputTokenMint outputTokenMint : Address.
Variable pools : gmap Address TokenPairPool.
Variable pairRoutes : list (list Address).
Variables percents amounts : list Z.
Variable dir : bool.
Variable quoteMap : QuoteMap.

Hypothesis percents_NoDup : NoDup (zip percents amounts).*1.
Hypothesis quoted :
  quoteAllHops swapQuoteWithParams batchBuildSwapQuoteParams inputTokenMint outputTokenMint
    pools pairRoutes percents amounts dir
    (hopIteration (max_list (length <$> pairRoutes)) dir)
  = Returns quoteMap.

Lemma final_entry_indexed (p : Z) (r : nat) (q : InternalRouteQuote) :
  entryAt quoteMap p r = Some q ->
  exists amt,
    (p, amt) ∈ zip percents amounts /\
    pairRoutes !! r = Some (irq_route q) /\
    irq_percent q = p /\
    (1 <= length (irq_route q))%nat /\
    chainShape dir (length (irq_route q)) (length (irq_route q)) (irq_calculatedHops q).
Proof.
  intros Hq.
  destruct (quoteAllHops_hopsQuoted _ _ _ _ _ _ _ _ _ percents_NoDup _ quoted)
    as (Hsized & Hdom & Hshape).
  assert (is_Some (quoteMap !! p)) as Hp by (eapply entryAt_is_Some_bucket; eauto).
  pose proof (Hdom p Hp) as Hin.
  apply list_elem_of_fmap in Hin as ([p' amt] & -> & Hin). cbn in *.
  destruct Hp as [bucket Hb].
  assert (r < length pairRoutes)%nat as Hr.
  { rewrite <- (Hsized _ _ Hb). unfold entryAt in Hq. rewrite Hb in Hq. cbn in Hq.
    by eapply arrGet_Some_lt. }
  destruct (lookup_lt_is_Some_2 _ _ Hr) as [route Hroute].
  specialize (Hshape p' amt r route Hin Hroute).
  replace (doneAt _ _ _ (length route)) with (length route) in Hshape.
  2:{ pose proof (route_length_le pairRoutes r route Hroute).
      unfold doneAt. destruct dir; lia. }
  unfold entryShaped in Hshape. destruct (length route) eqn:Hlen; [congruence|].
  destruct Hshape as (q' & Hq' & Hp' & Hr' & Hchain).
  assert (q' = q) as -> by congruence. subst route. rewrite Hlen.
  exists amt. split_and!; [done..|lia|done].
Qed.

(** X13: the quote map the hop loop returns is a table of percentages by routes:
    its keys are among the percentages, and are all of them once some route
    holds a hop; every bucket has one slot per route; and the entry in bucket
    [p] at index [r] carries [p] as its percentage and route [r] as its route,
    with a chain of one slot per hop. *)
Theorem quote_map_is_indexed_by_percent_and_route :
  (forall p bucket, quoteMap !! p = Some bucket ->
     p ∈ (zip percents amounts).*1 /\ length bucket = length pairRoutes) /\
  (Exists (fun route => route ≠ []) pairRoutes ->
   forall p, p ∈ (zip percents amounts).*1 -> is_Some (quoteMap !! p)) /\
  (forall p r q, entryAt quoteMap p r = Some q ->
     irq_percent q = p /\ pairRoutes !! r = Some (irq_route q) /\
     length (irq_calculatedHops q) = length (irq_route q)).
Proof.
  destruct (quoteAllHops_hopsQuoted _ _ _ _ _ _ _ _ _ percents_NoDup _ quoted)
    as (Hsized & Hdom & Hshape).
  split_and!.
  - intros p bucket Hb. split; [apply Hdom; eauto|by eapply Hsized].
  - intros (route & [r Hr]%list_elem_of_lookup & Hnil)%Exists_exists p
           ([p' amt] & -> & Hin)%list_elem_of_fmap.
    specialize (Hshape p' amt r route Hin Hr).
    pose proof (route_length_le pairRoutes r route Hr) as Hle.
    replace (doneAt dir _ _ (length route)) with (length route) in Hshape
      by (unfold doneAt; destruct dir; lia).
    destruct (length route) eqn:Hlen; [by destruct route|].
    cbn in Hshape. destruct Hshape as (q & Hq & _).
    apply (entryAt_is_Some_bucket quoteMap p' r). by rewrite Hq.
  - intros p r q Hq.
    destruct (final_entry_indexed p r q Hq) as (amt & _ & Hroute & Hp & _ & Hlen & _).
    done.
Qed.

(** X14: every Success hop of the quote map the hop loop returns carries the
    percentage of its bucket and, as [whirlpool], the address of the pool its
    route has at the hop's position: counted from the front of the route when
    the route's first pool holds the input token, from the back when not. *)
Theorem success_hops_carry_bucket_and_pool (p : Z) (r k : nat) (q : InternalRouteQuote)
    (h : SuccessHop) :
  entryAt quoteMap p r = Some q ->
  arrGet (irq_calculatedHops q) k = Some (HopSuccess h) ->
  hop_percent h = p /\
  exists pool,
    poolAt inputTokenMint pools (irq_route q) k = Some pool /\
    hop_whirlpool h = pool_address pool.
Proof.
  intros Hq Hk.
  destruct (final_entry_indexed p r q Hq) as (amt & Hin & Hroute & _).
  exact (quoteAllHops_labelled _ _ _ _ _ _ _ _ _ percents_NoDup _ quoted
           p amt r _ q Hin Hroute Hq k h Hk).
Qed.

Hypothesis batch_echo :
  forall requests quoteParams i request param,
    batchBuildSwapQuoteParams requests = Returns quoteParams ->
    requests !! i = Some request -> quoteParams !! i = Some param ->
    sp_tokenAmount param = req_tokenAmount request /\
    sp_amountSpecifiedIsInput param = req_amountSpecifiedIsInput request.

Lemma final_entry_linked (p amt : Z) (r : nat) (q : InternalRouteQuote) :
  (p, amt) ∈ zip percents amounts ->
  entryAt quoteMap p r = Some q ->
  chainLinked dir amt (length (irq_route q)) (irq_calculatedHops q).
Proof.
  intros Hin Hq.
  destruct (final_entry_indexed p r q Hq) as (_ & _ & Hroute & _).
  exact (quoteAllHops_linked _ _ _ _ _ _ _ _ _ percents_NoDup batch_echo _ quoted
           p amt r _ q Hin Hroute Hq).
Qed.

(** X15: when the parameter builder hands each request's amount and direction on
    to the parameter at the same position, the Success hops of every chain
    hand the amount on.  With the input fixed, hop 0 has the slice amount as
    [amountIn] and every later Success hop has as [amountIn] the [amountOut]
    of the hop before it; with the output fixed, the last hop has the slice
    amount as [amountOut] and every earlier Success hop has as [amountOut] the
    [amountIn] of the hop after it. *)
Theorem chain_hands_amounts_on (p amt : Z) (r : nat) (q : InternalRouteQuote) :
  (p, amt) ∈ zip percents amounts ->
  entryAt quoteMap p r = Some q ->
  if dir then
    (forall h, arrGet (irq_calculatedHops q) 0 = Some (HopSuccess h) ->
       hop_amountIn h = amt) /\
    (forall k h, arrGet (irq_calculatedHops q) (S k) = Some (HopSuccess h) ->
       exists h', arrGet (irq_calculatedHops q) k = Some (HopSuccess h') /\
         hop_amountIn h = hop_amountOut h')
  else
    (forall h, arrGet (irq_calculatedHops q) (length (irq_route q) - 1)
                 = Some (HopSuccess h) ->
       hop_amountOut h = amt) /\
    (forall k h, (S k < length (irq_route q))%nat ->
       arrGet (irq_calculatedHops q) k = Some (HopSuccess h) ->
       exists h', arrGet (irq_calculatedHops q) (S k) = Some (HopSuccess h') /\
         hop_amountOut h = hop_amountIn h').
Proof.
  intros Hin Hq.
  pose proof (final_entry_linked p amt r q Hin Hq) as Hlinked.
  destruct (final_entry_indexed p r q Hq) as (_ & _ & _ & _ & Hpos & Hlen & _).
  unfold chainLinked, slotOf, fixedSide, freeSide in Hlinked.
  destruct dir.
  - split.
    + intros h Hh. apply (Hlinked 0%nat h); [lia|done].
    + intros k h Hh. apply (Hlinked (S k) h); [|done].
      apply arrGet_Some_lt in Hh. lia.
  - split.
    + intros h Hh. apply (Hlinked 0%nat h); [lia|].
      by replace (length (irq_route q) - 1 - 0)%nat with (length (irq_route q) - 1)%nat
        by lia.
    + intros k h Hk Hh.
      pose proof (Hlinked (S (length (irq_route q) - 2 - k)) h) as Hl.
      replace (length (irq_route q) - 1 - S (length (irq_route q) - 2 - k))%nat
        with k in Hl by lia.
      replace (length (irq_route q) - 1 - (length (irq_route q) - 2 - k))%nat
        with (S k) in Hl by lia.
      apply Hl; [lia|done].
Qed.

End LoopResult.

(** ** The cleaned route quotes *)

Section CleanedQuotes.

Variable swapQuoteWithParams : option SwapQuoteParam -> Exc SwapQuote.
Variable batchBuildSwapQuoteParams : list SwapQuoteRequest -> Exc (list SwapQuoteParam).
Variables inputTokenMint outputTokenMint : Address.
Variable pools : gmap Address TokenPairPool.
Variable pairRoutes : list (list Address).
Variables percents amounts : list Z.
Variable dir : bool.
Variable quoteMap : QuoteMap.

Hypothesis percents_NoDup : NoDup (zip percents amounts).*1.
Hypothesis quoted :
  quoteAllHops swapQuoteWithParams batchBuildSwapQuoteParams inputTokenMint outputTokenMint
    pools pairRoutes percents amounts dir
    (hopIteration (max_list (length <$> pairRoutes)) dir)
  = Returns quoteMap.

(** With every route holding a hop, [categorizeQuotes] can digest every entry
    of the quote map the hop loop returns. *)
Lemma final_entries_good (p : Z) (bucket : list (option InternalRouteQuote)) :
  Forall (fun route => route ≠ []) pairRoutes ->
  quoteMap !! p = Some bucket -> Forall entryGood bucket.
Proof.
  intros Hne Hb. apply Forall_lookup. intros r e Hr.
  destruct (final_buckets_full _ _ _ _ _ _ _ _ _ _ percents_NoDup quoted
              p bucket r Hne Hb (lookup_lt_Some _ _ _ Hr)) as [q Hq].
  assert (e = Some q) as -> by congruence. exists q. split; [done|].
  assert (entryAt quoteMap p r = Some q) as Hentry.
  { unfold entryAt. rewrite Hb. cbn. unfold arrGet. by rewrite Hq. }
  destruct (final_entry_indexed _ _ _ _ _ _ _ _ _ _ percents_NoDup quoted p r q Hentry)
    as (_ & _ & _ & _ & Hpos & Hchain).
  apply chainShape_counts in Hchain as (s & Hs & Hsucc & Hfail).
  destruct (decide (s < length (irq_route q))%nat) as [Hlt|Hge].
  - right. split; [lia|]. intros Hnil. by rewrite Hnil in Hfail.
  - left. split; [lia|done].
Qed.

Hypothesis batch_echo :
  forall requests quoteParams i request param,
    batchBuildSwapQuoteParams requests = Returns quoteParams ->
    requests !! i = Some request -> quoteParams !! i = Some param ->
    sp_tokenAmount param = req_tokenAmount request /\
    sp_amountSpecifiedIsInput param = req_amountSpecifiedIsInput request.

Lemma cleaned_quote_chain (tradeAmount : Z) (cleaned : CleanQuoteMap)
    (failures : gset (option SwapErrorCode)) (p amt : Z) (quotes : list RouteQuote)
    (rq : RouteQuote) :
  categorizeQuotes tradeAmount dir quoteMap = Returns (cleaned, failures) ->
  (p, amt) ∈ zip percents amounts ->
  cleaned !! p = Some quotes -> rq ∈ quotes ->
  length (rq_calculatedHops rq) = length (rq_route rq) /\
  (if dir then hop_amountIn <$> head (rq_calculatedHops rq) = Some amt
   else hop_amountOut <$> last (rq_calculatedHops rq) = Some amt) /\
  (forall k h h',
     rq_calculatedHops rq !! k = Some h -> rq_calculatedHops rq !! S k = Some h' ->
     hop_amountIn h' = hop_amountOut h).
Proof.
  intros Hcat Hin Hquotes Hrq.
  destruct (categorizeQuotes_Returns _ _ _ _ _ Hcat p quotes rq Hquotes Hrq)
    as (bucket & q & Hb & Hq & Hp & Hroute & Hhops & Hlen & Hside).
  apply list_elem_of_lookup in Hq as [r Hr].
  assert (entryAt quoteMap p r = Some q) as Hentry.
  { unfold entryAt. rewrite Hb. cbn. unfold arrGet. by rewrite Hr. }
  destruct (final_entry_indexed _ _ _ _ _ _ _ _ _ _ percents_NoDup quoted p r q Hentry)
    as (_ & _ & _ & _ & Hpos & Hclen & _).
  pose proof (final_entry_linked _ _ _ _ _ _ _ _ _ _ percents_NoDup quoted batch_echo
                p amt r q Hin Hentry) as Hlinked.
  assert (Hall : irq_calculatedHops q
                 = (fun h => Some (HopSuccess h)) <$> rq_calculatedHops rq).
  { rewrite Hhops. apply successHops_complete. rewrite <- Hhops. congruence. }
  assert (Hget : forall k h, rq_calculatedHops rq !! k = Some h ->
            arrGet (irq_calculatedHops q) k = Some (HopSuccess h)).
  { intros k h Hk. unfold arrGet. rewrite Hall, list_lookup_fmap, Hk. done. }
  rewrite Hroute. split; [done|].
  unfold chainLinked, slotOf, fixedSide, freeSide in Hlinked.
  set (len := length (irq_route q)) in *.
  split.
  - destruct dir.
    + rewrite head_lookup.
      destruct (lookup_lt_is_Some_2 (rq_calculatedHops rq) 0) as [h Hh]; [lia|].
      rewrite Hh. cbn. f_equal. apply (Hlinked 0%nat h); [lia|by apply Hget].
    + rewrite last_lookup.
      destruct (lookup_lt_is_Some_2 (rq_calculatedHops rq) (Init.Nat.pred len))
        as [h Hh]; [lia|].
      rewrite Hlen. fold len. rewrite Hh. cbn. f_equal.
      apply (Hlinked 0%nat h); [lia|]. apply Hget.
      by replace (len - 1 - 0)%nat with (Init.Nat.pred len) by lia.
  - intros k h h' Hk Hk'.
    assert (S k < len)%nat as Hklen by (apply lookup_lt_Some in Hk'; lia).
    destruct dir.
    + destruct (Hlinked (S k) h' Hklen (Hget _ _ Hk')) as (h0 & Hh0 & ->).
      rewrite (Hget _ _ Hk) in Hh0. by injection Hh0 as <-.
    + pose proof (Hlinked (S (len - 2 - k)) h) as Hl.
      replace (len - 1 - S (len - 2 - k))%nat with k in Hl by lia.
      replace (len - 1 - (len - 2 - k))%nat with (S k) in Hl by lia.
      destruct (Hl ltac:(lia) (Hget _ _ Hk)) as (h0 & Hh0 & Heq).
      rewrite (Hget _ _ Hk') in Hh0. injection Hh0 as <-. done.
Qed.

(** X16: the hops of a cleaned route quote, when the parameter builder hands each
    request's amount and direction on: there is one per pool of the route,
    each hop's [amountIn] is the [amountOut] of the hop before it, and the hop
    at the fixed end was quoted for the slice amount of the quote's
    percentage (the first hop's [amountIn] when the input is fixed, the last
    hop's [amountOut] when the output is). *)
Theorem route_quote_hops_hand_amounts_on (tradeAmount : Z) (cleaned : CleanQuoteMap)
    (failures : gset (option SwapErrorCode)) (p amt : Z) (quotes : list RouteQuote)
    (rq : RouteQuote) :
  categorizeQuotes tradeAmount dir quoteMap = Returns (cleaned, failures) ->
  (p, amt) ∈ zip percents amounts ->
  cleaned !! p = Some quotes -> rq ∈ quotes ->
  length (rq_calculatedHops rq) = length (rq_route rq) /\
  (if dir then hop_amountIn <$> head (rq_calculatedHops rq) = Some amt
   else hop_amountOut <$> last (rq_calculatedHops rq) = Some amt) /\
  (forall k h h',
     rq_calculatedHops rq !! k = Some h -> rq_calculatedHops rq !! S k = Some h' ->
     hop_amountIn h' = hop_amountOut h).
Proof. apply cleaned_quote_chain. Qed.

(** X25: in the bucket of the whole amount the amounts stamped on a route
    quote are those of its chain, when the parameter builder hands each
    request's amount and direction on: for the slices of the slicer and a
    route quote of bucket 100, [amountIn] is the first hop's [amountIn] and
    [amountOut] the last hop's [amountOut], in either direction, and the fixed
    one of the two is the trade amount. *)
Theorem full_bucket_quote_agrees_with_chain (fuel : nat) (tradeAmount minPercent : Z)
    (cleaned : CleanQuoteMap) (failures : gset (option SwapErrorCode))
    (quotes : list RouteQuote) (rq : RouteQuote) :
  generatePercentageAmounts fuel tradeAmount minPercent = Some (percents, amounts) ->
  categorizeQuotes tradeAmount dir quoteMap = Returns (cleaned, failures) ->
  cleaned !! 100 = Some quotes -> rq ∈ quotes ->
  hop_amountIn <$> head (rq_calculatedHops rq) = Some (rq_amountIn rq) /\
  hop_amountOut <$> last (rq_calculatedHops rq) = Some (rq_amountOut rq) /\
  (if dir then rq_amountIn rq else rq_amountOut rq) = tradeAmount.
Proof.
  intros Hslice Hcat Hquotes Hrq.
  assert (Hin : (100, tradeAmount) ∈ zip percents amounts).
  { destruct (categorizeQuotes_Returns _ _ _ _ _ Hcat 100 quotes rq Hquotes Hrq)
      as (bucket & _ & Hb & _).
    destruct (quoteAllHops_hopsQuoted _ _ _ _ _ _ _ _ _ percents_NoDup _ quoted)
      as (_ & Hkeys & _).
    assert (is_Some (quoteMap !! 100)) as Hsome by eauto.
    apply Hkeys in Hsome. apply list_elem_of_fmap in Hsome as ([p amt] & Hp & Hpair).
    cbn in Hp. subst p.
    apply sliceLoop_Some in Hslice as (_ & k & [= Hps Has]). cbn [app] in Hps, Has.
    assert (amt = tradeAmount) as ->; [|done].
    apply list_elem_of_lookup in Hpair as [i Hi].
    rewrite lookup_zip_with in Hi.
    destruct (percents !! i) as [p|] eqn:Hpi; [|done]. cbn in Hi.
    destruct (amounts !! i) as [a|] eqn:Hai; [|done]. cbn in Hi.
    injection Hi as -> ->.
    rewrite Hps, list_lookup_fmap in Hpi. rewrite Has, list_lookup_fmap in Hai.
    destruct (seqZ 1 (Z.of_nat k) !! i) as [j|]; [|done]. cbn in Hpi, Hai.
    injection Hpi as Hj. injection Hai as <-. rewrite <- Hj.
    apply Z.quot_mul. lia. }
  destruct (categorizeQuotes_Returns _ _ _ _ _ Hcat 100 quotes rq Hquotes Hrq)
    as (_ & _ & _ & _ & _ & _ & _ & _ & Hside).
  destruct (cleaned_quote_chain tradeAmount cleaned failures 100 tradeAmount
              quotes rq Hcat Hin Hquotes Hrq) as (_ & Hfixed & _).
  destruct dir.
  - destruct Hside as [-> Hout]. by split_and!.
  - destruct Hside as [-> Hinp]. by split_and!.
Qed.

End CleanedQuotes.

(** ** How [findBestRoutes] settles *)

Section OptimizerOutcomes.

Variable swapQuoteWithParams : option SwapQuoteParam -> Exc SwapQuote.
Variable batchBuildSwapQuoteParams : list SwapQuoteRequest -> Exc (list SwapQuoteParam).
Variable prefetchRoutes : list (list Address) -> Exc unit.
Variable getRouteId : Address -> Address -> string.
Variable getRankedRoutes : CleanQuoteMap -> bool -> Z -> Z -> list TradeRoute.

Local Abbreviation findBestRoutes' :=
  (findBestRoutes swapQuoteWithParams batchBuildSwapQuoteParams prefetchRoutes getRouteId
     getRankedRoutes).
Local Abbreviation rankedCombinations := (Vocabulary.rankedCombinations getRankedRoutes).
Local Abbreviation reachesRanking :=
  (Vocabulary.reachesRanking swapQuoteWithParams batchBuildSwapQuoteParams prefetchRoutes
     getRouteId).

(** The call up to the hop loop. *)
Lemma findBestRoutes_to_loop (fuel : nat) (inputTokenMint outputTokenMint : Address)
    (tradeAmount : Z) (dir : bool) (walks : gmap string (list (list Address)))
    (pools : gmap Address TokenPairPool) (user : PartialRoutingOptions)
    (pairRoutes : list (list Address)) :
  walks !! getRouteId inputTokenMint outputTokenMint = Some pairRoutes ->
  tradeAmount ≠ 0 ->
  prefetchRoutes pairRoutes = Returns tt ->
  percentIncrement (mergeRoutingOptions user) ≠ 0 ->
  (Z.to_nat (100 / percentIncrement (mergeRoutingOptions user)) < fuel)%nat ->
  pairRoutes ≠ [] ->
  exists percents amounts,
    NoDup (zip percents amounts).*1 /\
    percents = slicePercents (percentIncrement (mergeRoutingOptions user)) /\
    length amounts = length percents /\
    findBestRoutes' fuel inputTokenMint outputTokenMint tradeAmount dir walks pools user =
    match quoteAllHops swapQuoteWithParams batchBuildSwapQuoteParams inputTokenMint
            outputTokenMint pools pairRoutes percents amounts dir
            (hopIteration (max_list (length <$> pairRoutes)) dir) with
    | Throws e =>
        match stackOf e with
        | Throws e' => Some (Rejected (Uncaught e'))
        | Returns stack => Some (Resolved (BestRoutesFailure GENERAL (Some stack)))
        end
    | Returns quoteMap =>
        Some (rankQuotes getRankedRoutes tradeAmount dir (mergeRoutingOptions user) quoteMap)
    end.
Proof.
  intros Hwalk Hzero Hpre Hinc Hfuel Hne.
  pose proof (generatePercentageAmounts_run_nonzero tradeAmount _ _ Hinc Hfuel) as Hslice.
  eexists _, _. split_and!.
  - by eapply generatePercentageAmounts_distinct.
  - done.
  - by rewrite length_fmap.
  - unfold findBestRoutes. rewrite Hwalk.
    destruct (Z.eqb_spec tradeAmount 0); [done|].
    rewrite Hpre, Hslice. by destruct pairRoutes.
Qed.

(** X17: on well-formed input the call resolves, and never with GENERAL: when the
    pair has a non-empty list of routes, every route has a hop, every pool of
    every route is in [pools], the prefetch returns, the increment is not 0,
    the parameter builder returns for requests naming pools of [pools] and
    the quote engine throws neither [null] nor [undefined], then, given fuel
    for the slicer, [findBestRoutes] resolves, whatever the quote engine
    returns or else throws, either to a list of routes or to the
    TRADE_AMOUNT_TOO_HIGH failure. *)
Theorem findBestRoutes_resolves (fuel : nat) (inputTokenMint outputTokenMint : Address)
    (tradeAmount : Z) (dir : bool) (walks : gmap string (list (list Address)))
    (pools : gmap Address TokenPairPool) (user : PartialRoutingOptions)
    (pairRoutes : list (list Address)) :
  walks !! getRouteId inputTokenMint outputTokenMint = Some pairRoutes ->
  tradeAmount ≠ 0 ->
  prefetchRoutes pairRoutes = Returns tt ->
  percentIncrement (mergeRoutingOptions user) ≠ 0 ->
  (Z.to_nat (100 / percentIncrement (mergeRoutingOptions user)) < fuel)%nat ->
  pairRoutes ≠ [] ->
  Forall (fun route => route ≠ []) pairRoutes ->
  (forall route a, route ∈ pairRoutes -> a ∈ route -> is_Some (pools !! a)) ->
  (forall requests,
     (forall request, request ∈ requests ->
        exists a pool, pools !! a = Some pool /\ req_whirlpool request = pool_address pool) ->
     exists quoteParams, batchBuildSwapQuoteParams requests = Returns quoteParams) ->
  (forall swapParam, swapQuoteWithParams swapParam ≠ Throws Nullish) ->
  findBestRoutes' fuel inputTokenMint outputTokenMint tradeAmount dir walks pools user
    = Some (Resolved (BestRoutesFailure TRADE_AMOUNT_TOO_HIGH None)) \/
  exists bestRoutes,
    findBestRoutes' fuel inputTokenMint outputTokenMint tradeAmount dir walks pools user
      = Some (Resolved (BestRoutes bestRoutes)).
Proof.
  intros Hwalk Hzero Hpre Hinc Hfuel Hne Hhops Hknown Hbatch Hengine.
  destruct (findBestRoutes_to_loop fuel inputTokenMint outputTokenMint tradeAmount dir
              walks pools user pairRoutes Hwalk Hzero Hpre Hinc Hfuel Hne)
    as (percents & amounts & Hnodup & _ & _ & ->).
  destruct (quoteAllHops_returns swapQuoteWithParams batchBuildSwapQuoteParams
              inputTokenMint outputTokenMint pools pairRoutes percents amounts dir
              Hnodup Hknown Hbatch Hengine) as [quoteMap Hloop].
  rewrite Hloop. unfold rankQuotes.
  destruct (categorizeQuotes_returns tradeAmount dir quoteMap) as (cleaned & failures & ->).
  { intros p bucket Hb. by eapply final_entries_good. }
  cbn. destruct (bool_decide _ && bool_decide _); eauto.
Qed.

(** X18: a parameter builder that throws makes the call resolve to the GENERAL
    failure carrying what was thrown: with some route holding a hop and every
    pool of every route in [pools], the first batch is built and handed to
    the parameter builder, and its exception is caught by the [try] around
    the hop loop.  When what was thrown is [null] or [undefined], the [catch]
    clause's read of [e.stack] throws, and the call is rejected with that
    TypeError. *)
Theorem findBestRoutes_batch_failure_is_general (fuel : nat)
    (inputTokenMint outputTokenMint : Address)
    (tradeAmount : Z) (dir : bool) (walks : gmap string (list (list Address)))
    (pools : gmap Address TokenPairPool) (user : PartialRoutingOptions)
    (pairRoutes : list (list Address)) (e : Thrown) :
  walks !! getRouteId inputTokenMint outputTokenMint = Some pairRoutes ->
  tradeAmount ≠ 0 ->
  prefetchRoutes pairRoutes = Returns tt ->
  percentIncrement (mergeRoutingOptions user) ≠ 0 ->
  (Z.to_nat (100 / percentIncrement (mergeRoutingOptions user)) < fuel)%nat ->
  Exists (fun route => route ≠ []) pairRoutes ->
  (forall route a, route ∈ pairRoutes -> a ∈ route -> is_Some (pools !! a)) ->
  (forall requests, batchBuildSwapQuoteParams requests = Throws e) ->
  (e ≠ Nullish ->
   findBestRoutes' fuel inputTokenMint outputTokenMint tradeAmount dir walks pools user
     = Some (Resolved (BestRoutesFailure GENERAL (Some e)))) /\
  (e = Nullish ->
   findBestRoutes' fuel inputTokenMint outputTokenMint tradeAmount dir walks pools user
     = Some (Rejected (Uncaught TypeError))).
Proof.
  intros Hwalk Hzero Hpre Hinc Hfuel Hex Hknown Hbatch.
  assert (Hne : pairRoutes ≠ []) by (intros ->; by apply Exists_nil in Hex).
  destruct (findBestRoutes_to_loop fuel inputTokenMint outputTokenMint tradeAmount dir
              walks pools user pairRoutes Hwalk Hzero Hpre Hinc Hfuel Hne)
    as (percents & amounts & Hnodup & _ & _ & ->).
  assert (Hmax : (1 <= max_list (length <$> pairRoutes))%nat).
  { apply Exists_exists in Hex as (route & Hroute & Hnil).
    apply list_elem_of_lookup in Hroute as [r Hr].
    pose proof (route_length_le pairRoutes r route Hr).
    destruct route; [done|]. cbn in *. lia. }
  destruct (lookup_lt_is_Some_2 (hopIteration (max_list (length <$> pairRoutes)) dir) 0)
    as [hop Hhop]; [rewrite hopIteration_length; lia|].
  destruct (hopIteration (max_list (length <$> pairRoutes)) dir) as [|hop' rest] eqn:Hiter;
    [done|].
  injection Hhop as ->.
  destruct (buildQuoteUpdateRequests_returns_in_loop inputTokenMint outputTokenMint pools
              pairRoutes percents amounts dir Hnodup Hknown 0 hop ∅) as (us & qm1 & Hbuild).
  { by rewrite Hiter. }
  { split_and!.
    - intros p b. by rewrite lookup_empty.
    - intros p [b Hb]. by rewrite lookup_empty in Hb.
    - intros p amt r route Hin Hroute.
      pose proof (route_length_le pairRoutes r route Hroute) as Hle.
      replace (doneAt dir _ 0 (length route)) with 0%nat
        by (unfold doneAt; destruct dir; lia).
      cbn. unfold entryAt. by rewrite lookup_empty. }
  assert (Hturn : quoteHop swapQuoteWithParams batchBuildSwapQuoteParams inputTokenMint
                    outputTokenMint pools pairRoutes percents amounts dir ∅ hop = Throws e).
  { unfold quoteHop. rewrite Hbuild. cbn. by rewrite Hbatch. }
  unfold quoteAllHops. cbn [forEach]. rewrite Hturn. cbn.
  split; [by destruct e|by intros ->].
Qed.

(** X26: a quote engine that throws [null] or [undefined] is not isolated like
    one that throws an error: with some route holding a hop, known pools, a
    working parameter builder and an increment between 1 and 100, the first
    batch holds a request, the [catch] block of [updateQuoteMap] throws a
    TypeError on reading [e.errorCode], the hop loop stops there, and the call
    resolves to the GENERAL failure carrying that TypeError. *)
Theorem findBestRoutes_unreadable_engine_error_is_general (fuel : nat)
    (inputTokenMint outputTokenMint : Address)
    (tradeAmount : Z) (dir : bool) (walks : gmap string (list (list Address)))
    (pools : gmap Address TokenPairPool) (user : PartialRoutingOptions)
    (pairRoutes : list (list Address)) :
  walks !! getRouteId inputTokenMint outputTokenMint = Some pairRoutes ->
  tradeAmount ≠ 0 ->
  prefetchRoutes pairRoutes = Returns tt ->
  0 < percentIncrement (mergeRoutingOptions user) <= 100 ->
  (Z.to_nat (100 / percentIncrement (mergeRoutingOptions user)) < fuel)%nat ->
  Exists (fun route => route ≠ []) pairRoutes ->
  (forall route a, route ∈ pairRoutes -> a ∈ route -> is_Some (pools !! a)) ->
  (forall requests,
     (forall request, request ∈ requests ->
        exists a pool, pools !! a = Some pool /\ req_whirlpool request = pool_address pool) ->
     exists quoteParams, batchBuildSwapQuoteParams requests = Returns quoteParams) ->
  (forall swapParam, swapQuoteWithParams swapParam = Throws Nullish) ->
  findBestRoutes' fuel inputTokenMint outputTokenMint tradeAmount dir walks pools user
    = Some (Resolved (BestRoutesFailure GENERAL (Some TypeError))).
Proof.
  intros Hwalk Hzero Hpre Hinc Hfuel Hex Hknown Hbatch Hengine.
  assert (Hne : pairRoutes ≠ []) by (intros ->; by apply Exists_nil in Hex).
  destruct (findBestRoutes_to_loop fuel inputTokenMint outputTokenMint tradeAmount dir
              walks pools user pairRoutes Hwalk Hzero Hpre ltac:(lia) Hfuel Hne)
    as (percents & amounts & Hnodup & Hpercents & Hlen & ->).
  set (maxLen := max_list (length <$> pairRoutes)).
  assert (Hmax : (1 <= maxLen)%nat).
  { apply Exists_exists in Hex as (route & Hroute & Hnil).
    apply list_elem_of_lookup in Hroute as [r Hr].
    pose proof (route_length_le pairRoutes r route Hr).
    destruct route; [done|]. cbn in *. unfold maxLen. lia. }
  (* a slice, and a longest route *)
  assert (exists p amt, (p, amt) ∈ zip percents amounts) as (p & amt & Hin).
  { assert (1 <= 100 / percentIncrement (mergeRoutingOptions user))
      by (apply Z.div_le_lower_bound; lia).
    destruct (lookup_lt_is_Some_2 percents 0) as [p Hp].
    { rewrite Hpercents. unfold slicePercents. rewrite length_fmap, length_seqZ. lia. }
    destruct (lookup_lt_is_Some_2 amounts 0) as [amt Hamt].
    { rewrite Hlen. by eapply lookup_lt_Some. }
    exists p, amt. apply list_elem_of_lookup. exists 0%nat.
    rewrite lookup_zip_with, Hp. cbn. by rewrite Hamt. }
  assert (exists r route, pairRoutes !! r = Some route /\ length route = maxLen)
    as (r & route & Hroute & Hlong).
  { assert (maxLen ∈ length <$> pairRoutes) as (route & Hl & Hr)%list_elem_of_fmap.
    { apply max_list_elem_of. by destruct pairRoutes. }
    apply list_elem_of_lookup in Hr as [r Hr]. by exists r, route. }
  (* the first turn *)
  destruct (lookup_lt_is_Some_2 (hopIteration maxLen dir) 0)
    as [hop Hhop]; [rewrite hopIteration_length; lia|].
  pose proof Hhop as [_ Hhop0]%hopIteration_lookup.
  destruct (hopIteration maxLen dir) as [|hop' rest] eqn:Hiter; [done|].
  injection Hhop as ->.
  destruct (buildQuoteUpdateRequests_returns_in_loop inputTokenMint outputTokenMint pools
              pairRoutes percents amounts dir Hnodup Hknown 0 hop ∅) as (us & qm1 & Hbuild).
  { fold maxLen. by rewrite Hiter. }
  { split_and!.
    - intros p' b. by rewrite lookup_empty.
    - intros p' [b Hb]. by rewrite lookup_empty in Hb.
    - intros p' amt' r' route' Hin' Hroute'.
      pose proof (route_length_le pairRoutes r' route' Hroute') as Hle.
      replace (doneAt dir _ 0 (length route')) with 0%nat
        by (unfold doneAt; destruct dir; lia).
      cbn. unfold entryAt. by rewrite lookup_empty. }
  destruct (built_batch_returns batchBuildSwapQuoteParams inputTokenMint outputTokenMint
              pools pairRoutes percents amounts dir Hbatch hop ∅ qm1 us Hbuild)
    as [quoteParams Hparams].
  (* the batch holds the request of the longest route *)
  assert (exists u, u ∈ us) as [u Hu].
  { pose proof (built_entry _ _ _ _ _ _ _ _ _ _ _ Hnodup Hbuild p amt r route Hin Hroute)
      as Hentry.
    assert (Helig : eligibleAt hop dir route = true).
    { apply eligibleAt_lt. destruct dir; lia. }
    assert (Hstart : startsAt hop dir route = true).
    { unfold startsAt. destruct dir; [apply Z.eqb_eq|apply Z.eqb_eq]; lia. }
    rewrite Helig in Hentry. destruct Hentry as (q & _ & _ & Hreq).
    unfold tradeOf in Hreq. rewrite Hstart in Hreq.
    destruct (proj1 Hreq) as (u & Hu & _); eauto. }
  assert (Hturn : quoteHop swapQuoteWithParams batchBuildSwapQuoteParams inputTokenMint
                    outputTokenMint pools pairRoutes percents amounts dir ∅ hop
                  = Throws TypeError).
  { unfold quoteHop. rewrite Hbuild. cbn. rewrite Hparams. cbn.
    destruct (updateQuoteMap swapQuoteWithParams us quoteParams qm1) as [qm2|e] eqn:Hupd.
    - destruct (updateQuoteMap_Returns_inv _ _ _ _ _ Hupd u Hu) as [_ Hread].
      by destruct Hread.
    - by rewrite (updateQuoteMap_Throws _ _ _ _ _ Hupd). }
  unfold quoteAllHops. cbn [forEach]. by rewrite Hturn.
Qed.

(** X2: with increment 0 a call that passes validation and prefetch never settles:
    the slicer's loop test holds for ever, so no amount of fuel lets the call
    reach the hop loop. *)
Theorem findBestRoutes_zero_increment_never_settles (inputTokenMint outputTokenMint : Address)
    (tradeAmount : Z) (dir : bool) (walks : gmap string (list (list Address)))
    (pools : gmap Address TokenPairPool) (user : PartialRoutingOptions)
    (pairRoutes : list (list Address)) :
  walks !! getRouteId inputTokenMint outputTokenMint = Some pairRoutes ->
  tradeAmount ≠ 0 ->
  prefetchRoutes pairRoutes = Returns tt ->
  user_percentIncrement user = Some 0 ->
  forall fuel,
    findBestRoutes' fuel inputTokenMint outputTokenMint tradeAmount dir walks pools user
      = None.
Proof.
  intros Hwalk Hzero Hpre Hinc fuel. unfold findBestRoutes. rewrite Hwalk.
  destruct (Z.eqb_spec tradeAmount 0); [done|].
  rewrite Hpre. unfold mergeRoutingOptions. cbn. rewrite Hinc. cbn.
  by rewrite generatePercentageAmounts_zero.
Qed.

(** X19: a pair whose list of routes is empty passes validation (an empty array is
    truthy), and the call is rejected with a RangeError:
    [Math.max()] of no route length is [-Infinity] and [Array(-Infinity)]
    throws outside the [try]. *)
Theorem findBestRoutes_empty_route_list_rejects (fuel : nat)
    (inputTokenMint outputTokenMint : Address)
    (tradeAmount : Z) (dir : bool) (walks : gmap string (list (list Address)))
    (pools : gmap Address TokenPairPool) (user : PartialRoutingOptions) :
  walks !! getRouteId inputTokenMint outputTokenMint = Some [] ->
  tradeAmount ≠ 0 ->
  prefetchRoutes [] = Returns tt ->
  percentIncrement (mergeRoutingOptions user) ≠ 0 ->
  (Z.to_nat (100 / percentIncrement (mergeRoutingOptions user)) < fuel)%nat ->
  findBestRoutes' fuel inputTokenMint outputTokenMint tradeAmount dir walks pools user
    = Some (Rejected (Uncaught RangeError)).
Proof.
  intros Hwalk Hzero Hpre Hinc Hfuel. unfold findBestRoutes. rewrite Hwalk.
  destruct (Z.eqb_spec tradeAmount 0); [done|].
  rewrite Hpre. by rewrite (generatePercentageAmounts_run_nonzero _ _ _ Hinc Hfuel).
Qed.

(** X20: a pair with an empty route among its routes, beside one that holds a hop,
    and a quote engine that throws neither [null] nor [undefined]: the empty
    route is never eligible, its slot stays a hole in every bucket, and
    [categorizeQuotes], outside the [try], destructures the hole: the call is
    rejected with a TypeError, although the hop loop ran to its end. *)
Theorem findBestRoutes_empty_route_rejects (fuel : nat)
    (inputTokenMint outputTokenMint : Address)
    (tradeAmount : Z) (dir : bool) (walks : gmap string (list (list Address)))
    (pools : gmap Address TokenPairPool) (user : PartialRoutingOptions)
    (pairRoutes : list (list Address)) :
  walks !! getRouteId inputTokenMint outputTokenMint = Some pairRoutes ->
  tradeAmount ≠ 0 ->
  prefetchRoutes pairRoutes = Returns tt ->
  0 < percentIncrement (mergeRoutingOptions user) <= 100 ->
  (Z.to_nat (100 / percentIncrement (mergeRoutingOptions user)) < fuel)%nat ->
  [] ∈ pairRoutes ->
  Exists (fun route => route ≠ []) pairRoutes ->
  (forall route a, route ∈ pairRoutes -> a ∈ route -> is_Some (pools !! a)) ->
  (forall requests,
     (forall request, request ∈ requests ->
        exists a pool, pools !! a = Some pool /\ req_whirlpool request = pool_address pool) ->
     exists quoteParams, batchBuildSwapQuoteParams requests = Returns quoteParams) ->
  (forall swapParam, swapQuoteWithParams swapParam ≠ Throws Nullish) ->
  findBestRoutes' fuel inputTokenMint outputTokenMint tradeAmount dir walks pools user
    = Some (Rejected (Uncaught TypeError)).
Proof.
  intros Hwalk Hzero Hpre Hinc Hfuel Hempty Hex Hknown Hbatch Hengine.
  assert (Hne : pairRoutes ≠ []) by (intros ->; by apply Exists_nil in Hex).
  destruct (findBestRoutes_to_loop fuel inputTokenMint outputTokenMint tradeAmount dir
              walks pools user pairRoutes Hwalk Hzero Hpre ltac:(lia) Hfuel Hne)
    as (percents & amounts & Hnodup & Hpercents & Hlen & ->).
  destruct (quoteAllHops_returns swapQuoteWithParams batchBuildSwapQuoteParams
              inputTokenMint outputTokenMint pools pairRoutes percents amounts dir
              Hnodup Hknown Hbatch Hengine) as [quoteMap Hloop].
  rewrite Hloop. unfold rankQuotes.
  destruct (quoteAllHops_hopsQuoted _ _ _ _ _ _ _ _ _ Hnodup _ Hloop)
    as (Hsized & _ & Hshape).
  (* a slice *)
  assert (exists p amt, (p, amt) ∈ zip percents amounts) as (p & amt & Hin).
  { assert (1 <= 100 / percentIncrement (mergeRoutingOptions user))
      by (apply Z.div_le_lower_bound; lia).
    destruct (lookup_lt_is_Some_2 percents 0) as [p Hp].
    { rewrite Hpercents. unfold slicePercents. rewrite length_fmap, length_seqZ. lia. }
    destruct (lookup_lt_is_Some_2 amounts 0) as [amt Hamt].
    { rewrite Hlen. by eapply lookup_lt_Some. }
    exists p, amt. apply list_elem_of_lookup. exists 0%nat.
    rewrite lookup_zip_with, Hp. cbn. by rewrite Hamt. }
  (* the bucket of the slice exists, and holds a hole *)
  apply Exists_exists in Hex as (route' & [r' Hr']%list_elem_of_lookup & Hnil).
  apply list_elem_of_lookup in Hempty as [r Hr].
  pose proof (Hshape p amt r' route' Hin Hr') as Hfull.
  pose proof (Hshape p amt r [] Hin Hr) as Hhole.
  pose proof (route_length_le pairRoutes r' route' Hr') as Hle.
  replace (doneAt dir _ _ (length route')) with (length route') in Hfull
    by (unfold doneAt; destruct dir; lia).
  replace (doneAt dir _ _ (length (@nil Address))) with 0%nat in Hhole
    by (unfold doneAt; destruct dir; cbn; lia).
  destruct (length route') eqn:Hlen'; [by destruct route'|].
  cbn in Hfull, Hhole. destruct Hfull as (q & Hq & _).
  destruct (entryAt_is_Some_bucket quoteMap p r') as [bucket Hb]; [by rewrite Hq|].
  assert (Hslot : bucket !! r = Some None).
  { destruct (lookup_lt_is_Some_2 bucket r) as [x Hx].
    { rewrite (Hsized _ _ Hb). by eapply lookup_lt_Some. }
    unfold entryAt in Hhole. rewrite Hb in Hhole. cbn in Hhole.
    unfold arrGet in Hhole. rewrite Hx in Hhole. cbn in Hhole. by rewrite Hhole in Hx. }
  destruct (categorizeQuotes tradeAmount dir quoteMap) as [[cleaned failures]|e0] eqn:Hcat.
  - apply categorizeQuotes_spec in Hcat as (_ & Hgood & _).
    destruct (Hgood p bucket Hb) as [Hall _].
    rewrite Forall_lookup in Hall. by destruct (Hall r None Hslot) as (? & ? & _).
  - unfold categorizeQuotes in Hcat.
    assert (e0 = TypeError) as ->; [|done].
    apply (forEach_Throws _ (fun e => e = TypeError) _ _ _ Hcat).
    intros t x e'. apply categorizeBucket_Throws.
Qed.

(** X21: when the increment does not divide 100 no slice is the whole amount, the
    cleaned map has no bucket 100 and [getSingleHopSplit] contributes nothing:
    the routes returned are the ranked combinations alone, sorted. *)
Theorem findBestRoutes_without_full_bucket (fuel : nat)
    (inputTokenMint outputTokenMint : Address)
    (tradeAmount : Z) (dir : bool) (walks : gmap string (list (list Address)))
    (pools : gmap Address TokenPairPool) (user : PartialRoutingOptions)
    (cleaned : CleanQuoteMap) (failures : gset (option SwapErrorCode)) :
  reachesRanking fuel inputTokenMint outputTokenMint tradeAmount dir walks pools
    (mergeRoutingOptions user) cleaned failures ->
  ~ (percentIncrement (mergeRoutingOptions user) | 100) ->
  cleaned !! 100 = None /\
  degenerateCandidates (mergeRoutingOptions user) dir cleaned = [] /\
  findBestRoutes' fuel inputTokenMint outputTokenMint tradeAmount dir walks pools user =
    (if bool_decide (jsSort (getRouteCompareFn dir)
                       (rankedCombinations (mergeRoutingOptions user) dir cleaned) = [])
        && bool_decide (Some TickArraySequenceInvalid ∈ failures)
     then Some (Resolved (BestRoutesFailure TRADE_AMOUNT_TOO_HIGH None))
     else Some (Resolved
                  (BestRoutes
                     (jsSort (getRouteCompareFn dir)
                        (rankedCombinations (mergeRoutingOptions user) dir cleaned))))).
Proof.
  intros Hreach Hndiv.
  assert (Hnone : cleaned !! 100 = None).
  { destruct Hreach as (pairRoutes & percents & amounts & quoteMap
                        & _ & _ & _ & Hslice & _ & Hloop & Hcat).
    pose proof (generatePercentageAmounts_distinct _ _ _ _ _ Hslice) as [Hnodup Hlen].
    apply sliceLoop_Some in Hslice as (_ & k & [= -> ->]). cbn [app] in *.
    apply categorizeQuotes_spec in Hcat as (Hdom & _).
    destruct (quoteAllHops_hopsQuoted _ _ _ _ _ _ _ _ _ Hnodup _ Hloop) as (_ & Hkeys & _).
    destruct (cleaned !! 100) as [quotes|] eqn:Hq; [|done]. exfalso.
    assert (is_Some (quoteMap !! 100)) as Hsome by (apply Hdom; eauto).
    apply Hkeys in Hsome. rewrite fst_zip in Hsome by lia.
    apply list_elem_of_fmap in Hsome as (j & Hj & _).
    apply Hndiv. by exists j. }
  assert (Hdeg : degenerateCandidates (mergeRoutingOptions user) dir cleaned = []).
  { unfold degenerateCandidates, getSingleHopSplit.
    by rewrite pruneQuoteMap_sorted_lookup, Hnone. }
  split; [done|]. split; [done|].
  rewrite (findBestRoutes_ranking _ _ _ _ _ _ _ _ _ _ _ _ _ _ _ Hreach).
  cbn zeta. by rewrite Hdeg, app_nil_r.
Qed.

End OptimizerOutcomes.

(** X24: a fetcher that cannot list the pools of the routes makes the call reject
    with the fetcher's exception: the prefetch runs before the [try], so the
    fault is not reported as the GENERAL failure, and the slicer and the quote
    loop are never reached. *)
Theorem findBestRoutes_rejects_when_pools_cannot_be_listed
    (swapQuoteWithParams : option SwapQuoteParam -> Exc SwapQuote)
    (batchBuildSwapQuoteParams : list SwapQuoteRequest -> Exc (list SwapQuoteParam))
    (getRouteId : Address -> Address -> string)
    (getRankedRoutes : CleanQuoteMap -> bool -> Z -> Z -> list TradeRoute)
    (listPools : list Address -> bool -> Exc (list (option Prefetch.WhirlpoolData)))
    (listTickArrays : list Address -> bool -> Exc unit)
    (getTickArrayPublicKeys : Z -> Z -> bool -> Address -> option Address -> Exc (list Address))
    (programId : Address)
    (inputTokenMint outputTokenMint : Address)
    (tradeAmount : Z) (dir : bool) (walks : gmap string (list (list Address)))
    (pools : gmap Address TokenPairPool) (user : PartialRoutingOptions)
    (pairRoutes : list (list Address)) (e : Thrown) :
  walks !! getRouteId inputTokenMint outputTokenMint = Some pairRoutes ->
  tradeAmount ≠ 0 ->
  listPools (Prefetch.poolSetOf pairRoutes) false = Throws e ->
  (Prefetch.prefetchRoutes listPools listTickArrays getTickArrayPublicKeys pairRoutes
     programId).2 = [Prefetch.ListPools (Prefetch.poolSetOf pairRoutes) false] /\
  forall fuel,
    findBestRoutes swapQuoteWithParams batchBuildSwapQuoteParams
      (fun routes =>
         (Prefetch.prefetchRoutes listPools listTickArrays getTickArrayPublicKeys routes
            programId).1)
      getRouteId getRankedRoutes fuel inputTokenMint outputTokenMint tradeAmount dir walks
      pools user
    = Some (Rejected (Uncaught e)).
Proof.
  intros Hwalk Hzero Hpools.
  rewrite (prefetchRoutes_pools_fault _ _ _ _ _ _ Hpools). split; [done|].
  intros fuel. unfold findBestRoutes. rewrite Hwalk.
  destruct (Z.eqb_spec tradeAmount 0); [done|].
  by rewrite (prefetchRoutes_pools_fault _ _ _ _ _ _ Hpools).
Qed.

(** ** The theorems on the scenario *)

Lemma scenario_percents_NoDup : NoDup (zip Scenario.percents Scenario.amounts).*1.
Proof. apply (bool_decide_unpack _). vm_compute. exact I. Defined.

Lemma scenario_quoted :
  quoteAllHops Scenario.swapQuoteWithParams Scenario.batchBuildSwapQuoteParams
    Scenario.tokenA Scenario.tokenB Scenario.pools Scenario.pairRoutes Scenario.percents
    Scenario.amounts true (hopIteration (max_list (length <$> Scenario.pairRoutes)) true)
  = Returns (Scenario.quoteMapAfter 3).
Proof. vm_compute. reflexivity. Defined.

Lemma scenario_first_hop_built :
  buildQuoteUpdateRequests Scenario.tokenA Scenario.tokenB Scenario.pools Scenario.pairRoutes
    Scenario.percents Scenario.amounts 0 true ∅
  = Returns (Scenario.firstHopRequests.1, Scenario.firstHopRequests.2).
Proof. vm_compute. reflexivity. Defined.

Lemma scenario_third_hop_built :
  buildQuoteUpdateRequests Scenario.tokenA Scenario.tokenB Scenario.pools Scenario.pairRoutes
    Scenario.percents Scenario.amounts 2 true (Scenario.quoteMapAfter 2)
  = Returns (Scenario.thirdHopRequests.1, Scenario.thirdHopRequests.2).
Proof. vm_compute. reflexivity. Defined.

Lemma scenario_categorized :
  categorizeQuotes 1000 true (Scenario.quoteMapAfter 3) = Returns Scenario.categorized.
Proof. vm_compute. reflexivity. Defined.

Lemma scenario_reaches_ranking :
  reachesRanking Scenario.swapQuoteWithParams Scenario.batchBuildSwapQuoteParams
    Scenario.prefetchRoutes Scenario.getRouteId 3 Scenario.tokenA Scenario.tokenB 1000 true
    Scenario.walks Scenario.pools (mergeRoutingOptions Scenario.halves)
    Scenario.categorized.1 Scenario.categorized.2.
Proof.
  exists Scenario.pairRoutes, Scenario.percents, Scenario.amounts, (Scenario.quoteMapAfter 3).
  split_and!.
  - vm_compute. reflexivity.
  - discriminate.
  - reflexivity.
  - vm_compute. reflexivity.
  - discriminate.
  - exact scenario_quoted.
  - vm_compute. reflexivity.
Defined.

Lemma deadEnd_reaches_ranking :
  reachesRanking Scenario.swapQuoteWithParams Scenario.batchBuildSwapQuoteParams
    Scenario.prefetchRoutes Scenario.getRouteId 3 Scenario.tokenA Scenario.tokenB 1000 true
    Scenario.deadEndWalks Scenario.pools (mergeRoutingOptions Scenario.halves)
    Scenario.deadEndCategorized.1 Scenario.deadEndCategorized.2.
Proof.
  exists Scenario.deadEndRoutes, Scenario.percents, Scenario.amounts, Scenario.deadEndQuoteMap.
  split_and!.
  - vm_compute. reflexivity.
  - discriminate.
  - reflexivity.
  - vm_compute. reflexivity.
  - discriminate.
  - vm_compute. reflexivity.
  - vm_compute. reflexivity.
Defined.

(** [generatePercentageAmounts_slices] on a total of 1003 in fifths. *)
Lemma generatePercentageAmounts_slices_witness :
  exists percents amounts : list Z,
    generatePercentageAmounts 6 1003 20 = Some (percents, amounts) /\
    percents = (fun j => j * 20) <$> seqZ 1 (100 / 20) /\
    last percents = Some 100 /\
    amounts = (fun p => (1003 * p) / 100) <$> percents /\
    (forall (i j : nat) (p q : Z), (i < j)%nat ->
       percents !! i = Some p -> percents !! j = Some q -> p < q) /\
    (forall (i j : nat) (a b : Z), (i <= j)%nat ->
       amounts !! i = Some a -> amounts !! j = Some b -> a <= b).
Proof.
  apply (generatePercentageAmounts_slices 1003 20 6).
  - lia.
  - lia.
  - by exists 5.
  - vm_compute. lia.
Defined.

(** [pruneQuoteMap_keeps_top] on a bucket with a tie, keeping two. *)
Lemma pruneQuoteMap_keeps_top_witness :
  0 <= 2 /\
  Scenario.tiedBucket !! 100
    = Some [Scenario.mkQuote "pool1" 1000 980; Scenario.mkQuote "pool2" 1000 990;
            Scenario.mkQuote "poolAX" 1000 980] /\
  exists sorted : list RouteQuote,
    (pruneQuoteMap Scenario.tiedBucket 2 true).1 !! 100 = Some (take (Z.to_nat 2) sorted) /\
    sorted ≡ₚ [Scenario.mkQuote "pool1" 1000 980; Scenario.mkQuote "pool2" 1000 990;
               Scenario.mkQuote "poolAX" 1000 980] /\
    (forall (i j : nat) (a b : RouteQuote), (i < j)%nat ->
       sorted !! i = Some a -> sorted !! j = Some b ->
       if true then rq_amountOut b <= rq_amountOut a else rq_amountIn a <= rq_amountIn b) /\
    (forall amount : Z,
       filter (fun q => (if true then rq_amountOut q else rq_amountIn q) = amount) sorted =
       filter (fun q => (if true then rq_amountOut q else rq_amountIn q) = amount)
         [Scenario.mkQuote "pool1" 1000 980; Scenario.mkQuote "pool2" 1000 990;
          Scenario.mkQuote "poolAX" 1000 980]).
Proof.
  assert (Hn : 0 <= 2) by lia.
  assert (Hb : Scenario.tiedBucket !! 100
               = Some [Scenario.mkQuote "pool1" 1000 980; Scenario.mkQuote "pool2" 1000 990;
                       Scenario.mkQuote "poolAX" 1000 980]) by reflexivity.
  split; [exact Hn|]. split; [exact Hb|].
  exact (pruneQuoteMap_keeps_top Scenario.tiedBucket 2 true 100 _ Hn Hb).
Defined.

(** [buildQuoteUpdateRequests_quoteIndex_is_position] on the first hop of the
    scenario. *)
Lemma buildQuoteUpdateRequests_quoteIndex_is_position_witness :
  buildQuoteUpdateRequests Scenario.tokenA Scenario.tokenB Scenario.pools Scenario.pairRoutes
    Scenario.percents Scenario.amounts 0 true ∅
  = Returns (Scenario.firstHopRequests.1, Scenario.firstHopRequests.2) /\
  length Scenario.firstHopRequests.1 = 4%nat /\
  (forall i u, Scenario.firstHopRequests.1 !! i = Some u -> upd_quoteIndex u = i) /\
  (StronglySorted Z.lt Scenario.percents ->
   forall i j u v, (i < j)%nat ->
     Scenario.firstHopRequests.1 !! i = Some u -> Scenario.firstHopRequests.1 !! j = Some v ->
     upd_percent u < upd_percent v \/
     (upd_percent u = upd_percent v /\ (upd_routeIndex u < upd_routeIndex v)%nat)).
Proof.
  pose proof (buildQuoteUpdateRequests_quoteIndex_is_position _ _ _ _ _ _ _ _ _ _ _
                scenario_first_hop_built) as (Hidx & _ & _ & Hord).
  split; [exact scenario_first_hop_built|]. split; [reflexivity|]. by split.
Defined.







(** [incomplete_chain_has_one_failure] on the scenario: the three-hop route
    stops at its second hop. *)
Lemma incomplete_chain_has_one_failure_witness :
  NoDup (zip Scenario.percents Scenario.amounts).*1 /\
  quoteAllHops Scenario.swapQuoteWithParams Scenario.batchBuildSwapQuoteParams
    Scenario.tokenA Scenario.tokenB Scenario.pools Scenario.pairRoutes Scenario.percents
    Scenario.amounts true (hopIteration (max_list (length <$> Scenario.pairRoutes)) true)
  = Returns (Scenario.quoteMapAfter 3) /\
  Forall (fun route => route ≠ []) Scenario.pairRoutes /\
  (forall p r q, entryAt (Scenario.quoteMapAfter 3) p r = Some q ->
     (length (successHops (irq_calculatedHops q)) < length (irq_route q))%nat ->
     length (failureHops (irq_calculatedHops q)) = 1%nat /\
     is_Some (head (failureHops (irq_calculatedHops q)))) /\
  exists cleaned failures,
    categorizeQuotes 1000 true (Scenario.quoteMapAfter 3) = Returns (cleaned, failures).
Proof.
  assert (Hne : Forall (fun route : list Address => route ≠ []) Scenario.pairRoutes)
    by (repeat constructor; discriminate).
  destruct (incomplete_chain_has_one_failure _ _ _ _ _ _ _ _ _ _
              scenario_percents_NoDup scenario_quoted) as [Hone Hcat].
  split; [exact scenario_percents_NoDup|]. split; [exact scenario_quoted|].
  split; [exact Hne|]. split; [exact Hone|]. exact (Hcat Hne 1000).
Defined.

(** [failure_is_sticky] on the scenario: the second hop of the three-hop route
    fails, the builder skips its third hop, and the third slot is unset at the
    end. *)
Lemma failure_is_sticky_witness :
  NoDup (zip Scenario.percents Scenario.amounts).*1 /\
  buildQuoteUpdateRequests Scenario.tokenA Scenario.tokenB Scenario.pools Scenario.pairRoutes
    Scenario.percents Scenario.amounts 2 true (Scenario.quoteMapAfter 2)
  = Returns (Scenario.thirdHopRequests.1, Scenario.thirdHopRequests.2) /\
  hopAt (Scenario.quoteMapAfter 2) 100 0 1
    = Some (HopFailure (Some TickArraySequenceInvalid)) /\
  (forall u, u ∈ Scenario.thirdHopRequests.1 ->
     (upd_percent u, upd_routeIndex u) ≠ (100, 0%nat)) /\
  (forall p r q k c k',
     entryAt (Scenario.quoteMapAfter 3) p r = Some q ->
     arrGet (irq_calculatedHops q) k = Some (HopFailure c) ->
     (k < k')%nat -> arrGet (irq_calculatedHops q) k' = None).
Proof.
  destruct (failure_is_sticky Scenario.swapQuoteWithParams
              Scenario.batchBuildSwapQuoteParams Scenario.tokenA Scenario.tokenB
              Scenario.pools Scenario.pairRoutes Scenario.percents Scenario.amounts true
              scenario_percents_NoDup) as [Hhop Hloop].
  destruct (Hhop _ _ _ _ scenario_third_hop_built) as [_ Hskip].
  assert (Hq : entryAt (Scenario.quoteMapAfter 2) 100 0 = Some Scenario.stoppedEntry)
    by (vm_compute; reflexivity).
  assert (Hadj : adjacentHop 2 true Scenario.stoppedEntry
                 = Some (HopFailure (Some TickArraySequenceInvalid)))
    by (vm_compute; reflexivity).
  assert (Hin : (100, 1000) ∈ zip Scenario.percents Scenario.amounts)
    by (apply (bool_decide_unpack _); vm_compute; exact I).
  destruct (Hskip 100 1000 0%nat ["poolAX"; "poolXY"; "poolYB"] Scenario.stoppedEntry
              (Some TickArraySequenceInvalid)) as (Hnone & _);
    [exact Hin|reflexivity|reflexivity|exact Hq|exact Hadj|].
  split; [exact scenario_percents_NoDup|]. split; [exact scenario_third_hop_built|].
  split; [vm_compute; reflexivity|]. split; [exact Hnone|].
  exact (Hloop _ scenario_quoted).
Defined.

(** [empty_result_is_diagnosed] on the dead-end pair: nothing is ranked, the
    failures hold TickArraySequenceInvalid, and the call resolves to
    TradeAmountTooHigh. *)
Lemma empty_result_is_diagnosed_witness :
  reachesRanking Scenario.swapQuoteWithParams Scenario.batchBuildSwapQuoteParams
    Scenario.prefetchRoutes Scenario.getRouteId 3 Scenario.tokenA Scenario.tokenB 1000 true
    Scenario.deadEndWalks Scenario.pools (mergeRoutingOptions Scenario.halves)
    Scenario.deadEndCategorized.1 Scenario.deadEndCategorized.2 /\
  jsSort (getRouteCompareFn true)
    (rankedCombinations specRankedRoutes (mergeRoutingOptions Scenario.halves) true
       Scenario.deadEndCategorized.1
     ++ degenerateCandidates (mergeRoutingOptions Scenario.halves) true
          Scenario.deadEndCategorized.1) = [] /\
  (findBestRoutes Scenario.swapQuoteWithParams Scenario.batchBuildSwapQuoteParams
     Scenario.prefetchRoutes Scenario.getRouteId specRankedRoutes 3 Scenario.tokenA
     Scenario.tokenB 1000 true Scenario.deadEndWalks Scenario.pools Scenario.halves
     = Some (Resolved (BestRoutesFailure TRADE_AMOUNT_TOO_HIGH None))
   <-> Some TickArraySequenceInvalid ∈ Scenario.deadEndCategorized.2).
Proof.
  assert (Hempty : jsSort (getRouteCompareFn true)
            (rankedCombinations specRankedRoutes (mergeRoutingOptions Scenario.halves) true
               Scenario.deadEndCategorized.1
             ++ degenerateCandidates (mergeRoutingOptions Scenario.halves) true
                  Scenario.deadEndCategorized.1) = [])
    by (vm_compute; reflexivity).
  split; [exact deadEnd_reaches_ranking|]. split; [exact Hempty|].
  exact (proj1 (empty_result_is_diagnosed _ _ _ _ specRankedRoutes _ _ _ _ _ _ _ _ _ _
                  deadEnd_reaches_ranking Hempty)).
Defined.

(** [findBestRoutes_validation_rejects] on a pair the pool graph does not have
    and a zero amount. *)
Lemma findBestRoutes_validation_rejects_witness :
  ((∅ : gmap string (list (list Address)))
     !! Scenario.getRouteId Scenario.tokenA Scenario.tokenB = None \/ 0 = 0) /\
  findBestRoutes Scenario.swapQuoteWithParams Scenario.batchBuildSwapQuoteParams
    Scenario.prefetchRoutes Scenario.getRouteId specRankedRoutes 0 Scenario.tokenA
    Scenario.tokenB 0 true ∅ Scenario.pools Scenario.halves
  = Some (Rejected (RejectedWith (BestRoutesFailure ROUTE_DOES_NOT_EXIST None))).
Proof.
  assert (Hcase : (∅ : gmap string (list (list Address)))
                    !! Scenario.getRouteId Scenario.tokenA Scenario.tokenB = None \/ 0 = 0)
    by (right; reflexivity).
  split; [exact Hcase|].
  exact (findBestRoutes_validation_rejects Scenario.swapQuoteWithParams
           Scenario.batchBuildSwapQuoteParams Scenario.prefetchRoutes Scenario.getRouteId
           specRankedRoutes 0 Scenario.tokenA Scenario.tokenB 0 true ∅ Scenario.pools
           Scenario.halves Hcase).
Defined.

(** C2 as stated fails: for a pair absent from the pool graph the promise is
    rejected; the failure is not delivered as the resolved Result. *)
Lemma findBestRoutes_rejects_absent_pair :
  findBestRoutes Scenario.swapQuoteWithParams Scenario.batchBuildSwapQuoteParams
    Scenario.prefetchRoutes Scenario.getRouteId specRankedRoutes 3 Scenario.tokenA
    Scenario.tokenX 1000 true Scenario.walks Scenario.pools Scenario.halves
  = Some (Rejected (RejectedWith (BestRoutesFailure ROUTE_DOES_NOT_EXIST None))) /\
  findBestRoutes Scenario.swapQuoteWithParams Scenario.batchBuildSwapQuoteParams
    Scenario.prefetchRoutes Scenario.getRouteId specRankedRoutes 3 Scenario.tokenA
    Scenario.tokenX 1000 true Scenario.walks Scenario.pools Scenario.halves
  ≠ Some (Resolved (BestRoutesFailure ROUTE_DOES_NOT_EXIST None)).
Proof. split; [vm_compute; reflexivity|vm_compute; discriminate]. Qed.

(** [bestRoutes_is_sorted_union] on the scenario. *)
Lemma bestRoutes_is_sorted_union_witness :
  reachesRanking Scenario.swapQuoteWithParams Scenario.batchBuildSwapQuoteParams
    Scenario.prefetchRoutes Scenario.getRouteId 3 Scenario.tokenA Scenario.tokenB 1000 true
    Scenario.walks Scenario.pools (mergeRoutingOptions Scenario.halves)
    Scenario.categorized.1 Scenario.categorized.2 /\
  exists bestRoutes,
    findBestRoutes Scenario.swapQuoteWithParams Scenario.batchBuildSwapQuoteParams
      Scenario.prefetchRoutes Scenario.getRouteId specRankedRoutes 3 Scenario.tokenA
      Scenario.tokenB 1000 true Scenario.walks Scenario.pools Scenario.halves
    = Some (Resolved (BestRoutes bestRoutes)) /\
    length bestRoutes =
      (length (rankedCombinations specRankedRoutes (mergeRoutingOptions Scenario.halves)
                 true Scenario.categorized.1)
       + length (degenerateCandidates (mergeRoutingOptions Scenario.halves) true
                   Scenario.categorized.1))%nat.
Proof.
  split; [exact scenario_reaches_ranking|].
  eexists. split; [vm_compute; reflexivity|].
  refine (proj1 (proj2 (bestRoutes_is_sorted_union _ _ _ _ specRankedRoutes _ _ _ _ _ _ _ _
                          _ _ _ scenario_reaches_ranking _))).
  vm_compute. reflexivity.
Defined.

(** C8 as stated fails: with two healthy one-hop routes and [numTopRoutes] 1
    the returned list has three elements. *)
Lemma bestRoutes_exceeds_numTopRoutes :
  exists bestRoutes,
    findBestRoutes Scenario.swapQuoteWithParams Scenario.batchBuildSwapQuoteParams
      Scenario.prefetchRoutes Scenario.getRouteId specRankedRoutes 3 Scenario.tokenA
      Scenario.tokenB 1000 true Scenario.parallelWalks Scenario.pools Scenario.topOne
    = Some (Resolved (BestRoutes bestRoutes)) /\
    length bestRoutes = 3%nat /\
    numTopRoutes (mergeRoutingOptions Scenario.topOne) = 1.
Proof. eexists. split; [vm_compute; reflexivity|]. split; reflexivity. Qed.

(** C1 on the scenario: in the 50% bucket of a trade of 1000 with the input
    fixed, the route quote of pool1 carries [amountIn] 1000, the total, while
    the slice is 500 and its own first hop was quoted for 500; only the 100%
    bucket carries its slice. *)
Lemma categorizeQuotes_stamps_total_on_slices :
  generatePercentageAmounts 3 1000 50 = Some ([50; 100], [500; 1000]) /\
  categorizeQuotes 1000 true (Scenario.quoteMapAfter 3) = Returns Scenario.categorized /\
  (fun q => (rq_amountIn q, hop_amountIn <$> head (rq_calculatedHops q), rq_amountOut q,
             hop_amountOut <$> last (rq_calculatedHops q)))
    <$> (Scenario.categorized.1 !! 50 ≫= head)
  = Some (1000, Some 500, 495, Some 495) /\
  (fun q => (rq_amountIn q, hop_amountIn <$> head (rq_calculatedHops q), rq_amountOut q,
             hop_amountOut <$> last (rq_calculatedHops q)))
    <$> (Scenario.categorized.1 !! 100 ≫= head)
  = Some (1000, Some 1000, 990, Some 990).
Proof. split_and!; vm_compute; reflexivity. Qed.

Import Vocabulary Chains.

(** ** The further theorems on the scenario *)

(** The scenario's collaborators behave: every pool of a route is known, the
    parameter builder returns for requests naming known pools and hands the
    amount and direction of each request on, and the quote engine throws
    neither [null] nor [undefined]. *)
Lemma scenario_pools_known (route : list Address) (a : Address) :
  route ∈ Scenario.pairRoutes -> a ∈ route -> is_Some (Scenario.pools !! a).
Proof.
  intros Hr Ha.
  assert (Hall : Forall (Forall (fun a => is_Some (Scenario.pools !! a))) Scenario.pairRoutes)
    by (apply (bool_decide_unpack _); vm_compute; exact I).
  rewrite Forall_forall in Hall. specialize (Hall route Hr).
  rewrite Forall_forall in Hall. by apply Hall.
Qed.

Lemma scenario_paramOf (request : SwapQuoteRequest) :
  (exists a pool, Scenario.pools !! a = Some pool /\
     req_whirlpool request = pool_address pool) ->
  is_Some (Scenario.paramOf request).
Proof.
  intros (a & pool & Hpool & Hw).
  assert (Hall : map_Forall (fun _ pool => is_Some (Scenario.pools !! pool_address pool))
                   Scenario.pools)
    by (apply (bool_decide_unpack _); vm_compute; exact I).
  destruct (Hall a pool Hpool) as [pool' Hpool'].
  unfold Scenario.paramOf. rewrite Hw, Hpool'. cbn. eauto.
Qed.

Lemma scenario_batch_returns (requests : list SwapQuoteRequest) :
  (forall request, request ∈ requests ->
     exists a pool, Scenario.pools !! a = Some pool /\
       req_whirlpool request = pool_address pool) ->
  exists quoteParams, Scenario.batchBuildSwapQuoteParams requests = Returns quoteParams.
Proof.
  intros Hknown. unfold Scenario.batchBuildSwapQuoteParams.
  destruct (mapM Scenario.paramOf requests) as [quoteParams|] eqn:Hm; [eauto|].
  assert (is_Some (mapM Scenario.paramOf requests)) as [? ?]; [|congruence].
  apply mapM_is_Some. apply Forall_forall. intros request Hin.
  by apply scenario_paramOf, Hknown.
Qed.

Lemma scenario_engine_readable (swapParam : option SwapQuoteParam) :
  Scenario.swapQuoteWithParams swapParam ≠ Throws Nullish.
Proof.
  unfold Scenario.swapQuoteWithParams.
  destruct swapParam as [param|]; [|discriminate].
  destruct (bool_decide _ || bool_decide _); [discriminate|].
  destruct (bool_decide _); [discriminate|].
  destruct (bool_decide _); discriminate.
Qed.

Lemma scenario_batch_echo (requests : list SwapQuoteRequest)
    (quoteParams : list SwapQuoteParam) (i : nat) (request : SwapQuoteRequest)
    (param : SwapQuoteParam) :
  Scenario.batchBuildSwapQuoteParams requests = Returns quoteParams ->
  requests !! i = Some request -> quoteParams !! i = Some param ->
  sp_tokenAmount param = req_tokenAmount request /\
  sp_amountSpecifiedIsInput param = req_amountSpecifiedIsInput request.
Proof.
  unfold Scenario.batchBuildSwapQuoteParams.
  destruct (mapM Scenario.paramOf requests) as [ps|] eqn:Hm; [|done].
  intros [= ->] Hr Hp. apply mapM_Some in Hm.
  pose proof (Forall2_lookup_lr _ _ _ _ _ _ Hm Hr Hp) as Hparam.
  unfold Scenario.paramOf in Hparam.
  destruct (Scenario.pools !! req_whirlpool request) as [pool|]; [|done].
  cbn in Hparam. by injection Hparam as <-.
Qed.

(** [generatePercentageAmounts_reaches_100_iff_divides] on steps of 30. *)
Lemma generatePercentageAmounts_reaches_100_iff_divides_witness :
  30 ≠ 0 /\
  (Z.to_nat (100 / 30) < 4)%nat /\
  generatePercentageAmounts 4 1000 30 = Some ([30; 60; 90], [300; 600; 900]) /\
  ~ (30 | 100) /\
  100 ∉ [30; 60; 90].
Proof.
  assert (Hinc : 30 ≠ 0) by discriminate.
  assert (Hfuel : (Z.to_nat (100 / 30) < 4)%nat) by (vm_compute; lia).
  destruct (generatePercentageAmounts_reaches_100_iff_divides 1000 30 4 Hinc Hfuel)
    as (percents & amounts & Hrun & _ & _ & _ & _ & Hfull).
  assert (Hslices : generatePercentageAmounts 4 1000 30 = Some ([30; 60; 90], [300; 600; 900]))
    by (vm_compute; reflexivity).
  assert (Hndiv : ~ (30 | 100)) by (intros [k Hk]; lia).
  split; [exact Hinc|]. split; [exact Hfuel|]. split; [exact Hslices|].
  split; [exact Hndiv|].
  rewrite Hslices in Hrun. injection Hrun as <- <-.
  intros Hin. apply Hndiv. by apply Hfull.
Defined.

(** [findBestRoutes_zero_increment_never_settles] on the scenario. *)
Lemma findBestRoutes_zero_increment_never_settles_witness :
  user_percentIncrement EdgeCases.noStep = Some 0 /\
  forall fuel,
    findBestRoutes Scenario.swapQuoteWithParams Scenario.batchBuildSwapQuoteParams
      Scenario.prefetchRoutes Scenario.getRouteId specRankedRoutes fuel Scenario.tokenA
      Scenario.tokenB 1000 true Scenario.walks Scenario.pools EdgeCases.noStep = None.
Proof.
  split; [reflexivity|].
  apply (findBestRoutes_zero_increment_never_settles Scenario.swapQuoteWithParams
           Scenario.batchBuildSwapQuoteParams Scenario.prefetchRoutes Scenario.getRouteId
           specRankedRoutes Scenario.tokenA Scenario.tokenB 1000 true Scenario.walks
           Scenario.pools EdgeCases.noStep Scenario.pairRoutes).
  - vm_compute. reflexivity.
  - discriminate.
  - reflexivity.
  - reflexivity.
Defined.

Lemma scenario_first_hop_applied :
  updateQuoteMap Scenario.swapQuoteWithParams Scenario.firstHopRequests.1
    Scenario.firstHopParams Scenario.firstHopRequests.2
  = Returns (Scenario.quoteMapAfter 1).
Proof. vm_compute. reflexivity. Defined.

(** [updateQuoteMap_touches_only_addressed_slots] on the first hop of the
    scenario. *)
Lemma updateQuoteMap_touches_only_addressed_slots_witness :
  updateQuoteMap Scenario.swapQuoteWithParams Scenario.firstHopRequests.1
    Scenario.firstHopParams Scenario.firstHopRequests.2
  = Returns (Scenario.quoteMapAfter 1) /\
  (forall p, is_Some (Scenario.quoteMapAfter 1 !! p)
             <-> is_Some (Scenario.firstHopRequests.2 !! p)) /\
  (forall p r q', entryAt (Scenario.quoteMapAfter 1) p r = Some q' ->
     exists q, entryAt Scenario.firstHopRequests.2 p r = Some q /\
       irq_percent q' = irq_percent q /\ irq_route q' = irq_route q /\
       forall k, (forall u, u ∈ Scenario.firstHopRequests.1 ->
                    updateKey u = (p, r) -> upd_hopIndex u ≠ k) ->
         arrGet (irq_calculatedHops q') k = arrGet (irq_calculatedHops q) k).
Proof.
  destruct (updateQuoteMap_touches_only_addressed_slots Scenario.swapQuoteWithParams
              Scenario.firstHopParams Scenario.firstHopRequests.1
              Scenario.firstHopRequests.2 (Scenario.quoteMapAfter 1)
              scenario_first_hop_applied) as (Hkeys & _ & _ & Hslots).
  split; [exact scenario_first_hop_applied|]. split; [exact Hkeys|exact Hslots].
Defined.

Lemma scenario_first_hop_unquoted :
  updateQuoteMap Scenario.swapQuoteWithParams Scenario.firstHopRequests.1 []
    Scenario.firstHopRequests.2
  = Returns EdgeCases.quotedWithoutParams.
Proof. vm_compute. reflexivity. Defined.

(** [updateQuoteMap_missing_param_is_failure] on the first hop of the scenario
    applied with an empty parameter array. *)
Lemma updateQuoteMap_missing_param_is_failure_witness :
  updateQuoteMap Scenario.swapQuoteWithParams Scenario.firstHopRequests.1 []
    Scenario.firstHopRequests.2
  = Returns EdgeCases.quotedWithoutParams /\
  NoDup (updateKey <$> Scenario.firstHopRequests.1) /\
  Scenario.firstHopRequests.1 !! 0%nat = Some EdgeCases.firstRequest /\
  (length (@nil SwapQuoteParam) <= upd_quoteIndex EdgeCases.firstRequest)%nat /\
  exists code,
    hopAt EdgeCases.quotedWithoutParams (upd_percent EdgeCases.firstRequest)
      (upd_routeIndex EdgeCases.firstRequest) (upd_hopIndex EdgeCases.firstRequest)
    = Some (HopFailure code).
Proof.
  assert (Hnodup : NoDup (updateKey <$> Scenario.firstHopRequests.1))
    by (apply (bool_decide_unpack _); vm_compute; exact I).
  assert (Hfirst : Scenario.firstHopRequests.1 !! 0%nat = Some EdgeCases.firstRequest)
    by (vm_compute; reflexivity).
  assert (Hlen : (length (@nil SwapQuoteParam) <= upd_quoteIndex EdgeCases.firstRequest)%nat)
    by (vm_compute; lia).
  destruct (updateQuoteMap_missing_param_is_failure Scenario.swapQuoteWithParams []
              Scenario.firstHopRequests.1 Scenario.firstHopRequests.2
              EdgeCases.quotedWithoutParams 0 EdgeCases.firstRequest
              scenario_first_hop_unquoted Hnodup Hfirst Hlen) as (code & Hslot & _).
  split; [exact scenario_first_hop_unquoted|]. split; [exact Hnodup|].
  split; [exact Hfirst|]. split; [exact Hlen|]. exists code. exact Hslot.
Defined.

Lemma scenario_categorized_pair :
  categorizeQuotes 1000 true (Scenario.quoteMapAfter 3)
  = Returns (Scenario.categorized.1, Scenario.categorized.2).
Proof. vm_compute. reflexivity. Defined.

(** [categorizeQuotes_keeps_complete_chains_in_order] on the scenario. *)
Lemma categorizeQuotes_keeps_complete_chains_in_order_witness :
  categorizeQuotes 1000 true (Scenario.quoteMapAfter 3)
  = Returns (Scenario.categorized.1, Scenario.categorized.2) /\
  (forall p, is_Some (Scenario.categorized.1 !! p)
             <-> is_Some (Scenario.quoteMapAfter 3 !! p)) /\
  (forall p bucket, Scenario.quoteMapAfter 3 !! p = Some bucket ->
     exists entries quotes,
       bucket = Some <$> entries /\ Scenario.categorized.1 !! p = Some quotes /\
       length quotes = length (filter chainComplete entries)).
Proof.
  destruct (categorizeQuotes_keeps_complete_chains_in_order 1000 true
              (Scenario.quoteMapAfter 3) Scenario.categorized.1 Scenario.categorized.2
              scenario_categorized_pair) as [Hkeys Hbuckets].
  split; [exact scenario_categorized_pair|]. split; [exact Hkeys|].
  intros p bucket Hb.
  destruct (Hbuckets p bucket Hb) as (entries & quotes & He & Hq & Hlen & _).
  exists entries, quotes. split; [exact He|]. split; [exact Hq|exact Hlen].
Defined.

(** [categorizeQuotes_collects_first_failures] on the scenario: the one kind
    of failure is the three-hop route's second hop running out of tick
    arrays. *)
Lemma categorizeQuotes_collects_first_failures_witness :
  categorizeQuotes 1000 true (Scenario.quoteMapAfter 3)
  = Returns (Scenario.categorized.1, Scenario.categorized.2) /\
  Scenario.categorized.2 = {[ Some TickArraySequenceInvalid ]} /\
  forall code, code ∈ Scenario.categorized.2 <->
    exists p bucket q, Scenario.quoteMapAfter 3 !! p = Some bucket /\ Some q ∈ bucket /\
      length (successHops (irq_calculatedHops q)) ≠ length (irq_route q) /\
      head (failureHops (irq_calculatedHops q)) = Some code.
Proof.
  split; [exact scenario_categorized_pair|]. split; [vm_compute; reflexivity|].
  exact (categorizeQuotes_collects_first_failures 1000 true (Scenario.quoteMapAfter 3)
           Scenario.categorized.1 Scenario.categorized.2 scenario_categorized_pair).
Defined.

(** [pruneQuoteMap_twice] on a bucket with a tie, keeping two. *)
Lemma pruneQuoteMap_twice_witness :
  0 <= 2 /\
  (pruneQuoteMap (pruneQuoteMap Scenario.tiedBucket 2 true).1 2 true).1
    = (pruneQuoteMap Scenario.tiedBucket 2 true).1 /\
  (pruneQuoteMap (pruneQuoteMap Scenario.tiedBucket 2 true).1 2 true).2
    = (pruneQuoteMap Scenario.tiedBucket 2 true).1.
Proof.
  assert (Hn : 0 <= 2) by lia.
  split; [exact Hn|]. exact (pruneQuoteMap_twice Scenario.tiedBucket 2 true Hn).
Defined.

(** [buildQuoteUpdateRequests_addresses_oriented_route] on the first hop of
    the scenario. *)
Lemma buildQuoteUpdateRequests_addresses_oriented_route_witness :
  buildQuoteUpdateRequests Scenario.tokenA Scenario.tokenB Scenario.pools Scenario.pairRoutes
    Scenario.percents Scenario.amounts 0 true ∅
  = Returns (Scenario.firstHopRequests.1, Scenario.firstHopRequests.2) /\
  upd_address <$> Scenario.firstHopRequests.1 = ["poolAX"; "pool1"; "poolAX"; "pool1"] /\
  forall u, u ∈ Scenario.firstHopRequests.1 ->
    upd_hopIndex u = 0%nat /\
    upd_percent u ∈ (zip Scenario.percents Scenario.amounts).*1 /\
    req_whirlpool (upd_request u) = upd_address u /\
    req_amountSpecifiedIsInput (upd_request u) = true.
Proof.
  split; [exact scenario_first_hop_built|]. split; [vm_compute; reflexivity|].
  intros u Hu.
  destruct (buildQuoteUpdateRequests_addresses_oriented_route Scenario.tokenA Scenario.tokenB
              Scenario.pools Scenario.pairRoutes 0 true Scenario.percents Scenario.amounts
              ∅ _ _ scenario_first_hop_built u Hu) as (H1 & H2 & H3 & H4 & _).
  split; [exact H1|]. split; [exact H2|]. split; [exact H3|exact H4].
Defined.

(** [buildQuoteUpdateRequests_starts_route_with_slice] on the first hop of the
    scenario: pool1 at 50% is asked for 500 of token A. *)
Lemma buildQuoteUpdateRequests_starts_route_with_slice_witness :
  NoDup (zip Scenario.percents Scenario.amounts).*1 /\
  buildQuoteUpdateRequests Scenario.tokenA Scenario.tokenB Scenario.pools Scenario.pairRoutes
    Scenario.percents Scenario.amounts 0 true ∅
  = Returns (Scenario.firstHopRequests.1, Scenario.firstHopRequests.2) /\
  (50, 500) ∈ zip Scenario.percents Scenario.amounts /\
  Scenario.pairRoutes !! 1%nat = Some ["pool1"] /\
  entryAt Scenario.firstHopRequests.2 50 1 = Some (freshEntry 50 ["pool1"]) /\
  exists u, u ∈ Scenario.firstHopRequests.1 /\
    upd_percent u = 50 /\ upd_routeIndex u = 1%nat /\
    req_tokenAmount (upd_request u) = 500 /\
    req_tradeTokenMint (upd_request u) = Scenario.tokenA.
Proof.
  assert (Hin : (50, 500) ∈ zip Scenario.percents Scenario.amounts)
    by (apply (bool_decide_unpack _); vm_compute; exact I).
  assert (Hroute : Scenario.pairRoutes !! 1%nat = Some ["pool1"]) by reflexivity.
  split; [exact scenario_percents_NoDup|]. split; [exact scenario_first_hop_built|].
  split; [exact Hin|]. split; [exact Hroute|].
  apply (buildQuoteUpdateRequests_starts_route_with_slice Scenario.tokenA Scenario.tokenB
           Scenario.pools Scenario.pairRoutes 0 true Scenario.percents Scenario.amounts
           ∅ _ _ 50 500 1 ["pool1"] scenario_percents_NoDup scenario_first_hop_built
           Hin Hroute).
  - cbn. lia.
  - reflexivity.
Defined.

(** [quote_map_is_indexed_by_percent_and_route] on the scenario. *)
Lemma quote_map_is_indexed_by_percent_and_route_witness :
  NoDup (zip Scenario.percents Scenario.amounts).*1 /\
  quoteAllHops Scenario.swapQuoteWithParams Scenario.batchBuildSwapQuoteParams
    Scenario.tokenA Scenario.tokenB Scenario.pools Scenario.pairRoutes Scenario.percents
    Scenario.amounts true (hopIteration (max_list (length <$> Scenario.pairRoutes)) true)
  = Returns (Scenario.quoteMapAfter 3) /\
  (forall p bucket, Scenario.quoteMapAfter 3 !! p = Some bucket ->
     p ∈ (zip Scenario.percents Scenario.amounts).*1 /\
     length bucket = length Scenario.pairRoutes) /\
  (Exists (fun route => route ≠ []) Scenario.pairRoutes ->
   forall p, p ∈ (zip Scenario.percents Scenario.amounts).*1 ->
     is_Some (Scenario.quoteMapAfter 3 !! p)) /\
  (forall p r q, entryAt (Scenario.quoteMapAfter 3) p r = Some q ->
     irq_percent q = p /\ Scenario.pairRoutes !! r = Some (irq_route q) /\
     length (irq_calculatedHops q) = length (irq_route q)).
Proof.
  split; [exact scenario_percents_NoDup|]. split; [exact scenario_quoted|].
  exact (quote_map_is_indexed_by_percent_and_route Scenario.swapQuoteWithParams
           Scenario.batchBuildSwapQuoteParams Scenario.tokenA Scenario.tokenB Scenario.pools
           Scenario.pairRoutes Scenario.percents Scenario.amounts true
           (Scenario.quoteMapAfter 3) scenario_percents_NoDup scenario_quoted).
Defined.

Lemma scenario_direct_entry :
  entryAt (Scenario.quoteMapAfter 3) 100 1 = Some EdgeCases.directEntry.
Proof. vm_compute. reflexivity. Defined.

Lemma scenario_direct_hop :
  exists h, arrGet (irq_calculatedHops EdgeCases.directEntry) 0 = Some (HopSuccess h).
Proof. vm_compute. eexists. reflexivity. Defined.

(** [success_hops_carry_bucket_and_pool] on the scenario: the hop of pool1 at
    100%. *)
Lemma success_hops_carry_bucket_and_pool_witness :
  NoDup (zip Scenario.percents Scenario.amounts).*1 /\
  quoteAllHops Scenario.swapQuoteWithParams Scenario.batchBuildSwapQuoteParams
    Scenario.tokenA Scenario.tokenB Scenario.pools Scenario.pairRoutes Scenario.percents
    Scenario.amounts true (hopIteration (max_list (length <$> Scenario.pairRoutes)) true)
  = Returns (Scenario.quoteMapAfter 3) /\
  entryAt (Scenario.quoteMapAfter 3) 100 1 = Some EdgeCases.directEntry /\
  exists h,
    arrGet (irq_calculatedHops EdgeCases.directEntry) 0 = Some (HopSuccess h) /\
    hop_percent h = 100 /\
    exists pool,
      poolAt Scenario.tokenA Scenario.pools (irq_route EdgeCases.directEntry) 0 = Some pool /\
      hop_whirlpool h = pool_address pool.
Proof.
  split; [exact scenario_percents_NoDup|]. split; [exact scenario_quoted|].
  split; [exact scenario_direct_entry|].
  destruct scenario_direct_hop as [h Hh]. exists h. split; [exact Hh|].
  exact (success_hops_carry_bucket_and_pool Scenario.swapQuoteWithParams
           Scenario.batchBuildSwapQuoteParams Scenario.tokenA Scenario.tokenB Scenario.pools
           Scenario.pairRoutes Scenario.percents Scenario.amounts true
           (Scenario.quoteMapAfter 3) scenario_percents_NoDup scenario_quoted
           100 1 0 EdgeCases.directEntry h scenario_direct_entry Hh).
Defined.

Lemma scenario_full_slice : (100, 1000) ∈ zip Scenario.percents Scenario.amounts.
Proof. apply (bool_decide_unpack _). vm_compute. exact I. Defined.

(** [chain_hands_amounts_on] on the scenario: the hop of pool1 at 100% was
    quoted for the whole 1000. *)
Lemma chain_hands_amounts_on_witness :
  NoDup (zip Scenario.percents Scenario.amounts).*1 /\
  quoteAllHops Scenario.swapQuoteWithParams Scenario.batchBuildSwapQuoteParams
    Scenario.tokenA Scenario.tokenB Scenario.pools Scenario.pairRoutes Scenario.percents
    Scenario.amounts true (hopIteration (max_list (length <$> Scenario.pairRoutes)) true)
  = Returns (Scenario.quoteMapAfter 3) /\
  (100, 1000) ∈ zip Scenario.percents Scenario.amounts /\
  entryAt (Scenario.quoteMapAfter 3) 100 1 = Some EdgeCases.directEntry /\
  exists h,
    arrGet (irq_calculatedHops EdgeCases.directEntry) 0 = Some (HopSuccess h) /\
    hop_amountIn h = 1000.
Proof.
  split; [exact scenario_percents_NoDup|]. split; [exact scenario_quoted|].
  split; [exact scenario_full_slice|]. split; [exact scenario_direct_entry|].
  destruct scenario_direct_hop as [h Hh]. exists h. split; [exact Hh|].
  exact (proj1 (chain_hands_amounts_on Scenario.swapQuoteWithParams
                  Scenario.batchBuildSwapQuoteParams Scenario.tokenA Scenario.tokenB
                  Scenario.pools Scenario.pairRoutes Scenario.percents Scenario.amounts true
                  (Scenario.quoteMapAfter 3) scenario_percents_NoDup scenario_quoted
                  scenario_batch_echo 100 1000 1 EdgeCases.directEntry
                  scenario_full_slice scenario_direct_entry) h Hh).
Defined.

Lemma scenario_full_bucket : Scenario.categorized.1 !! 100 = Some EdgeCases.fullBucket.
Proof. vm_compute. reflexivity. Defined.

Lemma scenario_full_bucket_head : exists rq, head EdgeCases.fullBucket = Some rq.
Proof. vm_compute. eexists. reflexivity. Defined.

(** [route_quote_hops_hand_amounts_on] on the scenario: a route quote of the
    100% bucket has a first hop quoted for 1000. *)
Lemma route_quote_hops_hand_amounts_on_witness :
  NoDup (zip Scenario.percents Scenario.amounts).*1 /\
  quoteAllHops Scenario.swapQuoteWithParams Scenario.batchBuildSwapQuoteParams
    Scenario.tokenA Scenario.tokenB Scenario.pools Scenario.pairRoutes Scenario.percents
    Scenario.amounts true (hopIteration (max_list (length <$> Scenario.pairRoutes)) true)
  = Returns (Scenario.quoteMapAfter 3) /\
  categorizeQuotes 1000 true (Scenario.quoteMapAfter 3)
  = Returns (Scenario.categorized.1, Scenario.categorized.2) /\
  (100, 1000) ∈ zip Scenario.percents Scenario.amounts /\
  Scenario.categorized.1 !! 100 = Some EdgeCases.fullBucket /\
  exists rq, rq ∈ EdgeCases.fullBucket /\
    length (rq_calculatedHops rq) = length (rq_route rq) /\
    hop_amountIn <$> head (rq_calculatedHops rq) = Some 1000.
Proof.
  split; [exact scenario_percents_NoDup|]. split; [exact scenario_quoted|].
  split; [exact scenario_categorized_pair|]. split; [exact scenario_full_slice|].
  split; [exact scenario_full_bucket|].
  destruct scenario_full_bucket_head as [rq Hrq]. exists rq.
  assert (Hin : rq ∈ EdgeCases.fullBucket).
  { destruct EdgeCases.fullBucket as [|rq' rest]; [discriminate|].
    injection Hrq as ->. apply elem_of_cons. left. reflexivity. }
  split; [exact Hin|].
  destruct (route_quote_hops_hand_amounts_on Scenario.swapQuoteWithParams
              Scenario.batchBuildSwapQuoteParams Scenario.tokenA Scenario.tokenB
              Scenario.pools Scenario.pairRoutes Scenario.percents Scenario.amounts true
              (Scenario.quoteMapAfter 3) scenario_percents_NoDup scenario_quoted
              scenario_batch_echo 1000 Scenario.categorized.1 Scenario.categorized.2
              100 1000 EdgeCases.fullBucket rq scenario_categorized_pair
              scenario_full_slice scenario_full_bucket Hin) as (Hlen & Hfirst & _).
  split; [exact Hlen|exact Hfirst].
Defined.

Lemma scenario_slices :
  generatePercentageAmounts 3 1000 50 = Some (Scenario.percents, Scenario.amounts).
Proof. vm_compute. reflexivity. Defined.

(** [full_bucket_quote_agrees_with_chain] on the scenario: a route quote of
    the 100% bucket carries the amounts of its chain's two ends, and 1000 as
    its input. *)
Lemma full_bucket_quote_agrees_with_chain_witness :
  NoDup (zip Scenario.percents Scenario.amounts).*1 /\
  quoteAllHops Scenario.swapQuoteWithParams Scenario.batchBuildSwapQuoteParams
    Scenario.tokenA Scenario.tokenB Scenario.pools Scenario.pairRoutes Scenario.percents
    Scenario.amounts true (hopIteration (max_list (length <$> Scenario.pairRoutes)) true)
  = Returns (Scenario.quoteMapAfter 3) /\
  generatePercentageAmounts 3 1000 50 = Some (Scenario.percents, Scenario.amounts) /\
  categorizeQuotes 1000 true (Scenario.quoteMapAfter 3)
  = Returns (Scenario.categorized.1, Scenario.categorized.2) /\
  Scenario.categorized.1 !! 100 = Some EdgeCases.fullBucket /\
  exists rq, rq ∈ EdgeCases.fullBucket /\
    hop_amountIn <$> head (rq_calculatedHops rq) = Some (rq_amountIn rq) /\
    hop_amountOut <$> last (rq_calculatedHops rq) = Some (rq_amountOut rq) /\
    rq_amountIn rq = 1000.
Proof.
  split; [exact scenario_percents_NoDup|]. split; [exact scenario_quoted|].
  split; [exact scenario_slices|]. split; [exact scenario_categorized_pair|].
  split; [exact scenario_full_bucket|].
  destruct scenario_full_bucket_head as [rq Hrq]. exists rq.
  assert (Hin : rq ∈ EdgeCases.fullBucket).
  { destruct EdgeCases.fullBucket as [|rq' rest]; [discriminate|].
    injection Hrq as ->. apply elem_of_cons. left. reflexivity. }
  split; [exact Hin|].
  exact (full_bucket_quote_agrees_with_chain Scenario.swapQuoteWithParams
           Scenario.batchBuildSwapQuoteParams Scenario.tokenA Scenario.tokenB
           Scenario.pools Scenario.pairRoutes Scenario.percents Scenario.amounts true
           (Scenario.quoteMapAfter 3) scenario_percents_NoDup scenario_quoted
           scenario_batch_echo 3 1000 50 Scenario.categorized.1 Scenario.categorized.2
           EdgeCases.fullBucket rq scenario_slices scenario_categorized_pair
           scenario_full_bucket Hin).
Defined.

Lemma scenario_walks : 
  Scenario.walks !! Scenario.getRouteId Scenario.tokenA Scenario.tokenB
  = Some Scenario.pairRoutes.
Proof. vm_compute. reflexivity. Defined.

Lemma scenario_halves_step : percentIncrement (mergeRoutingOptions Scenario.halves) ≠ 0.
Proof. vm_compute. discriminate. Defined.

Lemma scenario_halves_fuel :
  (Z.to_nat (100 / percentIncrement (mergeRoutingOptions Scenario.halves)) < 3)%nat.
Proof. vm_compute. lia. Defined.

(** [findBestRoutes_resolves] on the scenario. *)
Lemma findBestRoutes_resolves_witness :
  Scenario.walks !! Scenario.getRouteId Scenario.tokenA Scenario.tokenB
    = Some Scenario.pairRoutes /\
  Forall (fun route => route ≠ []) Scenario.pairRoutes /\
  (forall swapParam, Scenario.swapQuoteWithParams swapParam ≠ Throws Nullish) /\
  (findBestRoutes Scenario.swapQuoteWithParams Scenario.batchBuildSwapQuoteParams
     Scenario.prefetchRoutes Scenario.getRouteId specRankedRoutes 3 Scenario.tokenA
     Scenario.tokenB 1000 true Scenario.walks Scenario.pools Scenario.halves
   = Some (Resolved (BestRoutesFailure TRADE_AMOUNT_TOO_HIGH None)) \/
   exists bestRoutes,
     findBestRoutes Scenario.swapQuoteWithParams Scenario.batchBuildSwapQuoteParams
       Scenario.prefetchRoutes Scenario.getRouteId specRankedRoutes 3 Scenario.tokenA
       Scenario.tokenB 1000 true Scenario.walks Scenario.pools Scenario.halves
     = Some (Resolved (BestRoutes bestRoutes))).
Proof.
  assert (Hhops : Forall (fun route : list Address => route ≠ []) Scenario.pairRoutes)
    by (repeat constructor; discriminate).
  split; [exact scenario_walks|]. split; [exact Hhops|].
  split; [exact scenario_engine_readable|].
  apply (findBestRoutes_resolves Scenario.swapQuoteWithParams
           Scenario.batchBuildSwapQuoteParams Scenario.prefetchRoutes Scenario.getRouteId
           specRankedRoutes 3 Scenario.tokenA Scenario.tokenB 1000 true Scenario.walks
           Scenario.pools Scenario.halves Scenario.pairRoutes).
  - exact scenario_walks.
  - discriminate.
  - reflexivity.
  - exact scenario_halves_step.
  - exact scenario_halves_fuel.
  - discriminate.
  - exact Hhops.
  - exact scenario_pools_known.
  - exact scenario_batch_returns.
  - exact scenario_engine_readable.
Defined.

(** [findBestRoutes_batch_failure_is_general] on the scenario with a parameter
    builder that is down. *)
Lemma findBestRoutes_batch_failure_is_general_witness :
  (forall requests, EdgeCases.brokenBatch requests = Throws (Fault "rpc down")) /\
  Exists (fun route => route ≠ []) Scenario.pairRoutes /\
  findBestRoutes Scenario.swapQuoteWithParams EdgeCases.brokenBatch
    Scenario.prefetchRoutes Scenario.getRouteId specRankedRoutes 3 Scenario.tokenA
    Scenario.tokenB 1000 true Scenario.walks Scenario.pools Scenario.halves
  = Some (Resolved (BestRoutesFailure GENERAL (Some (Fault "rpc down")))).
Proof.
  assert (Hdown : forall requests, EdgeCases.brokenBatch requests = Throws (Fault "rpc down"))
    by (intros requests; reflexivity).
  assert (Hex : Exists (fun route : list Address => route ≠ []) Scenario.pairRoutes)
    by (apply Exists_cons_hd; discriminate).
  assert (Hzero : 1000 ≠ 0) by discriminate.
  split; [exact Hdown|]. split; [exact Hex|].
  destruct (findBestRoutes_batch_failure_is_general Scenario.swapQuoteWithParams
              EdgeCases.brokenBatch Scenario.prefetchRoutes Scenario.getRouteId
              specRankedRoutes 3 Scenario.tokenA Scenario.tokenB 1000 true Scenario.walks
              Scenario.pools Scenario.halves Scenario.pairRoutes (Fault "rpc down")
              scenario_walks Hzero eq_refl scenario_halves_step scenario_halves_fuel
              Hex scenario_pools_known Hdown) as [Hgeneral _].
  apply Hgeneral. discriminate.
Defined.

(** [findBestRoutes_unreadable_engine_error_is_general] on the scenario with a
    quote engine that throws [null]. *)
Lemma findBestRoutes_unreadable_engine_error_is_general_witness :
  (forall swapParam, EdgeCases.nullEngine swapParam = Throws Nullish) /\
  Exists (fun route => route ≠ []) Scenario.pairRoutes /\
  findBestRoutes EdgeCases.nullEngine Scenario.batchBuildSwapQuoteParams
    Scenario.prefetchRoutes Scenario.getRouteId specRankedRoutes 3 Scenario.tokenA
    Scenario.tokenB 1000 true Scenario.walks Scenario.pools Scenario.halves
  = Some (Resolved (BestRoutesFailure GENERAL (Some TypeError))).
Proof.
  assert (Hnull : forall swapParam, EdgeCases.nullEngine swapParam = Throws Nullish)
    by (intros swapParam; reflexivity).
  assert (Hex : Exists (fun route : list Address => route ≠ []) Scenario.pairRoutes)
    by (apply Exists_cons_hd; discriminate).
  assert (Hstep : 0 < percentIncrement (mergeRoutingOptions Scenario.halves) <= 100)
    by (vm_compute; split; [reflexivity|discriminate]).
  split; [exact Hnull|]. split; [exact Hex|].
  apply (findBestRoutes_unreadable_engine_error_is_general EdgeCases.nullEngine
           Scenario.batchBuildSwapQuoteParams Scenario.prefetchRoutes Scenario.getRouteId
           specRankedRoutes 3 Scenario.tokenA Scenario.tokenB 1000 true Scenario.walks
           Scenario.pools Scenario.halves Scenario.pairRoutes).
  - exact scenario_walks.
  - discriminate.
  - reflexivity.
  - exact Hstep.
  - exact scenario_halves_fuel.
  - exact Hex.
  - exact scenario_pools_known.
  - exact scenario_batch_returns.
  - exact Hnull.
Defined.

(** [findBestRoutes_empty_route_list_rejects] on a pair with no route. *)
Lemma findBestRoutes_empty_route_list_rejects_witness :
  EdgeCases.noRouteWalks !! Scenario.getRouteId Scenario.tokenA Scenario.tokenB = Some [] /\
  findBestRoutes Scenario.swapQuoteWithParams Scenario.batchBuildSwapQuoteParams
    Scenario.prefetchRoutes Scenario.getRouteId specRankedRoutes 3 Scenario.tokenA
    Scenario.tokenB 1000 true EdgeCases.noRouteWalks Scenario.pools Scenario.halves
  = Some (Rejected (Uncaught RangeError)).
Proof.
  assert (Hwalk : EdgeCases.noRouteWalks
                    !! Scenario.getRouteId Scenario.tokenA Scenario.tokenB = Some [])
    by (vm_compute; reflexivity).
  split; [exact Hwalk|].
  apply (findBestRoutes_empty_route_list_rejects Scenario.swapQuoteWithParams
           Scenario.batchBuildSwapQuoteParams Scenario.prefetchRoutes Scenario.getRouteId
           specRankedRoutes 3 Scenario.tokenA Scenario.tokenB 1000 true
           EdgeCases.noRouteWalks Scenario.pools Scenario.halves).
  - exact Hwalk.
  - discriminate.
  - reflexivity.
  - exact scenario_halves_step.
  - exact scenario_halves_fuel.
Defined.

Lemma hole_pools_known (route : list Address) (a : Address) :
  route ∈ EdgeCases.holeRoutes -> a ∈ route -> is_Some (Scenario.pools !! a).
Proof.
  intros Hr Ha.
  assert (Hall : Forall (Forall (fun a => is_Some (Scenario.pools !! a))) EdgeCases.holeRoutes)
    by (apply (bool_decide_unpack _); vm_compute; exact I).
  rewrite Forall_forall in Hall. specialize (Hall route Hr).
  rewrite Forall_forall in Hall. by apply Hall.
Qed.

(** [findBestRoutes_empty_route_rejects] on a pair with an empty route beside
    pool1. *)
Lemma findBestRoutes_empty_route_rejects_witness :
  EdgeCases.holeWalks !! Scenario.getRouteId Scenario.tokenA Scenario.tokenB
    = Some EdgeCases.holeRoutes /\
  [] ∈ EdgeCases.holeRoutes /\
  Exists (fun route => route ≠ []) EdgeCases.holeRoutes /\
  (forall swapParam, Scenario.swapQuoteWithParams swapParam ≠ Throws Nullish) /\
  findBestRoutes Scenario.swapQuoteWithParams Scenario.batchBuildSwapQuoteParams
    Scenario.prefetchRoutes Scenario.getRouteId specRankedRoutes 3 Scenario.tokenA
    Scenario.tokenB 1000 true EdgeCases.holeWalks Scenario.pools Scenario.halves
  = Some (Rejected (Uncaught TypeError)).
Proof.
  assert (Hwalk : EdgeCases.holeWalks
                    !! Scenario.getRouteId Scenario.tokenA Scenario.tokenB
                  = Some EdgeCases.holeRoutes)
    by (vm_compute; reflexivity).
  assert (Hempty : [] ∈ EdgeCases.holeRoutes) by (apply elem_of_cons; left; reflexivity).
  assert (Hex : Exists (fun route : list Address => route ≠ []) EdgeCases.holeRoutes)
    by (apply Exists_cons_tl, Exists_cons_hd; discriminate).
  assert (Hstep : 0 < percentIncrement (mergeRoutingOptions Scenario.halves) <= 100)
    by (vm_compute; split; [reflexivity|discriminate]).
  split; [exact Hwalk|]. split; [exact Hempty|]. split; [exact Hex|].
  split; [exact scenario_engine_readable|].
  apply (findBestRoutes_empty_route_rejects Scenario.swapQuoteWithParams
           Scenario.batchBuildSwapQuoteParams Scenario.prefetchRoutes Scenario.getRouteId
           specRankedRoutes 3 Scenario.tokenA Scenario.tokenB 1000 true
           EdgeCases.holeWalks Scenario.pools Scenario.halves EdgeCases.holeRoutes).
  - exact Hwalk.
  - discriminate.
  - reflexivity.
  - exact Hstep.
  - exact scenario_halves_fuel.
  - exact Hempty.
  - exact Hex.
  - exact hole_pools_known.
  - exact scenario_batch_returns.
  - exact scenario_engine_readable.
Defined.

Lemma steps30_reaches_ranking :
  reachesRanking Scenario.swapQuoteWithParams Scenario.batchBuildSwapQuoteParams
    Scenario.prefetchRoutes Scenario.getRouteId 4 Scenario.tokenA Scenario.tokenB 1000 true
    Scenario.walks Scenario.pools (mergeRoutingOptions EdgeCases.steps30)
    EdgeCases.steps30Categorized.1 EdgeCases.steps30Categorized.2.
Proof.
  exists Scenario.pairRoutes, [30; 60; 90], [300; 600; 900], EdgeCases.steps30QuoteMap.
  split_and!.
  - vm_compute. reflexivity.
  - discriminate.
  - reflexivity.
  - vm_compute. reflexivity.
  - discriminate.
  - vm_compute. reflexivity.
  - vm_compute. reflexivity.
Defined.

(** [findBestRoutes_without_full_bucket] on the scenario in steps of 30. *)
Lemma findBestRoutes_without_full_bucket_witness :
  reachesRanking Scenario.swapQuoteWithParams Scenario.batchBuildSwapQuoteParams
    Scenario.prefetchRoutes Scenario.getRouteId 4 Scenario.tokenA Scenario.tokenB 1000 true
    Scenario.walks Scenario.pools (mergeRoutingOptions EdgeCases.steps30)
    EdgeCases.steps30Categorized.1 EdgeCases.steps30Categorized.2 /\
  ~ (percentIncrement (mergeRoutingOptions EdgeCases.steps30) | 100) /\
  EdgeCases.steps30Categorized.1 !! 100 = None /\
  degenerateCandidates (mergeRoutingOptions EdgeCases.steps30) true
    EdgeCases.steps30Categorized.1 = [].
Proof.
  assert (Hndiv : ~ (percentIncrement (mergeRoutingOptions EdgeCases.steps30) | 100)).
  { change (percentIncrement (mergeRoutingOptions EdgeCases.steps30)) with 30.
    intros [k Hk]. lia. }
  split; [exact steps30_reaches_ranking|]. split; [exact Hndiv|].
  destruct (findBestRoutes_without_full_bucket Scenario.swapQuoteWithParams
              Scenario.batchBuildSwapQuoteParams Scenario.prefetchRoutes
              Scenario.getRouteId specRankedRoutes 4 Scenario.tokenA Scenario.tokenB 1000
              true Scenario.walks Scenario.pools EdgeCases.steps30
              EdgeCases.steps30Categorized.1 EdgeCases.steps30Categorized.2
              steps30_reaches_ranking Hndiv) as (Hnone & Hdeg & _).
  split; [exact Hnone|exact Hdeg].
Defined.

Lemma scenario_pools_listed :
  EdgeCases.listPools (Prefetch.poolSetOf Scenario.pairRoutes) false
  = Returns EdgeCases.fetchedPools.
Proof. vm_compute. reflexivity. Defined.

(** [prefetchRoutes_fetches_tick_arrays_of_found_pools] on the routes of the
    scenario, with a fetcher that does not find poolXY. *)
Lemma prefetchRoutes_fetches_tick_arrays_of_found_pools_witness :
  EdgeCases.listPools (Prefetch.poolSetOf Scenario.pairRoutes) false
    = Returns EdgeCases.fetchedPools /\
  (Prefetch.prefetchRoutes EdgeCases.listPools EdgeCases.listTickArrays
     EdgeCases.getTickArrayPublicKeys Scenario.pairRoutes EdgeCases.programId).1
    = Returns tt /\
  exists groups : list (list Address),
    (Prefetch.prefetchRoutes EdgeCases.listPools EdgeCases.listTickArrays
       EdgeCases.getTickArrayPublicKeys Scenario.pairRoutes EdgeCases.programId).2
      = [Prefetch.ListPools (Prefetch.poolSetOf Scenario.pairRoutes) false;
         Prefetch.ListTickArrays (concat groups) false] /\
    length groups = length EdgeCases.fetchedPools.
Proof.
  assert (Hrun : (Prefetch.prefetchRoutes EdgeCases.listPools EdgeCases.listTickArrays
                    EdgeCases.getTickArrayPublicKeys Scenario.pairRoutes
                    EdgeCases.programId).1 = Returns tt)
    by (vm_compute; reflexivity).
  split; [exact scenario_pools_listed|]. split; [exact Hrun|].
  destruct (prefetchRoutes_fetches_tick_arrays_of_found_pools
              EdgeCases.listPools EdgeCases.listTickArrays EdgeCases.getTickArrayPublicKeys
              Scenario.pairRoutes EdgeCases.programId EdgeCases.fetchedPools
              scenario_pools_listed Hrun) as (groups & Htrace & _ & Hlen & _).
  exists groups. split; [exact Htrace|exact Hlen].
Defined.

(** [findBestRoutes_rejects_when_pools_cannot_be_listed] on the scenario with
    a fetcher that is down. *)
Lemma findBestRoutes_rejects_when_pools_cannot_be_listed_witness :
  EdgeCases.listPoolsDown (Prefetch.poolSetOf Scenario.pairRoutes) false
    = Throws (Fault "rpc down") /\
  forall fuel,
    findBestRoutes Scenario.swapQuoteWithParams Scenario.batchBuildSwapQuoteParams
      (fun routes =>
         (Prefetch.prefetchRoutes EdgeCases.listPoolsDown EdgeCases.listTickArrays
            EdgeCases.getTickArrayPublicKeys routes EdgeCases.programId).1)
      Scenario.getRouteId specRankedRoutes fuel Scenario.tokenA Scenario.tokenB 1000 true
      Scenario.walks Scenario.pools Scenario.halves
    = Some (Rejected (Uncaught (Fault "rpc down"))).
Proof.
  assert (Hdown : EdgeCases.listPoolsDown (Prefetch.poolSetOf Scenario.pairRoutes) false
                  = Throws (Fault "rpc down")) by reflexivity.
  split; [exact Hdown|].
  refine (proj2 (findBestRoutes_rejects_when_pools_cannot_be_listed
                   Scenario.swapQuoteWithParams Scenario.batchBuildSwapQuoteParams
                   Scenario.getRouteId specRankedRoutes EdgeCases.listPoolsDown
                   EdgeCases.listTickArrays EdgeCases.getTickArrayPublicKeys
                   EdgeCases.programId Scenario.tokenA Scenario.tokenB 1000 true
                   Scenario.walks Scenario.pools Scenario.halves Scenario.pairRoutes
                   (Fault "rpc down") scenario_walks _ Hdown)).
  discriminate.
Defined.
